(** * fft.c: free FFT and convolution, verified over the real numbers

    A shallow embedding of [src/fft.c] (the Project Nayuki FFT with the
    two-real-signals packing layered on top).  Integers of type [size_t],
    [unsigned int] and [unsigned long long] are values of [Z] with their
    wrap-around written out; a [double] is idealised as a real number; a
    [double*] buffer is the content of the memory it points to, indexed by
    offset; [malloc] is an oracle that may fail.  Index arithmetic that the
    code keeps inside a buffer is written without the wrap.  A function
    whose loops or calls could run on returns [None] when its fuel is
    spent. *)

From Stdlib Require Import ZArith List Lia Bool Reals Lra.
Import ListNotations.

Local Open Scope Z_scope.

(** ** The C data model *)

(** Widths of the integer types the code uses.  C fixes none of them; the
    code is the same on a 32-bit and on a 64-bit target. *)
Class DataModel := {
  size_bits : Z;     (* size_t *)
  uint_bits : Z;     (* unsigned int, and int *)
  ullong_bits : Z;   (* unsigned long long *)
  uint_bits_min : 16 <= uint_bits;
  size_bits_min : uint_bits <= size_bits;
  ullong_bits_size : size_bits <= ullong_bits;
  ullong_bits_uint : 2 * uint_bits <= ullong_bits;
  size_bits_count : size_bits < 2 ^ uint_bits  (* an unsigned int counts the bits *)
}.

Instance ILP32 : DataModel :=
  Build_DataModel 32 32 64 ltac:(lia) ltac:(lia) ltac:(lia) ltac:(lia) ltac:(lia).

Instance LP64 : DataModel :=
  Build_DataModel 64 32 64 ltac:(lia) ltac:(lia) ltac:(lia) ltac:(lia) ltac:(lia).

Section Machine.
Context {dm : DataModel}.

(** [#define SIZE_MAX ((size_t)-1)] *)
Definition SIZE_MAX : Z := 2 ^ size_bits - 1.

(** [sizeof(double)] *)
Definition sizeof_double : Z := 8.

Definition size_wrap (z : Z) : Z := z mod 2 ^ size_bits.
Definition uint_wrap (z : Z) : Z := z mod 2 ^ uint_bits.
Definition ullong_wrap (z : Z) : Z := z mod 2 ^ ullong_bits.

(** A value of type [size_t]. *)
Definition is_size (n : Z) : Prop := 0 <= n <= SIZE_MAX.

(** [x << s] on [unsigned int]: the bits shifted out are lost.  (For
    [s >= uint_bits] C leaves the result open; whatever it is, it is an
    [unsigned int], a fact [uint_value_below] records.) *)
Definition uint_shl (x s : Z) : Z := uint_wrap (Z.shiftl x s).

(** [x << s] on [size_t]. *)
Definition size_shl (x s : Z) : Z := size_wrap (Z.shiftl x s).

(** ** Buffers and the allocator *)

(** The memory behind a [double*]: sample [i] is the double at offset [i]. *)
Definition buf : Type := Z -> R.

Definition upd (a : buf) (i : Z) (v : R) : buf :=
  fun j => if j =? i then v else a j.

Definition zeros : buf := fun _ => 0%R.

(** The allocator.  [served] logs the sizes requested so far, [outcome k]
    says whether the [k]-th request is satisfied, and [garbage k] is what
    the [k]-th block holds when it is handed out uninitialised. *)
Record heap : Type := mkHeap {
  served : list Z;
  outcome : nat -> bool;
  garbage : nat -> buf
}.

(** [malloc(size)]: [None] is the NULL pointer. *)
Definition malloc (h : heap) (size : Z) : option buf * heap :=
  let k := length (served h) in
  ((if outcome h k then Some (garbage h k) else None),
   mkHeap (size :: served h) (outcome h) (garbage h)).

(** [calloc(count, size)]: as [malloc], zero-filled. *)
Definition calloc (h : heap) (count size : Z) : option buf * heap :=
  let k := length (served h) in
  ((if outcome h k then Some zeros else None),
   mkHeap (count * size :: served h) (outcome h) (garbage h)).

(** [memdup(src, n)]: [malloc] then [memcpy]. *)
Definition memdup (h : heap) (src : buf) (n : Z) : option buf * heap :=
  let k := length (served h) in
  ((if outcome h k then Some src else None),
   mkHeap (n :: served h) (outcome h) (garbage h)).

(** The memory behind a pointer that [malloc] returned.  The code tests
    such a pointer against NULL before it uses it everywhere except in
    [fft_2signals]; behind NULL the model reads zeros. *)
Definition deref (p : option buf) : buf :=
  match p with Some b => b | None => zeros end.

Definition is_null (p : option buf) : bool :=
  match p with Some _ => false | None => true end.

(** ** Loops *)

(** [for (i = start; ...; i += step) body], run [cnt] times. *)
Fixpoint for_loop {S : Type} (cnt : nat) (i step : Z)
         (body : Z -> S -> S) (s : S) : S :=
  match cnt with
  | O => s
  | S c => for_loop c (i + step) step body (body i s)
  end.

(** [for (i = lo; i < hi; i++) body] *)
Definition for_range {S : Type} (lo hi : Z) (body : Z -> S -> S) (s : S) : S :=
  for_loop (Z.to_nat (hi - lo)) lo 1 body s.

(** [for (i = 0; i < hi; i += step) body], for [step > 0]. *)
Definition for_stride {S : Type} (hi step : Z) (body : Z -> S -> S) (s : S) : S :=
  for_loop (Z.to_nat ((hi + step - 1) / step)) 0 step body s.

(** ** [reverse_bits] *)

(** [for (i = 0; i < n; i++, x >>= 1) result = (result << 1) | (x & 1);] *)
Fixpoint reverse_bits_loop (cnt : nat) (x result : Z) : Z :=
  match cnt with
  | O => result
  | S c => reverse_bits_loop c (Z.shiftr x 1)
             (Z.lor (size_shl result 1) (Z.land x 1))
  end.

Definition reverse_bits (x n : Z) : Z := reverse_bits_loop (Z.to_nat n) x 0.

(** ** [transform_radix2]: the integer part *)

(** [while (temp > 1) { levels++; temp >>= 1; }]; [None] when the fuel runs
    out before the loop exits. *)
Fixpoint log2_loop (fuel : nat) (temp levels : Z) : option Z :=
  if 1 <? temp then
    match fuel with
    | O => None
    | S f => log2_loop f (Z.shiftr temp 1) (uint_wrap (levels + 1))
    end
  else Some levels.

(** The verification [1u << levels != n]. *)
Definition not_power_of_2 (levels n : Z) : bool :=
  negb (uint_shl 1 levels =? n).

(** ** [transform_bluestein]: the integer part *)

(** [for (m = 1; m < target; m *= 2) if (SIZE_MAX / 2 < m) return 0;]
    The result is [Some None] for the early [return 0], [Some (Some m)] when
    the loop exits with [m], and [None] when the fuel runs out. *)
Fixpoint find_m_loop (fuel : nat) (m target : Z) : option (option Z) :=
  if m <? target then
    if SIZE_MAX / 2 <? m then Some None
    else match fuel with
         | O => None
         | S f => find_m_loop f (size_wrap (m * 2)) target
         end
  else Some (Some m).

(** ** The numeric loops of [transform_radix2] *)

(** The result of a function that returns a status and leaves two buffers
    behind: [None] when the fuel ran out, otherwise status, the caller's
    [real] and [imag] buffers, and the allocator. *)
Definition outcome2 : Type := option (bool * buf * buf * heap).

(** [cos_table[i] = cos(2 * M_PI * i / n); sin_table[i] = sin(2 * M_PI * i / n);] *)
Definition radix2_tables (n : Z) (cos_table sin_table : buf) : buf * buf :=
  for_range 0 (n / 2)
    (fun i '(ct, st) =>
       (upd ct i (cos (2 * PI * IZR i / IZR n)),
        upd st i (sin (2 * PI * IZR i / IZR n))))
    (cos_table, sin_table).

(** The bit-reversed addressing permutation. *)
Definition bit_reverse_pass (levels n : Z) (real imag : buf) : buf * buf :=
  for_range 0 n
    (fun i '(re, im) =>
       let j := reverse_bits i levels in
       if i <? j then
         let temp := re i in
         let re := upd re i (re j) in
         let re := upd re j temp in
         let temp := im i in
         let im := upd im i (im j) in
         let im := upd im j temp in
         (re, im)
       else (re, im))
    (real, imag).

(** The body of the innermost loop; the state is [k] and the two buffers. *)
Definition butterfly (halfsize tablestep : Z) (cos_table sin_table : buf)
           (j : Z) (s : Z * buf * buf) : Z * buf * buf :=
  let '(k, re, im) := s in
  let tpre := (re (j + halfsize)%Z * cos_table k + im (j + halfsize)%Z * sin_table k)%R in
  let tpim := (- re (j + halfsize)%Z * sin_table k + im (j + halfsize)%Z * cos_table k)%R in
  let re := upd re (j + halfsize) (re j - tpre)%R in
  let im := upd im (j + halfsize) (im j - tpim)%R in
  let re := upd re j (re j + tpre)%R in
  let im := upd im j (im j + tpim)%R in
  (k + tablestep, re, im).

(** [for (i = 0; i < n; i += size) for (j = i, k = 0; j < i + halfsize; j++, k += tablestep)] *)
Definition stage (n size : Z) (cos_table sin_table : buf)
           (real imag : buf) : buf * buf :=
  let halfsize := size / 2 in
  let tablestep := n / size in
  for_stride n size
    (fun i '(re, im) =>
       let '(_, re, im) :=
         for_range i (i + halfsize)
           (butterfly halfsize tablestep cos_table sin_table) (0, re, im) in
       (re, im))
    (real, imag).

(** [for (size = 2; size <= n; size *= 2) { ...; if (size == n) break; }] *)
Fixpoint stages_loop (fuel : nat) (n size : Z) (cos_table sin_table : buf)
         (real imag : buf) : option (buf * buf) :=
  if size <=? n then
    match fuel with
    | O => None
    | S f =>
        let '(re, im) := stage n size cos_table sin_table real imag in
        if size =? n then Some (re, im)
        else stages_loop f n (size_wrap (size * 2)) cos_table sin_table re im
    end
  else Some (real, imag).

(** ** [transform_radix2] *)

Definition transform_radix2 (fuel : nat) (h : heap) (real imag : buf) (n : Z)
  : outcome2 :=
  match log2_loop fuel n 0 with
  | None => None
  | Some levels =>
      if not_power_of_2 levels n then Some (false, real, imag, h)
      else if SIZE_MAX / sizeof_double <? n / 2 then Some (false, real, imag, h)
      else
        let size := size_wrap (n / 2 * sizeof_double) in
        let '(cos_ptr, h) := malloc h size in
        let '(sin_ptr, h) := malloc h size in
        if is_null cos_ptr || is_null sin_ptr then Some (false, real, imag, h)
        else
          let '(cos_table, sin_table) :=
            radix2_tables n (deref cos_ptr) (deref sin_ptr) in
          let '(real, imag) := bit_reverse_pass levels n real imag in
          match stages_loop fuel n 2 cos_table sin_table real imag with
          | None => None
          | Some (real, imag) => Some (true, real, imag, h)
          end
  end.

(** ** [inverse_transform] and [convolve_complex], over a given [transform] *)

Definition transformer : Type := heap -> buf -> buf -> Z -> outcome2.

(** [return transform(imag, real, n);]  The callee's [real] is the caller's
    [imag]. *)
Definition inverse_transform_with (tr : transformer)
           (h : heap) (real imag : buf) (n : Z) : outcome2 :=
  match tr h imag real n with
  | None => None
  | Some (status, imag, real, h) => Some (status, real, imag, h)
  end.

(** The pointwise product loop of [convolve_complex]. *)
Definition pointwise_product (n : Z) (xr xi yr yi : buf) : buf * buf :=
  for_range 0 n
    (fun i '(xr, xi) =>
       let temp := (xr i * yr i - xi i * yi i)%R in
       let xi := upd xi i (xi i * yr i + xr i * yi i)%R in
       let xr := upd xr i temp in
       (xr, xi))
    (xr, xi).

(** The scaling loop of [convolve_complex]. *)
Definition scale_into (n : Z) (xr xi outreal outimag : buf) : buf * buf :=
  for_range 0 n
    (fun i '(outr, outi) =>
       (upd outr i (xr i / IZR n)%R, upd outi i (xi i / IZR n)%R))
    (outreal, outimag).

Definition convolve_complex_with (tr : transformer) (h : heap)
           (xreal ximag yreal yimag outreal outimag : buf) (n : Z) : outcome2 :=
  if SIZE_MAX / sizeof_double <? n then Some (false, outreal, outimag, h)
  else
    let size := size_wrap (n * sizeof_double) in
    let '(xr, h) := memdup h xreal size in
    let '(xi, h) := memdup h ximag size in
    let '(yr, h) := memdup h yreal size in
    let '(yi, h) := memdup h yimag size in
    if is_null xr || is_null xi || is_null yr || is_null yi
    then Some (false, outreal, outimag, h)
    else
      match tr h (deref xr) (deref xi) n with
      | None => None
      | Some (false, _, _, h) => Some (false, outreal, outimag, h)
      | Some (true, xr, xi, h) =>
          match tr h (deref yr) (deref yi) n with
          | None => None
          | Some (false, _, _, h) => Some (false, outreal, outimag, h)
          | Some (true, yr, yi, h) =>
              let '(xr, xi) := pointwise_product n xr xi yr yi in
              match inverse_transform_with tr h xr xi n with
              | None => None
              | Some (false, _, _, h) => Some (false, outreal, outimag, h)
              | Some (true, xr, xi, h) =>
                  let '(outreal, outimag) :=
                    scale_into n xr xi outreal outimag in
                  Some (true, outreal, outimag, h)
              end
          end
      end.

(** ** [transform_bluestein], over a given [transform] *)

(** The search for the convolution length; [Some None] is [return 0]. *)
Definition bluestein_length (fuel : nat) (n : Z) : option (option Z) :=
  if (SIZE_MAX - 1) / 2 <? n then Some None
  else
    let target := size_wrap (size_wrap (n * 2) + 1) in
    find_m_loop fuel 1 target.

(** [M_PI * (size_t)((unsigned long long)i * i % ((unsigned long long)n * 2)) / n] *)
Definition chirp_angle (n i : Z) : R :=
  (PI * IZR (size_wrap (ullong_wrap (i * i) mod ullong_wrap (n * 2))) / IZR n)%R.

Definition bluestein_tables (n : Z) (cos_table sin_table : buf) : buf * buf :=
  for_range 0 n
    (fun i '(ct, st) =>
       let temp := chirp_angle n i in
       (upd ct i (cos temp), upd st i (sin temp)))
    (cos_table, sin_table).

(** The vector [a]: the input times the conjugate chirp. *)
Definition bluestein_a (n : Z) (real imag cos_table sin_table : buf)
           (areal aimag : buf) : buf * buf :=
  for_range 0 n
    (fun i '(ar, ai) =>
       (upd ar i (real i * cos_table i + imag i * sin_table i)%R,
        upd ai i (- real i * sin_table i + imag i * cos_table i)%R))
    (areal, aimag).

(** The vector [b]: the chirp, laid out from both ends. *)
Definition bluestein_b (n m : Z) (cos_table sin_table : buf)
           (breal bimag : buf) : buf * buf :=
  let breal := upd breal 0 (cos_table 0) in
  let bimag := upd bimag 0 (sin_table 0) in
  for_range 1 n
    (fun i '(br, bi) =>
       let br := upd br (m - i) (cos_table i) in
       let br := upd br i (br (m - i)) in
       let bi := upd bi (m - i) (sin_table i) in
       let bi := upd bi i (bi (m - i)) in
       (br, bi))
    (breal, bimag).

(** The postprocessing loop. *)
Definition bluestein_post (n : Z) (creal cimag cos_table sin_table : buf)
           (real imag : buf) : buf * buf :=
  for_range 0 n
    (fun i '(re, im) =>
       (upd re i (creal i * cos_table i + cimag i * sin_table i)%R,
        upd im i (- creal i * sin_table i + cimag i * cos_table i)%R))
    (real, imag).

Definition transform_bluestein_with (tr : transformer) (fuel : nat) (h : heap)
           (real imag : buf) (n : Z) : outcome2 :=
  match bluestein_length fuel n with
  | None => None
  | Some None => Some (false, real, imag, h)
  | Some (Some m) =>
      if (SIZE_MAX / sizeof_double <? n) || (SIZE_MAX / sizeof_double <? m)
      then Some (false, real, imag, h)
      else
        let size_n := size_wrap (n * sizeof_double) in
        let size_m := size_wrap (m * sizeof_double) in
        let '(cos_ptr, h) := malloc h size_n in
        let '(sin_ptr, h) := malloc h size_n in
        let '(areal, h) := calloc h m sizeof_double in
        let '(aimag, h) := calloc h m sizeof_double in
        let '(breal, h) := calloc h m sizeof_double in
        let '(bimag, h) := calloc h m sizeof_double in
        let '(creal, h) := malloc h size_m in
        let '(cimag, h) := malloc h size_m in
        if is_null cos_ptr || is_null sin_ptr
           || is_null areal || is_null aimag
           || is_null breal || is_null bimag
           || is_null creal || is_null cimag
        then Some (false, real, imag, h)
        else
          let '(cos_table, sin_table) :=
            bluestein_tables n (deref cos_ptr) (deref sin_ptr) in
          let '(areal, aimag) :=
            bluestein_a n real imag cos_table sin_table (deref areal) (deref aimag) in
          let '(breal, bimag) :=
            bluestein_b n m cos_table sin_table (deref breal) (deref bimag) in
          match convolve_complex_with tr h areal aimag breal bimag
                  (deref creal) (deref cimag) m with
          | None => None
          | Some (false, _, _, h) => Some (false, real, imag, h)
          | Some (true, creal, cimag, h) =>
              let '(real, imag) :=
                bluestein_post n creal cimag cos_table sin_table real imag in
              Some (true, real, imag, h)
          end
  end.

(** ** [transform], [inverse_transform], the convolutions *)

(** The recursion [transform -> transform_bluestein -> convolve_complex ->
    transform] is cut by [fuel]: one unit per nested call of [transform],
    the rest left to the loops. *)
Fixpoint transform (fuel : nat) (h : heap) (real imag : buf) (n : Z)
  : outcome2 :=
  match fuel with
  | O => None
  | S f =>
      if n =? 0 then Some (true, real, imag, h)
      else if Z.land n (n - 1) =? 0 then transform_radix2 f h real imag n
      else transform_bluestein_with (transform f) f h real imag n
  end.

Definition transform_bluestein (fuel : nat) : transformer :=
  transform_bluestein_with (transform fuel) fuel.

Definition inverse_transform (fuel : nat) : transformer :=
  inverse_transform_with (transform fuel).

Definition convolve_complex (fuel : nat) (h : heap)
           (xreal ximag yreal yimag outreal outimag : buf) (n : Z) : outcome2 :=
  convolve_complex_with (transform fuel) h
    xreal ximag yreal yimag outreal outimag n.

(** [convolve_real]: status, the caller's [out], the allocator. *)
Definition convolve_real (fuel : nat) (h : heap) (x y out : buf) (n : Z)
  : option (bool * buf * heap) :=
  let '(ximag, h) := calloc h n sizeof_double in
  let '(yimag, h) := calloc h n sizeof_double in
  let '(zimag, h) := calloc h n sizeof_double in
  if is_null ximag || is_null yimag || is_null zimag then Some (false, out, h)
  else
    match convolve_complex fuel h x (deref ximag) y (deref yimag)
            out (deref zimag) n with
    | None => None
    | Some (status, out, _, h) => Some (status, out, h)
    end.

(** ** [fft_2signals] *)

(** The four output buffers of [fft_2signals]. *)
Record spectra : Type := mkSpectra {
  X1_real : buf; X1_imag : buf; X2_real : buf; X2_imag : buf
}.

(** The split of the packed spectrum [X] into [X1] and [X2]. *)
Definition split_spectra (n : Z) (X_real X_imag : buf) (out : spectra) : spectra :=
  let X1r := upd (X1_real out) 0 (X_real 0) in
  let X1i := upd (X1_imag out) 0 0%R in
  let X2r := upd (X2_real out) 0 (X_imag 0) in
  let X2i := upd (X2_imag out) 0 0%R in
  let X1r := upd X1r (n / 2) (X_imag (n / 2)) in
  let X2r := upd X2r (n / 2) (X_imag (n / 2)) in
  let X1i := upd X1i (n / 2) 0%R in
  let X2i := upd X2i (n / 2) 0%R in
  for_range 1 (n / 2)
    (fun k o =>
       let X1r := upd (X1_real o) k (0.5 * (X_real k + X_real (n - k)%Z))%R in
       let X2r := upd (X2_real o) k (0.5 * (X_imag k + X_imag (n - k)%Z))%R in
       let X1r := upd X1r (n - k) (X1r k) in
       let X2r := upd X2r (n - k) (X2r k) in
       let X1i := upd (X1_imag o) k (0.5 * (X_imag k - X_imag (n - k)%Z))%R in
       let X2i := upd (X2_imag o) k (- 0.5 * (X_real k - X_real (n - k)%Z))%R in
       let X1i := upd X1i (n - k) (- X1i k)%R in
       let X2i := upd X2i (n - k) (- X2i k)%R in
       mkSpectra X1r X1i X2r X2i)
    (mkSpectra X1r X1i X2r X2i).

(** The packing loop: [X_real[i] = signal_1[i]; X_imag[i] = signal_2[i];] *)
Definition pack_signals (n : Z) (signal_1 signal_2 X_real X_imag : buf)
  : buf * buf :=
  for_range 0 n
    (fun i '(xr, xi) => (upd xr i (signal_1 i), upd xi i (signal_2 i)))
    (X_real, X_imag).

(** [fft_2signals]: the two [malloc] results are used unchecked, as in the
    code.  The [int] counters [i], [k] are compared with [n] as [size_t];
    the model lets them count up to [n] whatever the width of [int]. *)
Definition fft_2signals (fuel : nat) (h : heap) (signal_1 signal_2 : buf)
           (out : spectra) (n : Z) : option (bool * spectra * heap) :=
  let '(X_real, h) := malloc h (size_wrap (n * sizeof_double)) in
  let '(X_imag, h) := malloc h (size_wrap (n * sizeof_double)) in
  let '(X_real, X_imag) :=
    pack_signals n signal_1 signal_2 (deref X_real) (deref X_imag) in
  match transform fuel h X_real X_imag n with
  | None => None
  | Some (false, _, _, h) => Some (false, out, h)
  | Some (true, X_real, X_imag, h) =>
      Some (true, split_spectra n X_real X_imag out, h)
  end.

End Machine.

(** ** Specification vocabulary *)

(** An exact power of two. *)
Definition pow2 (n : Z) : Prop := exists k, 0 <= k /\ n = 2 ^ k.

Section Vocabulary.
Context {dm : DataModel}.

(** The butterfly stages [size, 2 size, 4 size, ...], [cnt] of them. *)
Fixpoint stages_iter (cnt : nat) (n size : Z) (cos_table sin_table : buf)
         (real imag : buf) : buf * buf :=
  match cnt with
  | O => (real, imag)
  | S c =>
      let '(re, im) := stage n size cos_table sin_table real imag in
      stages_iter c n (size * 2) cos_table sin_table re im
  end.

(** What [transform_radix2] leaves in the buffers when it succeeds on
    [n = 2 ^ levels]: tables, bit reversal, then [levels] butterfly stages. *)
Definition radix2_core (levels n : Z) (cos_table sin_table real imag : buf)
  : buf * buf :=
  let '(cos_table, sin_table) := radix2_tables n cos_table sin_table in
  let '(real, imag) := bit_reverse_pass levels n real imag in
  stages_iter (Z.to_nat levels) n 2 cos_table sin_table real imag.

(** The invariant of the bit-reversal pass when its counter is [i0]: the
    entries the pass has met hold their final value, the others their
    initial one. *)
Definition reversed_upto (w i0 : Z) (a0 a : buf) : Prop :=
  forall p, 0 <= p < 2 ^ w ->
    a p = if (p <? i0) || (reverse_bits p w <? i0) then a0 (reverse_bits p w)
          else a0 p.

(** A table [t] laid out from both ends of a zero buffer of length [m]:
    [t 0] at 0, [t j] at [j] and at [m - j] for [0 < j < n], 0 elsewhere. *)
Definition two_sided (t : buf) (n m : Z) : buf :=
  fun j =>
    if j =? 0 then t 0
    else if (0 <? j) && (j <? n) then t j
    else if (m - n <? j) && (j <? m) then t (m - j)
    else 0%R.

End Vocabulary.

(** ** Complex numbers, sums and the discrete Fourier transform *)

(** A complex sample: real part, imaginary part. *)
Definition C : Type := (R * R)%type.

Definition C0 : C := (0, 0)%R.
Definition C1 : C := (1, 0)%R.
Definition RtoC (r : R) : C := (r, 0%R).
Definition Cadd (a b : C) : C := (fst a + fst b, snd a + snd b)%R.
Definition Copp (a : C) : C := (- fst a, - snd a)%R.
Definition Csub (a b : C) : C := (fst a - fst b, snd a - snd b)%R.
Definition Cmul (a b : C) : C :=
  (fst a * fst b - snd a * snd b, fst a * snd b + snd a * fst b)%R.
Definition Cconj (a : C) : C := (fst a, - snd a)%R.
Definition Cswap (a : C) : C := (snd a, fst a).
Definition Cscal (r : R) (a : C) : C := (r * fst a, r * snd a)%R.

(** [cos t + i sin t] *)
Definition cis (t : R) : C := (cos t, sin t).

(** The [N]-th root of unity of the forward transform, to the power [k]:
    [exp(-2 pi i k / N)]. *)
Definition omega (N k : Z) : C := cis (- (2 * PI * IZR k / IZR N)).

(** [f 0 + f 1 + ... + f (cnt - 1)] *)
Fixpoint Csum (cnt : nat) (f : Z -> C) : C :=
  match cnt with
  | O => C0
  | S c => Cadd (Csum c f) (f (Z.of_nat c))
  end.

Fixpoint Rsum (cnt : nat) (f : Z -> R) : R :=
  match cnt with
  | O => 0%R
  | S c => (Rsum c f + f (Z.of_nat c))%R
  end.

(** Two buffers read as one complex signal. *)
Definition cplx (re im : buf) : Z -> C := fun i => (re i, im i).

(** The discrete Fourier transform of the first [n] samples of [x]. *)
Definition dft (n : Z) (x : Z -> C) (k : Z) : C :=
  Csum (Z.to_nat n) (fun t => Cmul (x t) (omega n (t * k))).

(** The inverse transform without its factor [1/n]. *)
Definition idft (n : Z) (X : Z -> C) (j : Z) : C :=
  Csum (Z.to_nat n) (fun k => Cmul (X k) (omega n (- (k * j)))).

(** The naive circular convolution: [sum over t of x[t] * y[(k - t) mod n]]. *)
Definition circular_convolution (n : Z) (x y : Z -> C) (k : Z) : C :=
  Csum (Z.to_nat n) (fun t => Cmul (x t) (y ((k - t) mod n))).

Definition circular_convolution_real (n : Z) (x y : buf) (k : Z) : R :=
  Rsum (Z.to_nat n) (fun t => (x t * y ((k - t) mod n))%R).

(** The twiddle factor read from the two tables: [cos_table[k] - i sin_table[k]]. *)
Definition twiddle (cos_table sin_table : buf) (k : Z) : C :=
  (cos_table k, (- sin_table k)%R).

(** One butterfly stage of block length [size], entry by entry: the lower
    half of a block receives [z p + w z (p + half)], the upper half
    [z (p - half) - w z p]. *)
Definition stage_entry (n size : Z) (cos_table sin_table : buf)
           (z : Z -> C) (p : Z) : C :=
  let half := size / 2 in
  let tablestep := n / size in
  let q := p mod size in
  if q <? half
  then Cadd (z p) (Cmul (z (p + half)) (twiddle cos_table sin_table (q * tablestep)))
  else Csub (z (p - half))
            (Cmul (z p) (twiddle cos_table sin_table ((q - half) * tablestep))).

(** After the stages up to block length [2 ^ l], every block holds the
    transform of the [2 ^ l] bit-reversed entries it started from. *)
Definition blocks_dft {dm : DataModel} (l n : Z) (a0 a : Z -> C) : Prop :=
  forall p, 0 <= p < n ->
    a p = dft (2 ^ l) (fun t => a0 (p / 2 ^ l * 2 ^ l + reverse_bits t l))
              (p mod 2 ^ l).

(** [tr], when it succeeds on length [n], leaves the transform of its input
    in the buffers. *)
Definition computes_dft (tr : transformer) (n : Z) : Prop :=
  forall h re im re' im' h',
    tr h re im n = Some (true, re', im', h') ->
    forall k, 0 <= k < n -> cplx re' im' k = dft n (cplx re im) k.

(** [tr] succeeds on length [n] only if an [unsigned int] can hold [n]. *)
Definition succeeds_below_uint {dm : DataModel} (tr : transformer) (n : Z) : Prop :=
  forall h re im re' im' h',
    tr h re im n = Some (true, re', im', h') -> n < 2 ^ uint_bits.

(** The chirp of Bluestein's algorithm: [exp(i pi j^2 / n)]. *)
Definition chirp (n j : Z) : C := omega (2 * n) (- (j * j)).

(** ** Sample inputs *)

(** An allocator that satisfies every request. *)
Definition generous (h : heap) : Prop := forall k, outcome h k = true.

Definition all_succeed : heap := mkHeap [] (fun _ => true) (fun _ => zeros).

(** The unit impulse [1, 0, 0, ...]. *)
Definition impulse : buf := fun i => if i =? 0 then 1%R else 0%R.

Definition no_spectra : spectra := mkSpectra zeros zeros zeros zeros.

(** [tr] succeeds on length [n] whenever the allocator is generous, and
    leaves it generous. *)
Definition succeeds_on (tr : transformer) (n : Z) : Prop :=
  forall h re im, generous h ->
    exists re' im' h', tr h re im n = Some (true, re', im', h') /\ generous h'.


(** ** The rest of [fft.c] *)

Section MachineMore.
Context {dm : DataModel}.

(** Conversion of an integer value to [int] (two's complement). *)
Definition to_int (z : Z) : Z :=
  let w := uint_wrap z in
  if w <? 2 ^ (uint_bits - 1) then w else w - 2 ^ uint_bits.

(** [naive_dft]: the reference transform.  [t] and [k] are [int]s, whose
    product fits the [long long] it is computed in; [%] truncates. *)
Definition naive_dft (inreal inimag outreal outimag : buf) (inverse n : Z)
  : buf * buf :=
  let coef := ((if inverse =? 0 then -2 else 2) * PI)%R in
  for_range 0 n
    (fun k '(outr, outi) =>
       let '(sumreal, sumimag) :=
         for_range 0 n
           (fun t '(sr, si) =>
              let angle := (coef * IZR (Z.rem (t * k) n) / IZR n)%R in
              ((sr + (inreal t * cos angle - inimag t * sin angle))%R,
               (si + (inreal t * sin angle + inimag t * cos angle))%R))
           (0%R, 0%R) in
       (upd outr k sumreal, upd outi k sumimag))
    (outreal, outimag).

(** [zero_reals(int n)]: the [malloc] result is filled unchecked; behind
    NULL the stores are lost. *)
Definition zero_reals (h : heap) (n : Z) : option buf * heap :=
  let '(result, h) := malloc h (size_wrap (n * sizeof_double)) in
  (match result with
   | Some b => Some (for_range 0 n (fun i r => upd r i 0%R) b)
   | None => None
   end, h).

(** [abs_fft]: status, the caller's [abs_onesided_fft], the allocator.  The
    two working buffers are used unchecked. *)
Definition abs_fft (fuel : nat) (h : heap) (signal abs_onesided_fft : buf) (n : Z)
  : option (bool * buf * heap) :=
  let one_sided_fft_length := to_int (n / 2 + 1) in
  let '(real, h) := memdup h signal (size_wrap (n * sizeof_double)) in
  let '(imag, h) := zero_reals h (to_int n) in
  match transform fuel h (deref real) (deref imag) n with
  | None => None
  | Some (false, _, _, h) => Some (false, abs_onesided_fft, h)
  | Some (true, real, imag, h) =>
      Some (true,
            for_range 0 one_sided_fft_length
              (fun i out =>
                 upd out i (2 * (sqrt (real i * real i + imag i * imag i) / IZR n))%R)
              abs_onesided_fft,
            h)
  end.


End MachineMore.


(** [abs_dft_interval]: the caller's [abs_power_interval].  The loop state
    is [coef_idx] and the buffer. *)
Definition abs_dft_interval (signal abs_power_interval : buf)
           (n interval_start interval_stop : Z) : buf :=
  snd (for_range interval_start interval_stop
         (fun k '(coef_idx, out) =>
            let '(sumreal, sumimag) :=
              for_range 0 n
                (fun t '(sr, si) =>
                   let angle := (-2 * PI * IZR (Z.rem (t * k) n) / IZR n)%R in
                   ((sr + signal t * cos angle)%R, (si + signal t * sin angle)%R))
                (0%R, 0%R) in
            (coef_idx + 1,
             upd out coef_idx
               (2 * sqrt (sumreal * sumreal + sumimag * sumimag) / IZR n)%R))
         (0, abs_power_interval)).

(** ** More vocabulary *)

(** [|z|^2] *)
Definition Cnorm2 (z : C) : R := (fst z * fst z + snd z * snd z)%R.

(** A buffer changed nowhere outside [0 .. n-1]. *)
Definition same_outside (n : Z) (a b : buf) : Prop :=
  forall p, ~ 0 <= p < n -> b p = a p.

(** The next [k] requests to the allocator are satisfied. *)
Definition allocs_succeed (h : heap) (k : nat) : Prop :=
  forall i, (i < k)%nat -> outcome h (length (served h) + i) = true.

(** An allocator that satisfies no request. *)
Definition out_of_memory : heap := mkHeap [] (fun _ => false) (fun _ => zeros).

(** * Proofs *)

Section MachineFacts.
Context {dm : DataModel}.

Lemma size_bits_pos : 16 <= size_bits.
Proof. pose proof uint_bits_min. pose proof size_bits_min. lia. Qed.

Lemma size_wrap_small z : 0 <= z <= SIZE_MAX -> size_wrap z = z.
Proof. unfold size_wrap, SIZE_MAX. intros. apply Z.mod_small. lia. Qed.

Lemma uint_wrap_small z : 0 <= z < 2 ^ uint_bits -> uint_wrap z = z.
Proof. unfold uint_wrap. intros. apply Z.mod_small. lia. Qed.

(** Whatever an [unsigned int] expression evaluates to, it is below
    [2 ^ uint_bits]. *)
Lemma uint_value_below z : 0 <= uint_wrap z < 2 ^ uint_bits.
Proof.
  unfold uint_wrap. apply Z.mod_pos_bound. apply Z.pow_pos_nonneg; try lia.
  pose proof uint_bits_min. lia.
Qed.

Lemma pow2_pos n : pow2 n -> 1 <= n.
Proof.
  intros (k & Hk & ->). assert (0 < 2 ^ k) by (apply Z.pow_pos_nonneg; lia). lia.
Qed.

Lemma pow2_log2 n : pow2 n -> n = 2 ^ Z.log2 n.
Proof. intros (k & Hk & ->). now rewrite Z.log2_pow2. Qed.

(** The test [(n & (n - 1)) == 0] of [transform]. *)
Lemma land_pred_pow2 n : 1 <= n -> (Z.land n (n - 1) = 0 <-> pow2 n).
Proof.
  intros Hn. split.
  - intros Hl.
    destruct (Z.log2_spec n ltac:(lia)) as [Hlo Hhi].
    destruct (Z.eq_dec n (2 ^ Z.log2 n)) as [e | ne].
    + exists (Z.log2 n). split; [apply Z.log2_nonneg | exact e].
    + exfalso.
      assert (Hb1 : Z.testbit n (Z.log2 n) = true) by (apply Z.bit_log2; lia).
      assert (Hl2 : Z.log2 (n - 1) = Z.log2 n).
      { apply Z.log2_unique; [apply Z.log2_nonneg | lia]. }
      assert (Hb2 : Z.testbit (n - 1) (Z.log2 n) = true).
      { rewrite <- Hl2. apply Z.bit_log2.
        assert (0 < 2 ^ Z.log2 n) by (apply Z.pow_pos_nonneg; [lia | apply Z.log2_nonneg]).
        lia. }
      assert (Hb : Z.testbit (Z.land n (n - 1)) (Z.log2 n) = true)
        by (rewrite Z.land_spec, Hb1, Hb2; reflexivity).
      rewrite Hl, Z.bits_0 in Hb. discriminate.
  - intros (k & Hk & ->).
    replace (2 ^ k - 1) with (Z.ones k) by (rewrite Z.ones_equiv; lia).
    rewrite Z.land_ones by lia. apply Z.mod_same.
    assert (0 < 2 ^ k) by (apply Z.pow_pos_nonneg; lia). lia.
Qed.

Lemma land_pred_pow2_b n :
  1 <= n -> (Z.land n (n - 1) =? 0) = true <-> pow2 n.
Proof. intros. rewrite Z.eqb_eq. now apply land_pred_pow2. Qed.

(** *** The [levels] loop *)

Lemma log2_loop_spec fuel : forall temp lv,
  0 <= temp -> Z.log2 temp <= Z.of_nat fuel -> 0 <= lv < 2 ^ uint_bits ->
  log2_loop fuel temp lv = Some (uint_wrap (lv + Z.log2 temp)).
Proof.
  induction fuel as [| f IH]; intros temp lv Ht Hf Hlv.
  - assert (Z.log2 temp = 0) by (pose proof (Z.log2_nonneg temp); lia).
    simpl. destruct (Z.ltb_spec 1 temp) as [H1 | H1].
    + assert (0 < Z.log2 temp) by (apply Z.log2_pos; lia). lia.
    + rewrite H, Z.add_0_r, uint_wrap_small; auto.
  - simpl. destruct (Z.ltb_spec 1 temp) as [H1 | H1].
    + assert (Hp : 0 < Z.log2 temp) by (apply Z.log2_pos; lia).
      rewrite IH.
      * f_equal. rewrite Z.log2_shiftr by lia.
        unfold uint_wrap. rewrite Z.max_r by lia.
        rewrite Zplus_mod_idemp_l. f_equal. lia.
      * apply Z.shiftr_nonneg; lia.
      * rewrite Z.log2_shiftr by lia. lia.
      * apply uint_value_below.
    + assert (Z.log2 temp = 0).
      { destruct (Z.eq_dec temp 0) as [-> | ]; [reflexivity |].
        replace temp with 1 by lia. reflexivity. }
      rewrite H, Z.add_0_r, uint_wrap_small; auto.
Qed.

Lemma log2_lt_size_bits n : is_size n -> Z.log2 n < size_bits.
Proof.
  unfold is_size, SIZE_MAX. intros [H0 H1].
  destruct (Z.eq_dec n 0) as [-> | ]; [simpl; pose proof size_bits_pos; lia |].
  apply Z.log2_lt_pow2; lia.
Qed.

(** With [size_bits] units of fuel the loop exits with [floor(log2 n)]. *)
Lemma log2_loop_size fuel n :
  is_size n -> size_bits <= Z.of_nat fuel ->
  log2_loop fuel n 0 = Some (Z.log2 n).
Proof.
  intros Hn Hf. pose proof (log2_lt_size_bits n Hn). pose proof (Z.log2_nonneg n).
  pose proof size_bits_count. pose proof uint_bits_min.
  assert (0 < 2 ^ uint_bits) by (apply Z.pow_pos_nonneg; lia).
  rewrite log2_loop_spec; [| apply Hn | lia | lia].
  rewrite Z.add_0_l, uint_wrap_small; auto. lia.
Qed.

(** The verification passes exactly on the powers of two that an
    [unsigned int] can hold. *)
Lemma not_power_of_2_false n :
  is_size n ->
  not_power_of_2 (Z.log2 n) n = false <-> pow2 n /\ n < 2 ^ uint_bits.
Proof.
  intros Hn. unfold not_power_of_2, uint_shl.
  rewrite negb_false_iff, Z.eqb_eq, Z.shiftl_1_l.
  pose proof (uint_value_below (2 ^ Z.log2 n)) as Hb.
  pose proof uint_bits_min.
  split.
  - intros Heq. rewrite Heq in Hb. split; [| lia].
    assert (Hlt : Z.log2 n < uint_bits).
    { destruct (Z.eq_dec n 0) as [-> | ]; [simpl; lia |].
      apply Z.log2_lt_pow2; lia. }
    rewrite uint_wrap_small in Heq.
    + exists (Z.log2 n). split; [apply Z.log2_nonneg | congruence].
    + split; [apply Z.pow_nonneg; lia |].
      apply Z.pow_lt_mono_r; lia.
  - intros [Hp Hlt]. rewrite <- (pow2_log2 n Hp). apply uint_wrap_small.
    pose proof (pow2_pos n Hp). lia.
Qed.

(** *** The search for the convolution length *)

Lemma SIZE_MAX_half : SIZE_MAX / 2 = 2 ^ (size_bits - 1) - 1.
Proof.
  unfold SIZE_MAX. pose proof size_bits_pos.
  replace (2 ^ size_bits) with (2 * 2 ^ (size_bits - 1)).
  - assert (0 < 2 ^ (size_bits - 1)) by (apply Z.pow_pos_nonneg; lia).
    symmetry. apply Z.div_unique with (r := 1); lia.
  - rewrite <- Z.pow_succ_r by lia. f_equal. lia.
Qed.

Lemma pow2_below_size k : 0 <= k < size_bits -> 0 < 2 ^ k <= SIZE_MAX.
Proof.
  intros Hk. split; [apply Z.pow_pos_nonneg; lia |].
  unfold SIZE_MAX.
  assert (2 ^ k < 2 ^ size_bits) by (apply Z.pow_lt_mono_r; lia). lia.
Qed.

Lemma find_m_loop_spec target fuel : forall k,
  0 <= k < size_bits -> size_bits - k <= Z.of_nat fuel ->
  (k = 0 \/ 2 ^ (k - 1) < target) ->
  match find_m_loop fuel (2 ^ k) target with
  | Some (Some m) =>
      exists j, k <= j < size_bits /\ m = 2 ^ j /\ target <= m /\
                (j = 0 \/ 2 ^ (j - 1) < target)
  | Some None => 2 ^ (size_bits - 1) < target
  | None => False
  end.
Proof.
  induction fuel as [| f IH]; intros k Hk Hf Hprev; [lia |].
  cbn [find_m_loop].
  destruct (Z.ltb_spec (2 ^ k) target) as [Hlt | Hge].
  - rewrite SIZE_MAX_half.
    destruct (Z.ltb_spec (2 ^ (size_bits - 1) - 1) (2 ^ k)) as [Hbig | Hsmall].
    + assert (size_bits - 1 <= k).
      { destruct (Z_lt_le_dec k (size_bits - 1)) as [Hc | Hc]; [| lia].
        assert (2 ^ k < 2 ^ (size_bits - 1)) by (apply Z.pow_lt_mono_r; lia). lia. }
      replace (size_bits - 1) with k by lia. exact Hlt.
    + assert (k < size_bits - 1).
      { destruct (Z_lt_le_dec k (size_bits - 1)) as [Hc | Hc]; [lia |].
        replace k with (size_bits - 1) in Hsmall by lia. lia. }
      replace (2 ^ k * 2) with (2 ^ (k + 1)) by (rewrite Z.pow_add_r; lia).
      rewrite size_wrap_small by (pose proof (pow2_below_size (k + 1)); lia).
      specialize (IH (k + 1)).
      destruct (find_m_loop f (2 ^ (k + 1)) target) as [[m |] |].
      * destruct IH as (j & Hj & Hm & Ht & Hp); try lia.
        { right. now replace (k + 1 - 1) with k by lia. }
        exists j. repeat split; auto; lia.
      * apply IH; try lia. right. now replace (k + 1 - 1) with k by lia.
      * apply IH; try lia. right. now replace (k + 1 - 1) with k by lia.
  - exists k. repeat split; auto; lia.
Qed.

Lemma pow2_le_mono_inv a b : 0 <= a -> 0 <= b -> 2 ^ a <= 2 ^ b -> a <= b.
Proof.
  intros Ha Hb H. destruct (Z_lt_le_dec b a) as [Hc | Hc]; [| lia].
  assert (2 ^ b < 2 ^ a) by (apply Z.pow_lt_mono_r; lia). lia.
Qed.

Lemma bluestein_target n :
  0 <= n <= (SIZE_MAX - 1) / 2 ->
  size_wrap (size_wrap (n * 2) + 1) = 2 * n + 1 /\ 2 * n + 1 <= SIZE_MAX.
Proof.
  intros Hn. assert (2 * n + 1 <= SIZE_MAX).
  { pose proof (Z.mul_div_le (SIZE_MAX - 1) 2 ltac:(lia)). lia. }
  rewrite (size_wrap_small (n * 2)) by lia.
  rewrite size_wrap_small by lia. lia.
Qed.

(** What [bluestein_length] returns, given enough fuel. *)
Lemma bluestein_length_spec fuel n :
  1 <= n -> size_bits <= Z.of_nat fuel ->
  match bluestein_length fuel n with
  | Some (Some m) =>
      n <= (SIZE_MAX - 1) / 2 /\ pow2 m /\ 2 * n + 1 <= m <= SIZE_MAX /\
      (forall p, pow2 p -> 2 * n + 1 <= p -> m <= p)
  | Some None =>
      (SIZE_MAX - 1) / 2 < n \/
      (forall p, pow2 p -> 2 * n + 1 <= p -> SIZE_MAX < p)
  | None => False
  end.
Proof.
  intros Hn Hf. unfold bluestein_length.
  destruct (Z.ltb_spec ((SIZE_MAX - 1) / 2) n) as [Hbig | Hok]; [now left |].
  destruct (bluestein_target n ltac:(lia)) as [-> Hmax].
  pose proof size_bits_pos.
  pose proof (find_m_loop_spec (2 * n + 1) fuel 0 ltac:(lia) ltac:(lia) ltac:(auto)) as Hs.
  change (2 ^ 0) with 1 in Hs.
  destruct (find_m_loop fuel 1 (2 * n + 1)) as [[m |] |]; auto.
  - destruct Hs as (j & Hj & -> & Ht & Hp).
    split; [exact Hok |]. split; [exists j; split; [lia | reflexivity] |].
    split; [split; [exact Ht | apply pow2_below_size; lia] |].
    intros p (k & Hk & ->) Hpk.
    destruct Hp as [-> | Hp].
    + assert (0 < 2 ^ k) by (apply Z.pow_pos_nonneg; lia). simpl; lia.
    + apply Z.pow_le_mono_r; [lia |].
      destruct (Z_lt_le_dec k j) as [Hc | Hc]; [| lia].
      assert (2 ^ k <= 2 ^ (j - 1)) by (apply Z.pow_le_mono_r; lia). lia.
  - right. intros p (k & Hk & ->) Hpk. unfold SIZE_MAX.
    destruct (Z_lt_le_dec k size_bits) as [Hc | Hc].
    + assert (2 ^ k <= 2 ^ (size_bits - 1)) by (apply Z.pow_le_mono_r; lia). lia.
    + assert (2 ^ size_bits <= 2 ^ k) by (apply Z.pow_le_mono_r; lia). lia.
Qed.

(** *** The stage loop *)

Lemma stages_loop_spec L ct st fuel : forall j re im,
  0 <= L < size_bits -> 1 <= j <= L + 1 -> L - j + 1 <= Z.of_nat fuel ->
  stages_loop fuel (2 ^ L) (2 ^ j) ct st re im =
  Some (stages_iter (Z.to_nat (L - j + 1)) (2 ^ L) (2 ^ j) ct st re im).
Proof.
  induction fuel as [| f IH]; intros j re im HL Hj Hf.
  - assert (j = L + 1) by lia. subst j. cbn [stages_loop].
    assert (2 ^ L < 2 ^ (L + 1)) by (apply Z.pow_lt_mono_r; lia).
    destruct (Z.leb_spec (2 ^ (L + 1)) (2 ^ L)); [lia |].
    now replace (L - (L + 1) + 1) with 0 by lia.
  - cbn [stages_loop].
    destruct (Z.leb_spec (2 ^ j) (2 ^ L)) as [Hle | Hgt].
    + assert (j <= L) by (apply pow2_le_mono_inv; lia).
      replace (Z.to_nat (L - j + 1)) with (S (Z.to_nat (L - (j + 1) + 1))) by lia.
      cbn [stages_iter].
      destruct (stage (2 ^ L) (2 ^ j) ct st re im) as [re' im'].
      replace (2 ^ j * 2) with (2 ^ (j + 1)) by (rewrite Z.pow_add_r; lia).
      destruct (Z.eqb_spec (2 ^ j) (2 ^ L)) as [He | Hne].
      * assert (j = L) by (apply Z.pow_inj_r with 2; lia). subst j.
        now replace (L - (L + 1) + 1) with 0 by lia.
      * assert (j <> L) by congruence.
        rewrite size_wrap_small by (pose proof (pow2_below_size (j + 1)); lia).
        apply IH; lia.
    + assert (L < j).
      { destruct (Z_lt_le_dec L j) as [Hc | Hc]; [lia |].
        assert (2 ^ j <= 2 ^ L) by (apply Z.pow_le_mono_r; lia). lia. }
      now replace (L - j + 1) with 0 by lia.
Qed.

(** *** [transform_radix2], with its loops run to completion *)

Lemma transform_radix2_eq fuel h real imag n :
  is_size n -> size_bits <= Z.of_nat fuel ->
  transform_radix2 fuel h real imag n =
  if not_power_of_2 (Z.log2 n) n then Some (false, real, imag, h)
  else if SIZE_MAX / sizeof_double <? n / 2 then Some (false, real, imag, h)
  else
    let size := size_wrap (n / 2 * sizeof_double) in
    let '(cos_ptr, h1) := malloc h size in
    let '(sin_ptr, h2) := malloc h1 size in
    if is_null cos_ptr || is_null sin_ptr then Some (false, real, imag, h2)
    else
      let '(re, im) :=
        radix2_core (Z.log2 n) n (deref cos_ptr) (deref sin_ptr) real imag in
      Some (true, re, im, h2).
Proof.
  intros Hn Hf. unfold transform_radix2. rewrite (log2_loop_size fuel n Hn Hf).
  destruct (not_power_of_2 (Z.log2 n) n) eqn:Hp; [reflexivity |].
  destruct (SIZE_MAX / sizeof_double <? n / 2); [reflexivity |].
  cbv zeta.
  destruct (malloc h _) as [cos_ptr h1]. destruct (malloc h1 _) as [sin_ptr h2].
  destruct (is_null cos_ptr || is_null sin_ptr); [reflexivity |].
  unfold radix2_core.
  destruct (radix2_tables n _ _) as [ct st].
  destruct (bit_reverse_pass _ n real imag) as [re1 im1].
  apply not_power_of_2_false in Hp; [| exact Hn]. destruct Hp as [Hp Hlt].
  pose proof (log2_lt_size_bits n Hn). pose proof (Z.log2_nonneg n).
  rewrite (pow2_log2 n Hp) at 1 3.
  change 2 with (2 ^ 1) at 2 4.
  rewrite stages_loop_spec by lia.
  replace (Z.log2 n - 1 + 1) with (Z.log2 n) by lia.
  rewrite <- (pow2_log2 n Hp). change (2 ^ 1) with 2.
  destruct (stages_iter _ n 2 ct st re1 im1); reflexivity.
Qed.

Lemma transform_radix2_total fuel h real imag n :
  is_size n -> size_bits <= Z.of_nat fuel ->
  exists r, transform_radix2 fuel h real imag n = Some r.
Proof.
  intros Hn Hf. rewrite transform_radix2_eq by assumption.
  destruct (not_power_of_2 _ n); [eauto |].
  destruct (_ <? _); [eauto |]. cbv zeta.
  destruct (malloc h _) as [cos_ptr h1]. destruct (malloc h1 _) as [sin_ptr h2].
  destruct (_ || _); [eauto |].
  destruct (radix2_core _ _ _ _ _ _); eauto.
Qed.

(** A number that is not a power of two is rejected before anything is
    touched. *)
Lemma transform_radix2_not_pow2 fuel h real imag n :
  is_size n -> size_bits <= Z.of_nat fuel -> ~ pow2 n ->
  transform_radix2 fuel h real imag n = Some (false, real, imag, h).
Proof.
  intros Hn Hf Hp. rewrite transform_radix2_eq by assumption.
  destruct (not_power_of_2 _ n) eqn:E; [reflexivity |].
  apply not_power_of_2_false in E; [| exact Hn]. tauto.
Qed.

(** *** Totality of the convolution and of [transform_bluestein] *)

Lemma inverse_transform_with_total (tr : transformer) h real imag n :
  (forall h r i, exists o, tr h r i n = Some o) ->
  exists o, inverse_transform_with tr h real imag n = Some o.
Proof.
  intros Ht. unfold inverse_transform_with.
  destruct (Ht h imag real) as ([[[s i'] r'] h'] & ->). eauto.
Qed.

Lemma convolve_complex_with_total (tr : transformer) h xr xi yr yi outr outi n :
  (forall h r i, exists o, tr h r i n = Some o) ->
  exists o, convolve_complex_with tr h xr xi yr yi outr outi n = Some o.
Proof.
  intros Ht. unfold convolve_complex_with.
  destruct (_ <? _); [eauto |]. cbv zeta.
  destruct (memdup h _ _) as [pxr h1]. destruct (memdup h1 _ _) as [pxi h2].
  destruct (memdup h2 _ _) as [pyr h3]. destruct (memdup h3 _ _) as [pyi h4].
  destruct (_ || _); [eauto |].
  destruct (Ht h4 (deref pxr) (deref pxi)) as ([[[s1 a1] b1] h5] & ->).
  destruct s1; [| eauto].
  destruct (Ht h5 (deref pyr) (deref pyi)) as ([[[s2 a2] b2] h6] & ->).
  destruct s2; [| eauto].
  destruct (pointwise_product n a1 b1 a2 b2) as [pr pi].
  destruct (inverse_transform_with_total tr h6 pr pi n Ht) as ([[[s3 a3] b3] h7] & ->).
  destruct s3; [| eauto].
  destruct (scale_into n a3 b3 outr outi). eauto.
Qed.

(** [transform_bluestein] calls [transform] at the length it chose and
    nowhere else. *)
Lemma transform_bluestein_with_ext (tr1 tr2 : transformer) fuel h real imag n :
  (forall m h r i, bluestein_length fuel n = Some (Some m) ->
                   tr1 h r i m = tr2 h r i m) ->
  transform_bluestein_with tr1 fuel h real imag n =
  transform_bluestein_with tr2 fuel h real imag n.
Proof.
  intros Hext. unfold transform_bluestein_with.
  destruct (bluestein_length fuel n) as [[m |] |]; try reflexivity.
  specialize (Hext m). destruct (_ || _); [reflexivity |]. cbv zeta.
  repeat match goal with
         | |- context [malloc ?h ?s] => destruct (malloc h s) as [? ?]
         | |- context [calloc ?h ?c ?s] => destruct (calloc h c s) as [? ?]
         end.
  destruct (_ || _); [reflexivity |].
  destruct (bluestein_tables _ _ _) as [ct st].
  destruct (bluestein_a _ _ _ _ _ _ _) as [ar ai].
  destruct (bluestein_b _ _ _ _ _ _) as [br bi].
  unfold convolve_complex_with, inverse_transform_with.
  destruct (_ <? _); [reflexivity |]. cbv zeta.
  repeat match goal with
         | |- context [memdup ?h ?b ?s] => destruct (memdup h b s) as [? ?]
         end.
  destruct (_ || _); [reflexivity |].
  rewrite Hext by reflexivity.
  destruct (tr2 _ _ _ m) as [[[[[] a1] b1] ha] |]; try reflexivity.
  rewrite Hext by reflexivity.
  destruct (tr2 _ _ _ m) as [[[[[] a2] b2] hb] |]; try reflexivity.
  destruct (pointwise_product m a1 b1 a2 b2) as [pr pi].
  rewrite Hext by reflexivity. reflexivity.
Qed.

Lemma transform_bluestein_with_total (tr : transformer) fuel h real imag n :
  1 <= n -> size_bits <= Z.of_nat fuel ->
  (forall m h r i, bluestein_length fuel n = Some (Some m) ->
                   exists o, tr h r i m = Some o) ->
  exists o, transform_bluestein_with tr fuel h real imag n = Some o.
Proof.
  intros Hn Hf Ht. unfold transform_bluestein_with.
  pose proof (bluestein_length_spec fuel n Hn Hf) as Hs.
  destruct (bluestein_length fuel n) as [[m |] |]; [| eauto | contradiction].
  destruct (_ || _); [eauto |]. cbv zeta.
  repeat match goal with
         | |- context [malloc ?h ?s] => destruct (malloc h s) as [? ?]
         | |- context [calloc ?h ?c ?s] => destruct (calloc h c s) as [? ?]
         end.
  destruct (_ || _); [eauto |].
  destruct (bluestein_tables _ _ _) as [ct st].
  destruct (bluestein_a _ _ _ _ _ _ _) as [ar ai].
  destruct (bluestein_b _ _ _ _ _ _) as [br bi].
  match goal with
  | |- context [convolve_complex_with tr ?h ?a ?b ?c ?d ?e ?f m] =>
      destruct (convolve_complex_with_total tr h a b c d e f m) as ([[[s cr] ci] h'] & ->)
  end.
  - intros. now apply Ht.
  - destruct s; [| eauto]. destruct (bluestein_post _ _ _ _ _ _ _). eauto.
Qed.

End MachineFacts.

(** ** Loops and buffers *)

Section Loops.
Context {S : Type}.

Lemma for_loop_snoc (body : Z -> S -> S) step cnt : forall i s,
  for_loop (Datatypes.S cnt) i step body s =
  body (i + Z.of_nat cnt * step) (for_loop cnt i step body s).
Proof.
  induction cnt as [| c IH]; intros i s.
  - simpl. now rewrite Z.add_0_r.
  - change (for_loop (Datatypes.S (Datatypes.S c)) i step body s)
      with (for_loop (Datatypes.S c) (i + step) step body (body i s)).
    rewrite IH. cbn [for_loop]. f_equal. lia.
Qed.

(** Invariant rule for the counted loop. *)
Lemma for_loop_inv (P : nat -> S -> Prop) (body : Z -> S -> S) i step cnt s :
  P O s ->
  (forall k s, (k < cnt)%nat -> P k s ->
               P (Datatypes.S k) (body (i + Z.of_nat k * step) s)) ->
  P cnt (for_loop cnt i step body s).
Proof.
  intros H0 Hstep. induction cnt as [| c IH]; [exact H0 |].
  rewrite for_loop_snoc. apply Hstep; [lia |]. apply IH.
  intros k s' Hk. apply Hstep. lia.
Qed.

(** Invariant rule for [for (i = lo; i < hi; i++)]. *)
Lemma for_range_inv (P : Z -> S -> Prop) (body : Z -> S -> S) lo hi s :
  lo <= hi -> P lo s ->
  (forall i s, lo <= i < hi -> P i s -> P (i + 1) (body i s)) ->
  P hi (for_range lo hi body s).
Proof.
  intros Hle H0 Hstep. unfold for_range.
  replace hi with (lo + Z.of_nat (Z.to_nat (hi - lo))) at 1 by lia.
  apply (for_loop_inv (fun k s => P (lo + Z.of_nat k) s)).
  - now rewrite Z.add_0_r.
  - intros k s' Hk HP. rewrite Z.mul_1_r.
    replace (lo + Z.of_nat (Datatypes.S k)) with (lo + Z.of_nat k + 1) by lia.
    apply Hstep; [lia | exact HP].
Qed.

End Loops.

Lemma upd_same (a : buf) i v : upd a i v i = v.
Proof. unfold upd. now rewrite Z.eqb_refl. Qed.

Lemma upd_other (a : buf) i j v : j <> i -> upd a i v j = a j.
Proof. unfold upd. intros. destruct (Z.eqb_spec j i); congruence. Qed.

(** ** [reverse_bits] *)

Section Bits.
Context {dm : DataModel}.

Lemma lor_shift_bit r x :
  0 <= r -> Z.lor (Z.shiftl r 1) (Z.land x 1) = 2 * r + x mod 2.
Proof.
  intros Hr. change 1 with (Z.ones 1) at 2. rewrite Z.land_ones by lia.
  change (2 ^ 1) with 2.
  rewrite <- Z.lxor_lor, <- Z.add_nocarry_lxor.
  - rewrite Z.shiftl_mul_pow2 by lia. change (2 ^ 1) with 2. lia.
  - apply Z.bits_inj'. intros i Hi. rewrite Z.land_spec, Z.bits_0.
    destruct (Z.eq_dec i 0) as [-> | Hne].
    + rewrite Z.shiftl_spec_low by lia. reflexivity.
    + change 2 with (2 ^ 1). rewrite (Z.mod_pow2_bits_high x 1 i) by lia.
      apply andb_false_r.
  - apply Z.bits_inj'. intros i Hi. rewrite Z.land_spec, Z.bits_0.
    destruct (Z.eq_dec i 0) as [-> | Hne].
    + rewrite Z.shiftl_spec_low by lia. reflexivity.
    + change 2 with (2 ^ 1). rewrite (Z.mod_pow2_bits_high x 1 i) by lia.
      apply andb_false_r.
Qed.

(** One iteration, as arithmetic: no bit is lost while [result] has fewer
    than [size_bits] bits. *)
Lemma reverse_bits_step r x k :
  0 <= k < size_bits -> 0 <= r < 2 ^ k ->
  Z.lor (size_shl r 1) (Z.land x 1) = 2 * r + x mod 2.
Proof.
  intros Hk Hr. unfold size_shl.
  rewrite size_wrap_small; [apply lor_shift_bit; lia |].
  rewrite Z.shiftl_mul_pow2 by lia. change (2 ^ 1) with 2.
  assert (2 ^ (k + 1) <= 2 ^ size_bits) by (apply Z.pow_le_mono_r; lia).
  rewrite Z.pow_add_r in H by lia. unfold SIZE_MAX. lia.
Qed.

(** The mathematical bit reversal of the low [c] bits of [x]. *)
Lemma reverse_bits_loop_value c : forall x r k,
  0 <= k -> k + Z.of_nat c <= size_bits -> 0 <= r < 2 ^ k ->
  reverse_bits_loop c x r = r * 2 ^ Z.of_nat c + reverse_bits_loop c x 0 /\
  0 <= reverse_bits_loop c x 0 < 2 ^ Z.of_nat c.
Proof.
  induction c as [| c IH]; intros x r k Hk Hc Hr.
  - simpl. lia.
  - cbn [reverse_bits_loop].
    rewrite (reverse_bits_step r x k) by lia.
    rewrite (reverse_bits_step 0 x 0) by (simpl; lia).
    pose proof (Z.mod_pos_bound x 2 ltac:(lia)) as Hb.
    assert (H2k : 2 ^ (k + 1) = 2 * 2 ^ k) by (rewrite Z.pow_add_r; lia).
    destruct (IH (Z.shiftr x 1) (2 * r + x mod 2) (k + 1)) as [E1 _]; try lia.
    destruct (IH (Z.shiftr x 1) (2 * 0 + x mod 2) 1) as [E2 Hb2]; try lia.
    rewrite E1, E2. replace (Z.of_nat (Datatypes.S c)) with (Z.of_nat c + 1) by lia.
    rewrite Z.pow_add_r by lia. change (2 ^ 1) with 2. split; [ring |].
    nia.
Qed.

Lemma reverse_bits_unfold x w :
  0 <= w < size_bits ->
  reverse_bits x (w + 1) = x mod 2 * 2 ^ w + reverse_bits (x / 2) w.
Proof.
  intros Hw. unfold reverse_bits.
  replace (Z.to_nat (w + 1)) with (Datatypes.S (Z.to_nat w)) by lia.
  cbn [reverse_bits_loop].
  rewrite (reverse_bits_step 0 x 0) by (simpl; lia).
  destruct (reverse_bits_loop_value (Z.to_nat w) (Z.shiftr x 1) (2 * 0 + x mod 2) 1)
    as [E _]; try lia.
  { pose proof (Z.mod_pos_bound x 2 ltac:(lia)). lia. }
  rewrite E. rewrite Z.shiftr_div_pow2 by lia. change (2 ^ 1) with 2.
  rewrite Z2Nat.id by lia. lia.
Qed.

Lemma reverse_bits_0 x : reverse_bits x 0 = 0.
Proof. reflexivity. Qed.

Lemma reverse_bits_bound x w :
  0 <= w <= size_bits -> 0 <= reverse_bits x w < 2 ^ w.
Proof.
  intros Hw. unfold reverse_bits.
  destruct (reverse_bits_loop_value (Z.to_nat w) x 0 0) as [_ Hb]; try lia.
  now rewrite Z2Nat.id in Hb by lia.
Qed.

(** Peeling the top bit instead of the bottom one. *)
Lemma reverse_bits_high c : forall y b,
  Z.of_nat c < size_bits -> 0 <= y < 2 ^ Z.of_nat c -> 0 <= b <= 1 ->
  reverse_bits (b * 2 ^ Z.of_nat c + y) (Z.of_nat c + 1) =
  2 * reverse_bits y (Z.of_nat c) + b.
Proof.
  induction c as [| c IH]; intros y b Hc Hy Hb.
  - change (2 ^ Z.of_nat 0) with 1 in *. assert (y = 0) by lia. subst y.
    rewrite reverse_bits_unfold by (simpl; pose proof size_bits_pos; lia).
    rewrite !reverse_bits_0. change (2 ^ Z.of_nat 0) with 1.
    rewrite Z.mod_small by lia. lia.
  - replace (Z.of_nat (Datatypes.S c)) with (Z.of_nat c + 1) in * by lia.
    assert (H2 : 2 ^ (Z.of_nat c + 1) = 2 * 2 ^ Z.of_nat c)
      by (rewrite Z.pow_add_r; lia).
    rewrite reverse_bits_unfold by lia.
    rewrite (reverse_bits_unfold y) by lia.
    rewrite H2 in Hy |- *.
    assert (Em : (b * (2 * 2 ^ Z.of_nat c) + y) mod 2 = y mod 2).
    { replace (b * (2 * 2 ^ Z.of_nat c) + y) with (y + (b * 2 ^ Z.of_nat c) * 2) by ring.
      apply Z.mod_add. lia. }
    assert (Ed : (b * (2 * 2 ^ Z.of_nat c) + y) / 2 = b * 2 ^ Z.of_nat c + y / 2).
    { replace (b * (2 * 2 ^ Z.of_nat c) + y) with (y + (b * 2 ^ Z.of_nat c) * 2) by ring.
      rewrite Z.div_add by lia. lia. }
    rewrite Em, Ed, IH; try lia.
    split; [apply Z.div_pos; lia |]. apply Z.div_lt_upper_bound; lia.
Qed.

Lemma reverse_bits_involutive_nat c : forall x,
  Z.of_nat c <= size_bits -> 0 <= x < 2 ^ Z.of_nat c ->
  reverse_bits (reverse_bits x (Z.of_nat c)) (Z.of_nat c) = x.
Proof.
  induction c as [| c IH]; intros x Hc Hx.
  - change (2 ^ Z.of_nat 0) with 1 in Hx. rewrite !reverse_bits_0. lia.
  - replace (Z.of_nat (Datatypes.S c)) with (Z.of_nat c + 1) in * by lia.
    assert (H2 : 2 ^ (Z.of_nat c + 1) = 2 * 2 ^ Z.of_nat c)
      by (rewrite Z.pow_add_r; lia).
    rewrite (reverse_bits_unfold x) by lia.
    pose proof (Z.mod_pos_bound x 2 ltac:(lia)).
    assert (0 <= x / 2 < 2 ^ Z.of_nat c).
    { split; [apply Z.div_pos; lia |]. apply Z.div_lt_upper_bound; lia. }
    rewrite reverse_bits_high; try lia.
    + rewrite IH by lia. pose proof (Z.div_mod x 2 ltac:(lia)). lia.
    + apply reverse_bits_bound. lia.
Qed.

Lemma reverse_bits_involutive x w :
  0 <= w <= size_bits -> 0 <= x < 2 ^ w ->
  reverse_bits (reverse_bits x w) w = x.
Proof.
  intros Hw Hx. rewrite <- (Z2Nat.id w) in * by lia.
  apply reverse_bits_involutive_nat; lia.
Qed.

Lemma reverse_bits_injective x y w :
  0 <= w <= size_bits -> 0 <= x < 2 ^ w -> 0 <= y < 2 ^ w ->
  reverse_bits x w = reverse_bits y w -> x = y.
Proof.
  intros Hw Hx Hy E.
  rewrite <- (reverse_bits_involutive x w), <- (reverse_bits_involutive y w) by assumption.
  now rewrite E.
Qed.

(** The two halves of a block, as the butterflies meet them. *)
Lemma reverse_bits_even u w :
  0 <= w < size_bits -> reverse_bits (2 * u) (w + 1) = reverse_bits u w.
Proof.
  intros Hw. rewrite reverse_bits_unfold by lia.
  replace (2 * u) with (u * 2) by ring.
  rewrite Z.mod_mul, Z.div_mul by lia. lia.
Qed.

Lemma reverse_bits_odd u w :
  0 <= w < size_bits -> reverse_bits (2 * u + 1) (w + 1) = 2 ^ w + reverse_bits u w.
Proof.
  intros Hw. rewrite reverse_bits_unfold by lia.
  replace (2 * u + 1) with (1 + u * 2) by ring.
  rewrite Z.mod_add, Z.div_add by lia.
  change (1 mod 2) with 1. change (1 / 2) with 0. f_equal. lia.
Qed.

(** *** The bit-reversal pass *)

Lemma bit_reverse_pass_spec w real imag :
  0 <= w <= size_bits ->
  forall p, 0 <= p < 2 ^ w ->
    fst (bit_reverse_pass w (2 ^ w) real imag) p = real (reverse_bits p w) /\
    snd (bit_reverse_pass w (2 ^ w) real imag) p = imag (reverse_bits p w).
Proof.
  intros Hw.
  assert (Hinv : reversed_upto w (2 ^ w) real (fst (bit_reverse_pass w (2 ^ w) real imag)) /\
                 reversed_upto w (2 ^ w) imag (snd (bit_reverse_pass w (2 ^ w) real imag))).
  { unfold bit_reverse_pass.
    apply (for_range_inv (fun i s => reversed_upto w i real (fst s) /\
                                     reversed_upto w i imag (snd s))).
    - assert (0 < 2 ^ w) by (apply Z.pow_pos_nonneg; lia). lia.
    - split; intros p Hp; pose proof (reverse_bits_bound p w Hw);
        destruct (Z.ltb_spec p 0); destruct (Z.ltb_spec (reverse_bits p w) 0);
        try lia; reflexivity.
    - intros i [re im] Hi [Hre Him]. cbn [fst snd] in *.
      pose proof (reverse_bits_bound i w Hw) as Hj.
      pose proof (reverse_bits_involutive i w Hw Hi) as Hii.
      assert (Hstep : forall (a0 a : buf), reversed_upto w i a0 a ->
                reversed_upto w (i + 1) a0
                  (if i <? reverse_bits i w
                   then upd (upd a i (a (reverse_bits i w))) (reverse_bits i w) (a i)
                   else a)).
      { intros a0 a Ha p Hp. specialize (Ha p Hp) as Hap.
        pose proof (reverse_bits_bound p w Hw) as Hrp.
        pose proof (reverse_bits_involutive p w Hw Hp) as Hpp.
        pose proof (Ha i Hi) as Hai. pose proof (Ha _ Hj) as Haj.
        rewrite Hii in Haj.
        destruct (Z.ltb_spec i (reverse_bits i w)) as [Hlt | Hge].
        - destruct (Z.eq_dec p (reverse_bits i w)) as [-> | Hpj].
          + rewrite upd_same, Hii, Hai.
            repeat match goal with
                   | |- context [?a <? ?b] => destruct (Z.ltb_spec a b); try lia
                   end; reflexivity.
          + rewrite upd_other by exact Hpj.
            destruct (Z.eq_dec p i) as [-> | Hpi].
            * rewrite upd_same, Haj.
              repeat match goal with
                     | |- context [?a <? ?b] => destruct (Z.ltb_spec a b); try lia
                     end; reflexivity.
            * rewrite upd_other by exact Hpi. rewrite Hap.
              assert (reverse_bits p w <> i) by (intros E; rewrite <- E in Hpj; congruence).
              repeat match goal with
                     | |- context [?a <? ?b] => destruct (Z.ltb_spec a b); try lia
                     end; reflexivity.
        - rewrite Hap.
          destruct (Z.eq_dec p i) as [-> | Hpi].
          + repeat match goal with
                   | |- context [?a <? ?b] => destruct (Z.ltb_spec a b); try lia
                   end; try reflexivity.
            cbn. replace (reverse_bits i w) with i in * by lia. reflexivity.
          + destruct (Z.eq_dec (reverse_bits p w) i) as [Erp | Hrpi].
            * assert (p = reverse_bits i w) by (rewrite <- Erp; auto).
              repeat match goal with
                     | |- context [?a <? ?b] => destruct (Z.ltb_spec a b); try lia
                     end; reflexivity.
            * repeat match goal with
                     | |- context [?a <? ?b] => destruct (Z.ltb_spec a b); try lia
                     end; reflexivity. }
      pose proof (Hstep _ _ Hre) as Hre'. pose proof (Hstep _ _ Him) as Him'.
      destruct (i <? reverse_bits i w); cbn [fst snd]; split; assumption. }
  destruct Hinv as [Hre Him]. intros p Hp.
  rewrite (Hre p Hp), (Him p Hp).
  destruct (Z.ltb_spec p (2 ^ w)); [| lia]. split; reflexivity.
Qed.

End Bits.

(** ** Loops that fill or rewrite buffers entry by entry *)

Section Fill.
Context {dm : DataModel}.

(** A loop that stores [f i] and [g i] at index [i] of two buffers. *)
Lemma for_range_fill2 (f g : Z -> R) lo hi (a0 b0 : buf) :
  lo <= hi ->
  forall i,
    fst (for_range lo hi (fun i '(a, b) => (upd a i (f i), upd b i (g i))) (a0, b0)) i
    = (if (lo <=? i) && (i <? hi) then f i else a0 i) /\
    snd (for_range lo hi (fun i '(a, b) => (upd a i (f i), upd b i (g i))) (a0, b0)) i
    = (if (lo <=? i) && (i <? hi) then g i else b0 i).
Proof.
  intros Hle.
  apply (for_range_inv
           (fun k (s : buf * buf) => forall i,
              fst s i = (if (lo <=? i) && (i <? k) then f i else a0 i) /\
              snd s i = (if (lo <=? i) && (i <? k) then g i else b0 i)));
    [exact Hle | |].
  - intros i. cbn [fst snd].
    destruct (Z.leb_spec lo i); destruct (Z.ltb_spec i lo); try lia; auto.
  - intros k [a b] Hk IH i. cbn [fst snd] in *. destruct (IH i) as [Ea Eb].
    destruct (Z.eq_dec i k) as [-> | Hne].
    + rewrite !upd_same.
      destruct (Z.leb_spec lo k); destruct (Z.ltb_spec k (k + 1)); try lia; auto.
    + rewrite !upd_other, Ea, Eb by exact Hne.
      destruct (Z.leb_spec lo i); destruct (Z.ltb_spec i k);
        destruct (Z.ltb_spec i (k + 1)); try lia; auto.
Qed.

(** A loop that rewrites entry [i] of two buffers from their entries [i]. *)
Lemma for_range_map2 (f g : Z -> R -> R -> R) lo hi (a0 b0 : buf) :
  lo <= hi ->
  forall i,
    fst (for_range lo hi
           (fun i '(a, b) => (upd a i (f i (a i) (b i)), upd b i (g i (a i) (b i))))
           (a0, b0)) i
    = (if (lo <=? i) && (i <? hi) then f i (a0 i) (b0 i) else a0 i) /\
    snd (for_range lo hi
           (fun i '(a, b) => (upd a i (f i (a i) (b i)), upd b i (g i (a i) (b i))))
           (a0, b0)) i
    = (if (lo <=? i) && (i <? hi) then g i (a0 i) (b0 i) else b0 i).
Proof.
  intros Hle.
  apply (for_range_inv
           (fun k (s : buf * buf) => forall i,
              fst s i = (if (lo <=? i) && (i <? k) then f i (a0 i) (b0 i) else a0 i) /\
              snd s i = (if (lo <=? i) && (i <? k) then g i (a0 i) (b0 i) else b0 i)));
    [exact Hle | |].
  - intros i. cbn [fst snd].
    destruct (Z.leb_spec lo i); destruct (Z.ltb_spec i lo); try lia; auto.
  - intros k [a b] Hk IH i. cbn [fst snd] in *. destruct (IH i) as [Ea Eb].
    destruct (Z.eq_dec i k) as [-> | Hne].
    + rewrite !upd_same. destruct (IH k) as [-> ->].
      destruct (Z.leb_spec lo k); destruct (Z.ltb_spec k (k + 1));
        destruct (Z.ltb_spec k k); try lia; auto.
    + rewrite !upd_other, Ea, Eb by exact Hne.
      destruct (Z.leb_spec lo i); destruct (Z.ltb_spec i k);
        destruct (Z.ltb_spec i (k + 1)); try lia; auto.
Qed.

Lemma in_range_true lo hi i :
  lo <= i < hi -> (lo <=? i) && (i <? hi) = true.
Proof.
  intros. destruct (Z.leb_spec lo i); destruct (Z.ltb_spec i hi); try lia; auto.
Qed.

Lemma in_range_false lo hi i :
  ~ lo <= i < hi -> (lo <=? i) && (i <? hi) = false.
Proof.
  intros. destruct (Z.leb_spec lo i); destruct (Z.ltb_spec i hi); try lia; auto.
Qed.

Lemma radix2_tables_spec n c0 s0 i :
  0 <= i < n / 2 ->
  fst (radix2_tables n c0 s0) i = cos (2 * PI * IZR i / IZR n) /\
  snd (radix2_tables n c0 s0) i = sin (2 * PI * IZR i / IZR n).
Proof.
  intros Hi. unfold radix2_tables.
  destruct (for_range_fill2 (fun i => cos (2 * PI * IZR i / IZR n))
              (fun i => sin (2 * PI * IZR i / IZR n)) 0 (n / 2) c0 s0 ltac:(lia) i)
    as [E1 E2].
  rewrite in_range_true in E1, E2 by lia. split; assumption.
Qed.

Lemma bluestein_tables_spec n c0 s0 i :
  0 <= i < n ->
  fst (bluestein_tables n c0 s0) i = cos (chirp_angle n i) /\
  snd (bluestein_tables n c0 s0) i = sin (chirp_angle n i).
Proof.
  intros Hi. unfold bluestein_tables.
  destruct (for_range_fill2 (fun i => cos (chirp_angle n i))
              (fun i => sin (chirp_angle n i)) 0 n c0 s0 ltac:(lia) i)
    as [E1 E2].
  rewrite in_range_true in E1, E2 by lia. split; assumption.
Qed.

Lemma bluestein_a_spec n real imag ct st a0 b0 i :
  0 <= n ->
  fst (bluestein_a n real imag ct st a0 b0) i
  = (if (0 <=? i) && (i <? n) then real i * ct i + imag i * st i else a0 i)%R /\
  snd (bluestein_a n real imag ct st a0 b0) i
  = (if (0 <=? i) && (i <? n) then - real i * st i + imag i * ct i else b0 i)%R.
Proof.
  intros Hn. unfold bluestein_a.
  apply (for_range_fill2 (fun i => real i * ct i + imag i * st i)%R
           (fun i => - real i * st i + imag i * ct i)%R 0 n a0 b0 Hn i).
Qed.

Lemma bluestein_post_spec n cr ci ct st a0 b0 i :
  0 <= n ->
  fst (bluestein_post n cr ci ct st a0 b0) i
  = (if (0 <=? i) && (i <? n) then cr i * ct i + ci i * st i else a0 i)%R /\
  snd (bluestein_post n cr ci ct st a0 b0) i
  = (if (0 <=? i) && (i <? n) then - cr i * st i + ci i * ct i else b0 i)%R.
Proof.
  intros Hn. unfold bluestein_post.
  apply (for_range_fill2 (fun i => cr i * ct i + ci i * st i)%R
           (fun i => - cr i * st i + ci i * ct i)%R 0 n a0 b0 Hn i).
Qed.

Lemma scale_into_spec n xr xi a0 b0 i :
  0 <= n ->
  fst (scale_into n xr xi a0 b0) i
  = (if (0 <=? i) && (i <? n) then xr i / IZR n else a0 i)%R /\
  snd (scale_into n xr xi a0 b0) i
  = (if (0 <=? i) && (i <? n) then xi i / IZR n else b0 i)%R.
Proof.
  intros Hn. unfold scale_into.
  apply (for_range_fill2 (fun i => xr i / IZR n)%R
           (fun i => xi i / IZR n)%R 0 n a0 b0 Hn i).
Qed.

Lemma pack_signals_spec n s1 s2 a0 b0 i :
  0 <= n ->
  fst (pack_signals n s1 s2 a0 b0) i
  = (if (0 <=? i) && (i <? n) then s1 i else a0 i) /\
  snd (pack_signals n s1 s2 a0 b0) i
  = (if (0 <=? i) && (i <? n) then s2 i else b0 i).
Proof.
  intros Hn. unfold pack_signals. apply (for_range_fill2 s1 s2 0 n a0 b0 Hn i).
Qed.

Lemma pointwise_product_spec n xr xi yr yi i :
  0 <= n ->
  fst (pointwise_product n xr xi yr yi) i
  = (if (0 <=? i) && (i <? n) then xr i * yr i - xi i * yi i else xr i)%R /\
  snd (pointwise_product n xr xi yr yi) i
  = (if (0 <=? i) && (i <? n) then xi i * yr i + xr i * yi i else xi i)%R.
Proof.
  intros Hn. unfold pointwise_product.
  exact (for_range_map2 (fun i a b => a * yr i - b * yi i)%R
           (fun i a b => b * yr i + a * yi i)%R 0 n xr xi Hn i).
Qed.

Lemma two_sided_low (t : buf) n m i : 1 <= i < n -> two_sided t n m i = t i.
Proof.
  intros Hi. unfold two_sided. destruct (Z.eqb_spec i 0); [lia |].
  destruct (Z.ltb_spec 0 i); destruct (Z.ltb_spec i n); try lia. reflexivity.
Qed.

Lemma two_sided_high (t : buf) n m i :
  1 <= i < n -> 2 * n <= m -> two_sided t n m (m - i) = t i.
Proof.
  intros Hi Hm. unfold two_sided. destruct (Z.eqb_spec (m - i) 0); [lia |].
  destruct (Z.ltb_spec 0 (m - i)); destruct (Z.ltb_spec (m - i) n);
    destruct (Z.ltb_spec (m - n) (m - i)); destruct (Z.ltb_spec (m - i) m);
    try lia. cbn. f_equal. lia.
Qed.

Lemma two_sided_middle (t : buf) n m j :
  1 <= n -> n <= j <= m - n -> two_sided t n m j = 0%R.
Proof.
  intros Hn Hj. unfold two_sided. destruct (Z.eqb_spec j 0); [lia |].
  destruct (Z.ltb_spec 0 j); destruct (Z.ltb_spec j n);
    destruct (Z.ltb_spec (m - n) j); destruct (Z.ltb_spec j m);
    try lia; reflexivity.
Qed.

(** The vector [b] of [transform_bluestein]. *)
Lemma bluestein_b_spec n m ct st :
  1 <= n -> 2 * n <= m ->
  forall j,
    fst (bluestein_b n m ct st zeros zeros) j = two_sided ct n m j /\
    snd (bluestein_b n m ct st zeros zeros) j = two_sided st n m j.
Proof.
  intros Hn Hm. unfold bluestein_b.
  apply (for_range_inv
           (fun k (s : buf * buf) => forall j,
              fst s j = two_sided ct k m j /\ snd s j = two_sided st k m j));
    [exact Hn | |].
  - intros j. cbn [fst snd]. unfold two_sided, upd, zeros.
    destruct (Z.eqb_spec j 0); [split; reflexivity |].
    destruct (Z.ltb_spec 0 j); destruct (Z.ltb_spec j 1);
      destruct (Z.ltb_spec (m - 1) j); destruct (Z.ltb_spec j m);
      try lia; split; reflexivity.
  - intros k [br bi] Hk IH j. cbn [fst snd] in *.
    destruct (IH j) as [Er Ei].
    assert (Hstep : forall (t b : buf),
               b j = two_sided t k m j ->
               upd (upd b (m - k) (t k)) k (upd b (m - k) (t k) (m - k)) j
               = two_sided t (k + 1) m j).
    { intros t b Eb. rewrite upd_same.
      destruct (Z.eq_dec j k) as [-> | Hjk].
      - rewrite upd_same. unfold two_sided.
        destruct (Z.eqb_spec k 0); [lia |].
        destruct (Z.ltb_spec 0 k); destruct (Z.ltb_spec k (k + 1)); try lia.
        reflexivity.
      - rewrite upd_other by exact Hjk.
        destruct (Z.eq_dec j (m - k)) as [-> | Hjm].
        + rewrite upd_same. unfold two_sided.
          destruct (Z.eqb_spec (m - k) 0); [lia |].
          destruct (Z.ltb_spec 0 (m - k)); destruct (Z.ltb_spec (m - k) (k + 1));
            destruct (Z.ltb_spec (m - (k + 1)) (m - k));
            destruct (Z.ltb_spec (m - k) m); try lia.
          cbn. f_equal. lia.
        + rewrite upd_other by exact Hjm. rewrite Eb. unfold two_sided.
          destruct (Z.eqb_spec j 0); [reflexivity |].
          destruct (Z.ltb_spec 0 j); destruct (Z.ltb_spec j k);
            destruct (Z.ltb_spec j (k + 1));
            destruct (Z.ltb_spec (m - k) j);
            destruct (Z.ltb_spec (m - (k + 1)) j);
            destruct (Z.ltb_spec j m); try lia; reflexivity. }
    split; apply Hstep; assumption.
Qed.

End Fill.

(** ** Complex arithmetic *)

Lemma C_ring_theory : ring_theory C0 C1 Cadd Cmul Csub Copp (@eq C).
Proof.
  constructor; intros; unfold C0, C1, Cadd, Cmul, Csub, Copp;
    repeat match goal with x : C |- _ => destruct x end;
    cbn [fst snd]; f_equal; ring.
Qed.

Add Ring C_ring : C_ring_theory.



Lemma Cconj_conj a : Cconj (Cconj a) = a.
Proof. destruct a. unfold Cconj. cbn. f_equal; ring. Qed.

Lemma Cswap_add a b : Cswap (Cadd a b) = Cadd (Cswap a) (Cswap b).
Proof. now destruct a, b. Qed.

(** The identity behind [inverse_transform]: swapping, multiplying and
    swapping back multiplies by the conjugate. *)
Lemma Cswap_mul a w : Cswap (Cmul (Cswap a) w) = Cmul a (Cconj w).
Proof. destruct a, w. unfold Cswap, Cmul, Cconj. cbn. f_equal; ring. Qed.

Lemma Cscal_mul r a : Cscal r a = Cmul (RtoC r) a.
Proof. destruct a. unfold Cscal, Cmul, RtoC. cbn. f_equal; ring. Qed.

(** *** Roots of unity *)

Lemma cis_add a b : cis (a + b) = Cmul (cis a) (cis b).
Proof. unfold cis, Cmul. cbn. now rewrite cos_plus, sin_plus, Rplus_comm. Qed.

Lemma cis_0 : cis 0 = C1.
Proof. unfold cis, C1. now rewrite cos_0, sin_0. Qed.

Lemma cis_neg a : cis (- a) = Cconj (cis a).
Proof. unfold cis, Cconj. cbn. now rewrite cos_neg, sin_neg. Qed.

Lemma cis_2PI_nat (k : nat) : cis (2 * PI * INR k) = C1.
Proof.
  unfold cis, C1.
  replace (2 * PI * INR k)%R with (0 + 2 * INR k * PI)%R by ring.
  now rewrite cos_period, sin_period, cos_0, sin_0.
Qed.

Lemma cis_2PI_Z (k : Z) : cis (2 * PI * IZR k) = C1.
Proof.
  destruct (Z_le_gt_dec 0 k) as [Hk | Hk].
  - rewrite <- (Z2Nat.id k Hk), <- INR_IZR_INZ. apply cis_2PI_nat.
  - replace (2 * PI * IZR k)%R with (- (2 * PI * IZR (- k)))%R
      by (rewrite opp_IZR; ring).
    rewrite cis_neg, <- (Z2Nat.id (- k)) by lia.
    rewrite <- INR_IZR_INZ, cis_2PI_nat. unfold Cconj, C1. cbn. f_equal. ring.
Qed.

Lemma omega_0 N : omega N 0 = C1.
Proof.
  unfold omega. replace (- (2 * PI * 0 / IZR N))%R with 0%R; [apply cis_0 |].
  unfold Rdiv. ring.
Qed.

Lemma omega_add N a b : omega N (a + b) = Cmul (omega N a) (omega N b).
Proof.
  unfold omega. rewrite <- cis_add. f_equal. rewrite plus_IZR.
  unfold Rdiv. ring.
Qed.

Lemma omega_neg N a : omega N (- a) = Cconj (omega N a).
Proof.
  unfold omega. rewrite <- cis_neg. f_equal. rewrite opp_IZR. unfold Rdiv. ring.
Qed.

Lemma omega_multiple N j : N <> 0 -> omega N (N * j) = C1.
Proof.
  intros HN. unfold omega.
  replace (- (2 * PI * IZR (N * j) / IZR N))%R with (2 * PI * IZR (- j))%R.
  - apply cis_2PI_Z.
  - rewrite mult_IZR, opp_IZR. field. now apply not_0_IZR.
Qed.

Lemma omega_period N k j : N <> 0 -> omega N (k + N * j) = omega N k.
Proof. intros. rewrite omega_add, omega_multiple by assumption. ring. Qed.

Lemma omega_mod N k : N <> 0 -> omega N (k mod N) = omega N k.
Proof.
  intros HN. rewrite (Z.div_mod k N HN) at 2.
  rewrite Z.add_comm. now rewrite omega_period.
Qed.

Lemma omega_scale c N k : c <> 0 -> N <> 0 -> omega (c * N) (c * k) = omega N k.
Proof.
  intros Hc HN. unfold omega. f_equal. rewrite !mult_IZR. field.
  split; now apply not_0_IZR.
Qed.

Lemma omega_half s : s <> 0 -> omega (2 * s) s = Copp C1.
Proof.
  intros Hs. unfold omega.
  replace (- (2 * PI * IZR s / IZR (2 * s)))%R with (- PI)%R.
  - rewrite cis_neg. unfold cis, Cconj, Copp, C1. cbn.
    rewrite cos_PI, sin_PI. f_equal; ring.
  - rewrite mult_IZR. field. now apply not_0_IZR.
Qed.

(** *** Finite sums *)

Lemma Csum_ext cnt (f g : Z -> C) :
  (forall t, 0 <= t < Z.of_nat cnt -> f t = g t) -> Csum cnt f = Csum cnt g.
Proof.
  induction cnt as [| c IH]; intros H; [reflexivity |].
  cbn [Csum]. rewrite IH, H; try lia; auto. intros. apply H. lia.
Qed.

Lemma Csum_0 cnt : Csum cnt (fun _ => C0) = C0.
Proof. induction cnt as [| c IH]; [reflexivity |]. cbn [Csum]. rewrite IH. ring. Qed.

Lemma Csum_add cnt (f g : Z -> C) :
  Csum cnt (fun t => Cadd (f t) (g t)) = Cadd (Csum cnt f) (Csum cnt g).
Proof. induction cnt as [| c IH]; cbn [Csum]; [ring |]. rewrite IH. ring. Qed.

Lemma Csum_mul_l cnt a (f : Z -> C) :
  Csum cnt (fun t => Cmul a (f t)) = Cmul a (Csum cnt f).
Proof. induction cnt as [| c IH]; cbn [Csum]; [ring |]. rewrite IH. ring. Qed.

Lemma Csum_mul_r cnt a (f : Z -> C) :
  Csum cnt (fun t => Cmul (f t) a) = Cmul (Csum cnt f) a.
Proof. induction cnt as [| c IH]; cbn [Csum]; [ring |]. rewrite IH. ring. Qed.

Lemma Csum_swap_fn cnt (f : Z -> C) :
  Csum cnt (fun t => Cswap (f t)) = Cswap (Csum cnt f).
Proof.
  induction cnt as [| c IH]; cbn [Csum]; [reflexivity |].
  now rewrite IH, Cswap_add.
Qed.


(** Exchange of two finite sums. *)
Lemma Csum_exchange a b (f : Z -> Z -> C) :
  Csum a (fun s => Csum b (fun t => f s t)) =
  Csum b (fun t => Csum a (fun s => f s t)).
Proof.
  induction a as [| a IH]; cbn [Csum].
  - now rewrite Csum_0.
  - now rewrite IH, Csum_add.
Qed.

(** A sum split at [a]. *)
Lemma Csum_app a b (f : Z -> C) :
  Csum (a + b) f = Cadd (Csum a f) (Csum b (fun t => f (Z.of_nat a + t))).
Proof.
  induction b as [| b IH].
  - rewrite Nat.add_0_r. cbn [Csum]. ring.
  - rewrite Nat.add_succ_r. cbn [Csum]. rewrite IH.
    replace (Z.of_nat (a + b)) with (Z.of_nat a + Z.of_nat b) by lia. ring.
Qed.

(** A sum over [0 .. 2c-1] split into even and odd indices. *)
Lemma Csum_even_odd c (f : Z -> C) :
  Csum (2 * c) f =
  Cadd (Csum c (fun u => f (2 * u))) (Csum c (fun u => f (2 * u + 1))).
Proof.
  induction c as [| c IH]; [cbn; ring |].
  replace (2 * S c)%nat with (S (S (2 * c))) by lia.
  cbn [Csum]. rewrite IH.
  replace (Z.of_nat (2 * c)) with (2 * Z.of_nat c) by lia.
  replace (Z.of_nat (S (2 * c))) with (2 * Z.of_nat c + 1) by lia. ring.
Qed.

(** A sum with a single non-zero term. *)
Lemma Csum_single cnt (f : Z -> C) t0 :
  0 <= t0 < Z.of_nat cnt ->
  (forall t, 0 <= t < Z.of_nat cnt -> t <> t0 -> f t = C0) ->
  Csum cnt f = f t0.
Proof.
  induction cnt as [| c IH]; intros Ht H0; [lia |].
  cbn [Csum]. destruct (Z.eq_dec t0 (Z.of_nat c)) as [-> | Hne].
  - rewrite (Csum_ext c f (fun _ => C0)), Csum_0; [ring |].
    intros t Ht'. apply H0; lia.
  - rewrite IH, (H0 (Z.of_nat c)); try lia; [ring |].
    intros t Ht' Hn. apply H0; lia.
Qed.

(** ** Orthogonality of the roots of unity *)

Lemma Cmul_integral a b : Cmul a b = C0 -> a <> C0 -> b = C0.
Proof.
  intros Hab Ha.
  assert (Hn : (0 < fst a * fst a + snd a * snd a)%R).
  { destruct a as [x y]. cbn.
    destruct (Req_dec x 0) as [-> | Hx].
    - destruct (Req_dec y 0) as [-> | Hy]; [now elim Ha |]. nra.
    - nra. }
  assert (E : Cmul (Cconj a) (Cmul a b) = C0) by (rewrite Hab; ring).
  destruct a as [x y], b as [u v]. unfold Cmul, Cconj, C0 in *. cbn [fst snd] in *.
  injection E as E1 E2. f_equal; nra.
Qed.

Lemma cos_lt_1 x : (0 < x < 2 * PI)%R -> (cos x < 1)%R.
Proof.
  intros Hx. replace x with (2 * (x / 2))%R by field.
  rewrite cos_2a_sin.
  assert (0 < sin (x / 2))%R by (apply sin_gt_0; lra). nra.
Qed.

Lemma omega_neq_1 N d : 0 < N -> d mod N <> 0 -> omega N d <> C1.
Proof.
  intros HN Hd. rewrite <- omega_mod by lia.
  pose proof (Z.mod_pos_bound d N HN) as Hb.
  set (r := d mod N) in *.
  unfold omega. rewrite cis_neg. unfold cis, Cconj, C1. cbn. intros E.
  injection E as Ec _.
  assert (0 < IZR r < IZR N)%R.
  { split; apply IZR_lt; lia. }
  assert (0 < IZR N)%R by (apply IZR_lt; lia).
  assert (cos (2 * PI * IZR r / IZR N) < 1)%R; [| lra].
  apply cos_lt_1. pose proof PI_RGT_0. split.
  - apply Rdiv_lt_0_compat; nra.
  - apply Rmult_lt_reg_r with (IZR N); [assumption |].
    unfold Rdiv. rewrite Rmult_assoc, Rinv_l by lra. nra.
Qed.

Lemma omega_telescope N d c :
  Cmul (Csub C1 (omega N d)) (Csum c (fun k => omega N (k * d))) =
  Csub C1 (omega N (Z.of_nat c * d)).
Proof.
  induction c as [| c IH].
  - cbn [Csum]. change (Z.of_nat 0 * d) with 0. rewrite omega_0. ring.
  - cbn [Csum].
    replace (Z.of_nat (S c) * d) with (Z.of_nat c * d + d) by lia.
    rewrite omega_add.
    transitivity (Cadd (Cmul (Csub C1 (omega N d)) (Csum c (fun k => omega N (k * d))))
                       (Cmul (Csub C1 (omega N d)) (omega N (Z.of_nat c * d)))); [ring |].
    rewrite IH. ring.
Qed.

Lemma Csum_const c a : Csum c (fun _ => a) = Cscal (INR c) a.
Proof.
  induction c as [| c IH].
  - destruct a. cbn [Csum INR]. unfold Cscal, C0. cbn [fst snd]. f_equal; ring.
  - cbn [Csum]. rewrite IH, S_INR. destruct a. unfold Cscal, Cadd. cbn [fst snd].
    f_equal; ring.
Qed.

(** The sum of the [d]-th powers of the [N]-th roots of unity. *)
Lemma omega_sum N d :
  0 < N ->
  Csum (Z.to_nat N) (fun k => omega N (k * d)) =
  if d mod N =? 0 then RtoC (IZR N) else C0.
Proof.
  intros HN. destruct (Z.eqb_spec (d mod N) 0) as [Hd | Hd].
  - rewrite (Csum_ext _ _ (fun _ => C1)).
    + rewrite Csum_const, INR_IZR_INZ, Z2Nat.id by lia.
      unfold Cscal, C1, RtoC. cbn. f_equal; ring.
    + intros k _. rewrite <- omega_mod by lia.
      rewrite Z.mul_mod, Hd, Z.mul_0_r by lia.
      rewrite Z.mod_0_l by lia. apply omega_0.
  - apply Cmul_integral with (a := Csub C1 (omega N d)).
    + rewrite omega_telescope, Z2Nat.id, omega_multiple by lia. ring.
    + intros E. apply (omega_neq_1 N d HN Hd).
      destruct (omega N d) as [x y]. unfold Csub, C1, C0 in *. cbn in E.
      injection E as E1 E2. f_equal; lra.
Qed.

(** ** The inverse transform undoes the transform, up to the factor [n] *)

Lemma idft_dft n (x : Z -> C) j :
  0 < n -> 0 <= j < n -> idft n (dft n x) j = Cscal (IZR n) (x j).
Proof.
  intros Hn Hj. unfold idft, dft.
  rewrite (Csum_ext _ _
             (fun k => Csum (Z.to_nat n)
                         (fun t => Cmul (x t) (omega n (k * (t - j)))))).
  2:{ intros k _. rewrite <- Csum_mul_r. apply Csum_ext. intros t _.
      replace (k * (t - j)) with (t * k + - (k * j)) by ring.
      rewrite omega_add. ring. }
  rewrite Csum_exchange.
  rewrite (Csum_ext _ _
             (fun t => Cmul (x t) (if (t - j) mod n =? 0 then RtoC (IZR n) else C0))).
  2:{ intros t _. rewrite Csum_mul_l. f_equal. now apply omega_sum. }
  rewrite (Csum_single _ _ j).
  - rewrite Z.sub_diag, Z.mod_0_l by lia. cbn [Z.eqb]. rewrite Cscal_mul. ring.
  - lia.
  - intros t Ht Hne. destruct (Z.eqb_spec ((t - j) mod n) 0) as [E | E]; [| ring].
    exfalso. apply Z.mod_divide in E; [| lia]. destruct E as [q Hq].
    assert (-1 < q < 1) by nia. assert (q = 0) by lia. subst q. lia.
Qed.

(** ** The convolution theorem *)

Lemma convolution_theorem n (x y : Z -> C) k :
  0 < n -> 0 <= k < n ->
  idft n (fun j => Cmul (dft n x j) (dft n y j)) k =
  Cscal (IZR n) (circular_convolution n x y k).
Proof.
  intros Hn Hk. unfold idft, circular_convolution.
  rewrite (Csum_ext _ _
     (fun j => Csum (Z.to_nat n) (fun t =>
        Cmul (x t) (Csum (Z.to_nat n) (fun u =>
           Cmul (y u) (omega n (j * (t + u - k)))))))).
  2:{ intros j _. unfold dft.
      rewrite <- Csum_mul_r, <- Csum_mul_r. apply Csum_ext. intros t _.
      transitivity (Cmul (x t)
                      (Cmul (Csum (Z.to_nat n) (fun u => Cmul (y u) (omega n (u * j))))
                            (Cmul (omega n (t * j)) (omega n (- (j * k)))))); [ring |].
      f_equal. rewrite <- Csum_mul_r. apply Csum_ext. intros u _.
      replace (j * (t + u - k)) with (u * j + (t * j + - (j * k))) by ring.
      rewrite !omega_add. ring. }
  rewrite Csum_exchange.
  rewrite Cscal_mul, <- Csum_mul_l. apply Csum_ext. intros t Ht.
  rewrite Z2Nat.id in Ht by lia.
  rewrite Csum_mul_l.
  transitivity (Cmul (x t) (Cmul (RtoC (IZR n)) (y ((k - t) mod n)))); [| ring].
  f_equal. rewrite Csum_exchange.
  rewrite (Csum_ext _ _
     (fun u => Cmul (y u) (if (t + u - k) mod n =? 0 then RtoC (IZR n) else C0))).
  2:{ intros u _. rewrite Csum_mul_l. f_equal. now apply omega_sum. }
  pose proof (Z.mod_pos_bound (k - t) n Hn) as Hb.
  rewrite (Csum_single _ _ ((k - t) mod n)).
  - replace ((t + (k - t) mod n - k) mod n) with 0; [cbn [Z.eqb]; ring |].
    symmetry. rewrite Z.mod_eq with (a := k - t) by lia.
    replace (t + (k - t - n * ((k - t) / n)) - k) with (- ((k - t) / n) * n) by ring.
    apply Z.mod_mul. lia.
  - lia.
  - intros u Hu Hne. rewrite Z2Nat.id in Hu by lia.
    destruct (Z.eqb_spec ((t + u - k) mod n) 0) as [E | E]; [| ring].
    exfalso. apply Hne.
    apply Z.mod_divide in E; [| lia]. destruct E as [q Hq].
    replace (k - t) with (u + (- q) * n) by lia.
    rewrite Z.mod_add, Z.mod_small by lia. reflexivity.
Qed.

(** ** The butterfly stages *)

Section Radix2.
Context {dm : DataModel}.

Lemma butterfly_spec half ts ct st j k re im :
  half <> 0 ->
  let '(k', re', im') := butterfly half ts ct st j (k, re, im) in
  k' = k + ts /\
  forall p,
    cplx re' im' p =
    if p =? j
    then Cadd (cplx re im j) (Cmul (cplx re im (j + half)) (twiddle ct st k))
    else if p =? j + half
    then Csub (cplx re im j) (Cmul (cplx re im (j + half)) (twiddle ct st k))
    else cplx re im p.
Proof.
  intros Hh. cbn [butterfly]. split; [reflexivity |]. intros p.
  unfold cplx, twiddle, Cadd, Csub, Cmul. cbn [fst snd].
  destruct (Z.eqb_spec p j) as [-> | Hpj].
  - rewrite !upd_same, !(upd_other _ (j + half) j) by lia. f_equal; ring.
  - rewrite !(upd_other _ j p) by exact Hpj.
    destruct (Z.eqb_spec p (j + half)) as [-> | Hph].
    + rewrite !upd_same. f_equal; ring.
    + rewrite !upd_other by exact Hph. reflexivity.
Qed.

(** The innermost loop, on the block that starts at [i]. *)
Lemma butterflies_spec half ts ct st i re im :
  0 < half ->
  let '(_, re', im') :=
    for_range i (i + half) (butterfly half ts ct st) (0, re, im) in
  forall p,
    cplx re' im' p =
    if (i <=? p) && (p <? i + half)
    then Cadd (cplx re im p)
              (Cmul (cplx re im (p + half)) (twiddle ct st ((p - i) * ts)))
    else if (i + half <=? p) && (p <? i + half + half)
    then Csub (cplx re im (p - half))
              (Cmul (cplx re im p) (twiddle ct st ((p - half - i) * ts)))
    else cplx re im p.
Proof.
  intros Hh.
  pose (Inv := fun j0 (s : Z * buf * buf) =>
       let '(k, re', im') := s in
       k = (j0 - i) * ts /\
       forall p,
         cplx re' im' p =
         if (i <=? p) && (p <? j0)
         then Cadd (cplx re im p)
                   (Cmul (cplx re im (p + half)) (twiddle ct st ((p - i) * ts)))
         else if (i + half <=? p) && (p <? j0 + half)
         then Csub (cplx re im (p - half))
                   (Cmul (cplx re im p) (twiddle ct st ((p - half - i) * ts)))
         else cplx re im p).
  assert (Hinv : Inv (i + half)
      (for_range i (i + half) (butterfly half ts ct st) (0, re, im))).
  { apply (for_range_inv Inv); unfold Inv; [lia | |].
    - split; [lia |]. intros p.
      rewrite !in_range_false by lia. reflexivity.
    - intros j0 [[k re'] im'] Hj [Hk Hp].
      pose proof (butterfly_spec half ts ct st j0 k re' im' ltac:(lia)) as Hb.
      destruct (butterfly half ts ct st j0 (k, re', im')) as [[k2 re2] im2].
      destruct Hb as [-> Hb]. split; [lia |]. intros p. rewrite Hb.
      destruct (Z.eqb_spec p j0) as [-> | Hpj].
      + rewrite !Hp. rewrite (in_range_false i j0 j0) by lia.
        rewrite (in_range_false (i + half) (j0 + half) j0) by lia.
        rewrite (in_range_false i j0 (j0 + half)) by lia.
        rewrite (in_range_false (i + half) (j0 + half) (j0 + half)) by lia.
        rewrite (in_range_true i (j0 + 1) j0) by lia. now rewrite Hk.
      + destruct (Z.eqb_spec p (j0 + half)) as [-> | Hph].
        * rewrite !Hp. rewrite (in_range_false i j0 j0) by lia.
          rewrite (in_range_false (i + half) (j0 + half) j0) by lia.
          rewrite (in_range_false i j0 (j0 + half)) by lia.
          rewrite (in_range_false (i + half) (j0 + half) (j0 + half)) by lia.
          rewrite (in_range_false i (j0 + 1) (j0 + half)) by lia.
          rewrite (in_range_true (i + half) (j0 + 1 + half) (j0 + half)) by lia.
          rewrite Hk. replace (j0 + half - half) with j0 by lia. reflexivity.
        * rewrite Hp.
          destruct (Z.leb_spec i p); destruct (Z.ltb_spec p j0);
            destruct (Z.ltb_spec p (j0 + 1));
            destruct (Z.leb_spec (i + half) p);
            destruct (Z.ltb_spec p (j0 + half));
            destruct (Z.ltb_spec p (j0 + 1 + half)); try lia; reflexivity. }
  destruct (for_range i (i + half) (butterfly half ts ct st) (0, re, im))
    as [[k re'] im'].
  apply Hinv.
Qed.

(** One whole stage, for a block length that divides [n]. *)
Lemma stage_spec half blocks ct st re im :
  0 < half -> 0 <= blocks ->
  let n := 2 * half * blocks in
  let '(re', im') := stage n (2 * half) ct st re im in
  forall p, 0 <= p < n ->
    cplx re' im' p = stage_entry n (2 * half) ct st (cplx re im) p.
Proof.
  intros Hh Hb n.
  set (size := 2 * half).
  assert (Hhalf : size / 2 = half).
  { unfold size. rewrite Z.mul_comm. apply Z.div_mul. lia. }
  assert (Hcnt : (n + size - 1) / size = blocks).
  { unfold n. fold size.
    replace (size * blocks + size - 1) with ((size - 1) + blocks * size) by ring.
    rewrite Z.div_add by lia. rewrite Z.div_small by lia. lia. }
  pose (Inv := fun (b0 : nat) (s : buf * buf) =>
       forall p,
         cplx (fst s) (snd s) p =
         if (0 <=? p) && (p <? Z.of_nat b0 * size)
         then stage_entry n size ct st (cplx re im) p
         else cplx re im p).
  assert (Hinv : Inv (Z.to_nat blocks) (stage n size ct st re im)).
  { unfold stage, for_stride. rewrite Hcnt, Hhalf.
    apply (for_loop_inv Inv); unfold Inv.
    - intros p. cbn [fst snd]. rewrite in_range_false by lia. reflexivity.
    - intros b0 [re1 im1] Hb0 IH. cbn [fst snd] in IH.
      rewrite Z.add_0_l. set (i := Z.of_nat b0 * size) in *.
      pose proof (butterflies_spec half (n / size) ct st i re1 im1 Hh) as Hs.
      destruct (for_range i (i + half) (butterfly half (n / size) ct st) (0, re1, im1))
        as [[k re2] im2].
      cbn [fst snd]. intros p. rewrite Hs.
      replace (Z.of_nat (S b0) * size) with (i + size) by (unfold i; lia).
      assert (Hq : i <= p < i + size -> p mod size = p - i).
      { intros Hp. symmetry. apply Z.mod_unique with (q := Z.of_nat b0); [lia |].
        unfold i. ring. }
      destruct (Z_le_gt_dec i p) as [Hip | Hip].
      + destruct (Z_lt_le_dec p (i + half)) as [Hlo | Hlo].
        * rewrite (in_range_true i (i + half) p) by lia.
          rewrite (in_range_true 0 (i + size) p) by (unfold size in *; lia).
          rewrite !IH. rewrite !in_range_false by lia.
          unfold stage_entry. rewrite Hhalf, Hq by (unfold size; lia).
          destruct (Z.ltb_spec (p - i) half); [| lia]. reflexivity.
        * rewrite (in_range_false i (i + half) p) by lia.
          destruct (Z_lt_le_dec p (i + size)) as [Hhi | Hhi].
          -- rewrite (in_range_true (i + half) (i + half + half) p)
               by (unfold size in *; lia).
             rewrite (in_range_true 0 (i + size) p) by (unfold size in *; lia).
             rewrite !IH. rewrite !in_range_false by lia.
             unfold stage_entry. rewrite Hhalf, Hq by lia.
             destruct (Z.ltb_spec (p - i) half); [lia |].
             replace (p - i - half) with (p - half - i) by lia. reflexivity.
          -- rewrite (in_range_false (i + half) (i + half + half) p)
               by (unfold size in *; lia).
             rewrite IH. rewrite !in_range_false by lia. reflexivity.
      + rewrite (in_range_false i (i + half) p) by lia.
        rewrite (in_range_false (i + half) (i + half + half) p) by lia.
        rewrite IH.
        destruct (Z.leb_spec 0 p); destruct (Z.ltb_spec p i);
          destruct (Z.ltb_spec p (i + size)); try lia; reflexivity. }
  fold size. destruct (stage n size ct st re im) as [re' im'].
  unfold Inv in Hinv. cbn [fst snd] in Hinv. intros p Hp. rewrite Hinv.
  rewrite Z2Nat.id by lia.
  rewrite in_range_true; [reflexivity |]. unfold n, size in *. lia.
Qed.

(** *** The decimation-in-time identity *)

Lemma dft_split s (f : Z -> C) q :
  0 < s ->
  dft (2 * s) f q =
  Cadd (dft s (fun u => f (2 * u)) q)
       (Cmul (omega (2 * s) q) (dft s (fun u => f (2 * u + 1)) q)).
Proof.
  intros Hs. unfold dft.
  replace (Z.to_nat (2 * s)) with (2 * Z.to_nat s)%nat by lia.
  rewrite Csum_even_odd. f_equal.
  - apply Csum_ext. intros u _. f_equal.
    replace (2 * u * q) with (2 * (u * q)) by ring.
    apply omega_scale; lia.
  - rewrite <- Csum_mul_l. apply Csum_ext. intros u _.
    replace ((2 * u + 1) * q) with (2 * (u * q) + q) by ring.
    rewrite omega_add, omega_scale by lia. ring.
Qed.

Lemma dft_periodic s (g : Z -> C) q :
  s <> 0 -> dft s g (q + s) = dft s g q.
Proof.
  intros Hs. unfold dft. apply Csum_ext. intros t _. f_equal.
  replace (t * (q + s)) with (t * q + s * t) by ring.
  now apply omega_period.
Qed.

Lemma omega_half_shift s q :
  s <> 0 -> omega (2 * s) (q + s) = Copp (omega (2 * s) q).
Proof. intros Hs. rewrite omega_add, omega_half by exact Hs. ring. Qed.

Lemma twiddle_omega n c0 s0 k :
  0 <= k < n / 2 ->
  twiddle (fst (radix2_tables n c0 s0)) (snd (radix2_tables n c0 s0)) k = omega n k.
Proof.
  intros Hk. destruct (radix2_tables_spec n c0 s0 k Hk) as [E1 E2].
  unfold twiddle, omega. rewrite E1, E2, cis_neg. reflexivity.
Qed.

Lemma blocks_dft_0 n (a0 : Z -> C) : blocks_dft 0 n a0 a0.
Proof.
  intros p Hp. change (2 ^ 0) with 1. unfold dft.
  change (Z.to_nat 1) with 1%nat. cbn [Csum].
  rewrite Z.div_1_r, Z.mod_1_r, reverse_bits_0.
  change (Z.of_nat 0 * 0) with 0. rewrite omega_0.
  replace (p * 1 + 0) with p by ring. ring.
Qed.

(** One stage doubles the length of the transformed blocks. *)
Lemma blocks_dft_step l L ct st (a0 a a' : Z -> C) :
  0 <= l < L -> L < size_bits ->
  (forall k, 0 <= k < 2 ^ L / 2 -> twiddle ct st k = omega (2 ^ L) k) ->
  blocks_dft l (2 ^ L) a0 a ->
  (forall p, 0 <= p < 2 ^ L ->
             a' p = stage_entry (2 ^ L) (2 ^ (l + 1)) ct st a p) ->
  blocks_dft (l + 1) (2 ^ L) a0 a'.
Proof.
  intros Hl HL Htw Ha Ha' p Hp.
  set (s := 2 ^ l). assert (Hs : 0 < s) by (apply Z.pow_pos_nonneg; lia).
  assert (H2s : 2 ^ (l + 1) = 2 * s) by (unfold s; rewrite Z.pow_add_r; lia).
  set (ts := 2 ^ (L - l - 1)).
  assert (Hts : 0 < ts) by (apply Z.pow_pos_nonneg; lia).
  assert (Hn : 2 ^ L = 2 * s * ts).
  { unfold s, ts. replace L with (1 + l + (L - l - 1)) at 1 by lia.
    rewrite !Z.pow_add_r by lia. reflexivity. }
  rewrite Ha' by exact Hp. unfold stage_entry. rewrite H2s.
  replace (2 * s / 2) with s by (symmetry; rewrite Z.mul_comm; apply Z.div_mul; lia).
  replace (2 ^ L / (2 * s)) with ts
    by (rewrite Hn; symmetry; rewrite Z.mul_comm; apply Z.div_mul; lia).
  set (q := p mod (2 * s)). set (B := p / (2 * s)).
  assert (Hq : 0 <= q < 2 * s) by (apply Z.mod_pos_bound; lia).
  assert (HpB : p = 2 * s * B + q) by (apply Z.div_mod; lia).
  assert (HB : 0 <= B < ts).
  { split; [apply Z.div_pos; lia |]. apply Z.div_lt_upper_bound; lia. }
  assert (Hhalf : 2 ^ L / 2 = s * ts).
  { rewrite Hn. replace (2 * s * ts) with (s * ts * 2) by ring.
    apply Z.div_mul. lia. }
  assert (Htw' : forall j, 0 <= j < s -> twiddle ct st (j * ts) = omega (2 * s) j).
  { intros j Hj. rewrite Htw by (rewrite Hhalf; nia).
    rewrite Hn. replace (2 * s * ts) with (ts * (2 * s)) by ring.
    rewrite (Z.mul_comm j ts). apply omega_scale; lia. }
  rewrite (dft_split s) by exact Hs.
  assert (Hev : forall g, dft s (fun u => a0 (B * (2 * s) + reverse_bits (2 * u) (l + 1))) g
                          = dft s (fun t => a0 (2 * B * s + reverse_bits t l)) g).
  { intros g. unfold dft. apply Csum_ext. intros u _. f_equal. f_equal.
    rewrite reverse_bits_even by lia. ring. }
  assert (Hod : forall g, dft s (fun u => a0 (B * (2 * s) + reverse_bits (2 * u + 1) (l + 1))) g
                          = dft s (fun t => a0 ((2 * B + 1) * s + reverse_bits t l)) g).
  { intros g. unfold dft. apply Csum_ext. intros u _. f_equal. f_equal.
    rewrite reverse_bits_odd by lia. fold s. ring. }
  rewrite Hev, Hod.
  destruct (Z.ltb_spec q s) as [Hlo | Hhi].
  - rewrite Htw' by lia.
    rewrite (Ha p Hp), (Ha (p + s)) by nia. fold s.
    replace (p / s) with (2 * B)
      by (apply Z.div_unique with (r := q); [lia | rewrite HpB; ring]).
    replace (p mod s) with q
      by (apply Z.mod_unique with (q := 2 * B); [lia | rewrite HpB; ring]).
    replace ((p + s) / s) with (2 * B + 1)
      by (apply Z.div_unique with (r := q); [lia | rewrite HpB; ring]).
    replace ((p + s) mod s) with q
      by (apply Z.mod_unique with (q := 2 * B + 1); [lia | rewrite HpB; ring]).
    ring.
  - rewrite Htw' by lia.
    rewrite (Ha p Hp), (Ha (p - s)) by nia. fold s.
    replace (p / s) with (2 * B + 1)
      by (apply Z.div_unique with (r := q - s); [lia | rewrite HpB; ring]).
    replace (p mod s) with (q - s)
      by (apply Z.mod_unique with (q := 2 * B + 1); [lia | rewrite HpB; ring]).
    replace ((p - s) / s) with (2 * B)
      by (apply Z.div_unique with (r := q - s); [lia | rewrite HpB; ring]).
    replace ((p - s) mod s) with (q - s)
      by (apply Z.mod_unique with (q := 2 * B); [lia | rewrite HpB; ring]).
    set (q' := q - s). replace q with (q' + s) by (unfold q'; ring).
    rewrite !dft_periodic, omega_half_shift by lia. ring.
Qed.

Lemma stages_iter_blocks L ct st (a0 : Z -> C) cnt : forall l re im,
  0 <= l -> l + Z.of_nat cnt <= L -> L < size_bits ->
  (forall k, 0 <= k < 2 ^ L / 2 -> twiddle ct st k = omega (2 ^ L) k) ->
  blocks_dft l (2 ^ L) a0 (cplx re im) ->
  blocks_dft (l + Z.of_nat cnt) (2 ^ L) a0
    (cplx (fst (stages_iter cnt (2 ^ L) (2 ^ (l + 1)) ct st re im))
          (snd (stages_iter cnt (2 ^ L) (2 ^ (l + 1)) ct st re im))).
Proof.
  induction cnt as [| cnt IH]; intros l re im Hl HlL HL Htw Hb.
  - cbn [stages_iter fst snd]. now rewrite Z.add_0_r.
  - cbn [stages_iter].
    assert (Hs : 0 < 2 ^ l) by (apply Z.pow_pos_nonneg; lia).
    assert (Hn : 2 ^ L = 2 * 2 ^ l * 2 ^ (L - l - 1)).
    { replace L with (1 + l + (L - l - 1)) at 1 by lia.
      rewrite !Z.pow_add_r by lia. reflexivity. }
    assert (H2s : 2 ^ (l + 1) = 2 * 2 ^ l) by (rewrite Z.pow_add_r; lia).
    pose proof (stage_spec (2 ^ l) (2 ^ (L - l - 1)) ct st re im Hs
                  ltac:(apply Z.pow_nonneg; lia)) as Hst.
    cbv zeta in Hst. rewrite <- Hn, <- H2s in Hst.
    destruct (stage (2 ^ L) (2 ^ (l + 1)) ct st re im) as [re' im'].
    replace (2 ^ (l + 1) * 2) with (2 ^ (l + 1 + 1)) by (rewrite (Z.pow_add_r _ (l + 1)); lia).
    replace (l + Z.of_nat (S cnt)) with (l + 1 + Z.of_nat cnt) by lia.
    apply IH; try lia; [exact Htw |].
    apply (blocks_dft_step l L ct st a0 (cplx re im)); auto; lia.
Qed.

(** What [transform_radix2] computes. *)
Lemma radix2_core_dft L c0 s0 real imag k :
  0 <= L < size_bits -> 0 <= k < 2 ^ L ->
  cplx (fst (radix2_core L (2 ^ L) c0 s0 real imag))
       (snd (radix2_core L (2 ^ L) c0 s0 real imag)) k
  = dft (2 ^ L) (cplx real imag) k.
Proof.
  intros HL Hk. unfold radix2_core.
  pose proof (twiddle_omega (2 ^ L) c0 s0) as Htw.
  destruct (radix2_tables (2 ^ L) c0 s0) as [ct st]. cbn [fst snd] in Htw.
  assert (HL' : 0 <= L <= size_bits) by lia.
  pose proof (bit_reverse_pass_spec L real imag HL') as Hrev.
  destruct (bit_reverse_pass L (2 ^ L) real imag) as [re1 im1].
  cbn [fst snd] in Hrev.
  assert (HL0 : 0 + Z.of_nat (Z.to_nat L) <= L) by lia.
  pose proof (stages_iter_blocks L ct st (cplx re1 im1) (Z.to_nat L) 0 re1 im1
                (Z.le_refl 0) HL0 (proj2 HL) Htw (blocks_dft_0 _ _)) as Hb.
  change (2 ^ (0 + 1)) with 2 in Hb. rewrite Z.add_0_l, Z2Nat.id in Hb by lia.
  rewrite (Hb k Hk).
  rewrite Z.div_small, Z.mod_small by lia.
  unfold dft. apply Csum_ext. intros t Ht.
  rewrite Z2Nat.id in Ht by (apply Z.pow_nonneg; lia).
  f_equal. rewrite Z.mul_0_l, Z.add_0_l.
  pose proof (reverse_bits_bound t L HL') as Hb'.
  destruct (Hrev (reverse_bits t L) Hb') as [E1 E2].
  unfold cplx. rewrite E1, E2, reverse_bits_involutive by lia. reflexivity.
Qed.

Lemma transform_radix2_success fuel h real imag n real' imag' h' :
  is_size n -> size_bits <= Z.of_nat fuel ->
  transform_radix2 fuel h real imag n = Some (true, real', imag', h') ->
  pow2 n /\ n < 2 ^ uint_bits /\
  forall k, 0 <= k < n -> cplx real' imag' k = dft n (cplx real imag) k.
Proof.
  intros Hn Hf. rewrite transform_radix2_eq by assumption.
  destruct (not_power_of_2 (Z.log2 n) n) eqn:Hp; [discriminate |].
  apply not_power_of_2_false in Hp; [| exact Hn]. destruct Hp as [Hp Hlt].
  destruct (_ <? _); [discriminate |]. cbv zeta.
  destruct (malloc h _) as [cos_ptr h1]. destruct (malloc h1 _) as [sin_ptr h2].
  destruct (_ || _); [discriminate |].
  destruct (radix2_core _ _ _ _ _ _) as [re im] eqn:Hc.
  intros E. injection E as <- <- <-.
  split; [exact Hp |]. split; [exact Hlt |]. intros k Hk.
  pose proof (log2_lt_size_bits n Hn). pose proof (Z.log2_nonneg n).
  pose proof (pow2_log2 n Hp) as En.
  assert (HL : 0 <= Z.log2 n < size_bits) by lia.
  assert (Hk' : 0 <= k < 2 ^ Z.log2 n) by lia.
  pose proof (radix2_core_dft (Z.log2 n) (deref cos_ptr) (deref sin_ptr) real imag k
                HL Hk') as Hd.
  rewrite <- En, Hc in Hd. exact Hd.
Qed.

End Radix2.

(** ** [inverse_transform] and [convolve_complex] *)

Section Convolve.
Context {dm : DataModel}.

Lemma dft_ext n (x y : Z -> C) k :
  (forall t, 0 <= t < n -> x t = y t) -> dft n x k = dft n y k.
Proof.
  intros H. unfold dft. apply Csum_ext. intros t Ht. rewrite H; [reflexivity | lia].
Qed.

Lemma idft_ext n (x y : Z -> C) k :
  (forall t, 0 <= t < n -> x t = y t) -> idft n x k = idft n y k.
Proof.
  intros H. unfold idft. apply Csum_ext. intros t Ht. rewrite H; [reflexivity | lia].
Qed.

(** Swapping the buffers around a forward transform gives the inverse
    transform, without the factor [1/n]. *)
Lemma swapped_dft_is_idft n (z : Z -> C) k :
  Cswap (dft n (fun t => Cswap (z t)) k) = idft n z k.
Proof.
  unfold dft, idft. rewrite <- Csum_swap_fn. apply Csum_ext. intros t _.
  now rewrite Cswap_mul, <- omega_neg.
Qed.

Lemma inverse_transform_with_idft (tr : transformer) h re im n re' im' h' :
  computes_dft tr n ->
  inverse_transform_with tr h re im n = Some (true, re', im', h') ->
  forall k, 0 <= k < n -> cplx re' im' k = idft n (cplx re im) k.
Proof.
  intros Htr. unfold inverse_transform_with.
  destruct (tr h im re n) as [[[[s i'] r'] h1] |] eqn:E; [| discriminate].
  intros E'. injection E' as -> -> -> ->. intros k Hk.
  pose proof (Htr _ _ _ _ _ _ E k Hk) as Hd.
  rewrite <- swapped_dft_is_idft.
  change (cplx re' im' k) with (Cswap (cplx im' re' k)). now rewrite Hd.
Qed.

Lemma memdup_some h src size :
  is_null (fst (memdup h src size)) = false ->
  deref (fst (memdup h src size)) = src.
Proof. unfold memdup. cbn [fst]. destruct (outcome h _); [reflexivity | discriminate]. Qed.

(** [convolve_complex], when it succeeds, leaves the circular convolution
    in the output buffers, and it has run [tr] successfully. *)
Lemma convolve_complex_with_correct (tr : transformer)
      h xr xi yr yi outr outi n outr' outi' h' :
  0 < n -> computes_dft tr n ->
  convolve_complex_with tr h xr xi yr yi outr outi n = Some (true, outr', outi', h') ->
  (exists h0 a b a' b' h1, tr h0 a b n = Some (true, a', b', h1)) /\
  forall k, 0 <= k < n ->
    cplx outr' outi' k = circular_convolution n (cplx xr xi) (cplx yr yi) k.
Proof.
  intros Hn Htr. unfold convolve_complex_with.
  destruct (_ <? _); [discriminate |]. cbv zeta.
  pose proof (memdup_some h xr (size_wrap (n * sizeof_double))) as M1.
  destruct (memdup h xr _) as [pxr h1]. cbn [fst] in M1.
  pose proof (memdup_some h1 xi (size_wrap (n * sizeof_double))) as M2.
  destruct (memdup h1 xi _) as [pxi h2]. cbn [fst] in M2.
  pose proof (memdup_some h2 yr (size_wrap (n * sizeof_double))) as M3.
  destruct (memdup h2 yr _) as [pyr h3]. cbn [fst] in M3.
  pose proof (memdup_some h3 yi (size_wrap (n * sizeof_double))) as M4.
  destruct (memdup h3 yi _) as [pyi h4]. cbn [fst] in M4.
  destruct (is_null pxr); [discriminate |].
  destruct (is_null pxi); [discriminate |].
  destruct (is_null pyr); [discriminate |].
  destruct (is_null pyi); [discriminate |]. cbn [orb].
  rewrite M1, M2, M3, M4 by reflexivity.
  destruct (tr h4 xr xi n) as [[[[[] X_re] X_im] h5] |] eqn:E1; try discriminate.
  destruct (tr h5 yr yi n) as [[[[[] Y_re] Y_im] h6] |] eqn:E2; try discriminate.
  pose proof (pointwise_product_spec n X_re X_im Y_re Y_im) as Hpp.
  destruct (pointwise_product n X_re X_im Y_re Y_im) as [P_re P_im].
  cbn [fst snd] in Hpp.
  destruct (inverse_transform_with tr h6 P_re P_im n)
    as [[[[[] I_re] I_im] h7] |] eqn:E3; try discriminate.
  pose proof (scale_into_spec n I_re I_im outr outi) as Hsc.
  destruct (scale_into n I_re I_im outr outi) as [o_re o_im].
  cbn [fst snd] in Hsc.
  intros E. injection E as -> -> ->.
  split; [eauto 10 |]. intros k Hk.
  destruct (Hsc k ltac:(lia)) as [S1 S2]. rewrite in_range_true in S1, S2 by lia.
  pose proof (inverse_transform_with_idft tr _ _ _ _ _ _ _ Htr E3 k Hk) as HI.
  rewrite (idft_ext n _ (fun j => Cmul (dft n (cplx xr xi) j) (dft n (cplx yr yi) j)))
    in HI.
  - rewrite convolution_theorem in HI by lia.
    assert (Hnz : IZR n <> 0%R) by (apply not_0_IZR; lia).
    unfold cplx in *. rewrite S1, S2.
    destruct (circular_convolution n _ _ k) as [cr ci].
    unfold Cscal in HI. cbn [fst snd] in HI. injection HI as -> ->.
    f_equal; field; exact Hnz.
  - intros j Hj. destruct (Hpp j ltac:(lia)) as [P1 P2].
    rewrite in_range_true in P1, P2 by lia.
    rewrite <- (Htr _ _ _ _ _ _ E1 j Hj), <- (Htr _ _ _ _ _ _ E2 j Hj).
    unfold cplx, Cmul. cbn [fst snd]. rewrite P1, P2. f_equal; ring.
Qed.

End Convolve.

(** ** Bluestein's algorithm *)

Section Bluestein.
Context {dm : DataModel}.

Lemma chirp_even n j : chirp n (- j) = chirp n j.
Proof. unfold chirp. f_equal. ring. Qed.

Lemma Cconj_chirp n j : Cconj (chirp n j) = omega (2 * n) (j * j).
Proof. unfold chirp. rewrite <- omega_neg. f_equal. ring. Qed.

(** The chirp identity: [t k = (t^2 + k^2 - (k - t)^2) / 2]. *)
Lemma chirp_product n t k :
  n <> 0 ->
  Cmul (Cmul (Cconj (chirp n t)) (chirp n (k - t))) (Cconj (chirp n k))
  = omega n (t * k).
Proof.
  intros Hn. rewrite !Cconj_chirp. unfold chirp. rewrite <- !omega_add.
  replace (t * t + - ((k - t) * (k - t)) + k * k) with (2 * (t * k)) by ring.
  apply omega_scale; lia.
Qed.

(** The transform as a convolution with the chirp. *)
Lemma bluestein_identity n m (x a b : Z -> C) k :
  1 <= n -> 2 * n <= m ->
  (forall t, 0 <= t < n -> a t = Cmul (x t) (Cconj (chirp n t))) ->
  (forall t, n <= t < m -> a t = C0) ->
  (forall j, 0 <= j < n -> b j = chirp n j) ->
  (forall j, m - n < j < m -> b j = chirp n (m - j)) ->
  0 <= k < n ->
  Cmul (circular_convolution m a b k) (Cconj (chirp n k)) = dft n x k.
Proof.
  intros Hn Hm Ha Ha0 Hb Hb' Hk. unfold circular_convolution, dft.
  replace (Z.to_nat m) with (Z.to_nat n + Z.to_nat (m - n))%nat by lia.
  rewrite Csum_app.
  rewrite (Csum_ext (Z.to_nat (m - n)) _ (fun _ => C0)).
  2:{ intros t Ht. rewrite Ha0 by lia. ring. }
  rewrite Csum_0.
  transitivity (Csum (Z.to_nat n)
                  (fun t => Cmul (Cmul (a t) (b ((k - t) mod m))) (Cconj (chirp n k)))).
  { rewrite Csum_mul_r. ring. }
  apply Csum_ext. intros t Ht. rewrite Z2Nat.id in Ht by lia.
  rewrite Ha by lia.
  assert (Eb : b ((k - t) mod m) = chirp n (k - t)).
  { destruct (Z_le_gt_dec t k) as [Htk | Htk].
    - rewrite Z.mod_small by lia. apply Hb. lia.
    - replace ((k - t) mod m) with (m - (t - k)).
      + rewrite Hb' by lia. replace (m - (m - (t - k))) with (- (k - t)) by ring.
        apply chirp_even.
      + apply Z.mod_unique with (q := -1); lia. }
  rewrite Eb.
  transitivity (Cmul (x t)
                  (Cmul (Cmul (Cconj (chirp n t)) (chirp n (k - t))) (Cconj (chirp n k))));
    [ring |].
  rewrite chirp_product by lia. ring.
Qed.

(** The trigonometric table of [transform_bluestein] holds the chirp, as
    long as [i * i] fits an [unsigned long long]. *)
Lemma chirp_angle_cis n i :
  1 <= n -> 2 * n < 2 ^ uint_bits -> 0 <= i < n ->
  cis (chirp_angle n i) = chirp n i.
Proof.
  intros Hn Hu Hi. unfold chirp_angle.
  pose proof uint_bits_min. pose proof size_bits_min.
  pose proof ullong_bits_uint. pose proof ullong_bits_size.
  assert (Hu2 : 2 ^ uint_bits * 2 ^ uint_bits <= 2 ^ ullong_bits).
  { rewrite <- Z.pow_add_r by lia. apply Z.pow_le_mono_r; lia. }
  assert (Hus : 2 ^ uint_bits <= 2 ^ size_bits) by (apply Z.pow_le_mono_r; lia).
  assert (Hii : 0 <= i * i < 2 ^ ullong_bits) by nia.
  assert (Hn2 : 0 <= n * 2 < 2 ^ ullong_bits) by nia.
  unfold ullong_wrap. rewrite (Z.mod_small (i * i)), (Z.mod_small (n * 2)) by lia.
  pose proof (Z.mod_pos_bound (i * i) (n * 2) ltac:(lia)) as Hr.
  rewrite size_wrap_small by (unfold SIZE_MAX; lia).
  unfold chirp. rewrite omega_neg, <- omega_mod by lia.
  rewrite (Z.mul_comm 2 n). set (r := (i * i) mod (n * 2)).
  unfold omega. rewrite cis_neg, Cconj_conj. f_equal.
  rewrite mult_IZR. field. apply not_0_IZR. lia.
Qed.

Lemma calloc_some h count size :
  is_null (fst (calloc h count size)) = false ->
  deref (fst (calloc h count size)) = zeros.
Proof. unfold calloc. cbn [fst]. destruct (outcome h _); [reflexivity | discriminate]. Qed.

Lemma transform_bluestein_with_correct (tr : transformer) fuel h real imag n
      real' imag' h' :
  1 <= n -> size_bits <= Z.of_nat fuel ->
  (forall m, bluestein_length fuel n = Some (Some m) ->
             computes_dft tr m /\ succeeds_below_uint tr m) ->
  transform_bluestein_with tr fuel h real imag n = Some (true, real', imag', h') ->
  forall k, 0 <= k < n -> cplx real' imag' k = dft n (cplx real imag) k.
Proof.
  intros Hn Hf Htr. unfold transform_bluestein_with.
  pose proof (bluestein_length_spec fuel n Hn Hf) as Hs.
  destruct (bluestein_length fuel n) as [[m |] |]; try discriminate.
  destruct Hs as (Hnmax & Hpm & [Hm Hmmax] & _).
  destruct (Htr m eq_refl) as [Hdft Hbelow]. clear Htr.
  destruct (_ || _); [discriminate |]. cbv zeta.
  destruct (malloc h _) as [cos_ptr h1]. destruct (malloc h1 _) as [sin_ptr h2].
  pose proof (calloc_some h2 m sizeof_double) as Z1.
  destruct (calloc h2 m sizeof_double) as [pa_re h3]. cbn [fst] in Z1.
  pose proof (calloc_some h3 m sizeof_double) as Z2.
  destruct (calloc h3 m sizeof_double) as [pa_im h4]. cbn [fst] in Z2.
  pose proof (calloc_some h4 m sizeof_double) as Z3.
  destruct (calloc h4 m sizeof_double) as [pb_re h5]. cbn [fst] in Z3.
  pose proof (calloc_some h5 m sizeof_double) as Z4.
  destruct (calloc h5 m sizeof_double) as [pb_im h6]. cbn [fst] in Z4.
  destruct (malloc h6 _) as [pc_re h7]. destruct (malloc h7 _) as [pc_im h8].
  destruct (is_null cos_ptr); [discriminate |].
  destruct (is_null sin_ptr); [discriminate |].
  destruct (is_null pa_re); [discriminate |].
  destruct (is_null pa_im); [discriminate |].
  destruct (is_null pb_re); [discriminate |].
  destruct (is_null pb_im); [discriminate |].
  destruct (is_null pc_re); [discriminate |].
  destruct (is_null pc_im); [discriminate |]. cbn [orb].
  rewrite Z1, Z2, Z3, Z4 by reflexivity.
  pose proof (bluestein_tables_spec n (deref cos_ptr) (deref sin_ptr)) as Ht.
  destruct (bluestein_tables n _ _) as [ct st]. cbn [fst snd] in Ht.
  pose proof (bluestein_a_spec n real imag ct st zeros zeros) as Ha.
  destruct (bluestein_a n real imag ct st zeros zeros) as [a_re a_im].
  cbn [fst snd] in Ha.
  assert (Hm2 : 2 * n <= m) by lia.
  pose proof (bluestein_b_spec n m ct st Hn Hm2) as Hb.
  destruct (bluestein_b n m ct st zeros zeros) as [b_re b_im].
  cbn [fst snd] in Hb.
  destruct (convolve_complex_with tr h8 a_re a_im b_re b_im _ _ m)
    as [[[[[] c_re] c_im] h9] |] eqn:Ec; try discriminate.
  assert (Hm0 : 0 < m) by lia.
  destruct (convolve_complex_with_correct tr _ _ _ _ _ _ _ _ _ _ _ Hm0 Hdft Ec)
    as [(h0 & a0 & b0 & a0' & b0' & h0' & Hin) Hconv].
  pose proof (Hbelow _ _ _ _ _ _ Hin) as Hmu.
  pose proof (bluestein_post_spec n c_re c_im ct st real imag) as Hp.
  destruct (bluestein_post n c_re c_im ct st real imag) as [r_re r_im].
  cbn [fst snd] in Hp.
  intros E. injection E as -> -> ->. intros k Hk.
  assert (Hchirp : forall i, 0 <= i < n -> cplx ct st i = chirp n i).
  { intros i Hi. destruct (Ht i Hi) as [E1 E2].
    unfold cplx. rewrite E1, E2. apply chirp_angle_cis; lia. }
  rewrite <- (bluestein_identity n m (cplx real imag) (cplx a_re a_im)
                (cplx b_re b_im) k Hn Hm2); try exact Hk.
  - rewrite <- Hconv by lia. rewrite <- Hchirp by exact Hk.
    destruct (Hp k ltac:(lia)) as [P1 P2]. rewrite in_range_true in P1, P2 by lia.
    unfold cplx, Cmul, Cconj. cbn [fst snd]. rewrite P1, P2. f_equal; ring.
  - intros t Ht'. destruct (Ha t ltac:(lia)) as [A1 A2].
    rewrite in_range_true in A1, A2 by lia. rewrite <- Hchirp by exact Ht'.
    unfold cplx, Cmul, Cconj. cbn [fst snd]. rewrite A1, A2. f_equal; ring.
  - intros t Ht'. destruct (Ha t ltac:(lia)) as [A1 A2].
    rewrite in_range_false in A1, A2 by lia.
    unfold cplx. rewrite A1, A2. reflexivity.
  - intros j Hj. destruct (Hb j) as [B1 B2]. rewrite <- Hchirp by exact Hj.
    unfold cplx. rewrite B1, B2. unfold two_sided.
    destruct (Z.eqb_spec j 0) as [-> | Hj0]; [reflexivity |].
    destruct (Z.ltb_spec 0 j); destruct (Z.ltb_spec j n); try lia; reflexivity.
  - intros j Hj. destruct (Hb j) as [B1 B2]. rewrite <- Hchirp by lia.
    unfold cplx. rewrite B1, B2. unfold two_sided.
    destruct (Z.eqb_spec j 0) as [-> | Hj0]; [lia |].
    destruct (Z.ltb_spec 0 j); destruct (Z.ltb_spec j n);
      destruct (Z.ltb_spec (m - n) j); destruct (Z.ltb_spec j m);
      try lia; reflexivity.
Qed.

End Bluestein.

(** ** [transform] computes the discrete Fourier transform *)

Section Transform.
Context {dm : DataModel}.

Lemma transform_pow2' f h real imag n :
  pow2 n -> transform (S f) h real imag n = transform_radix2 f h real imag n.
Proof.
  intros Hp. pose proof (pow2_pos n Hp). cbn [transform].
  destruct (Z.eqb_spec n 0); [lia |].
  now rewrite (proj2 (land_pred_pow2_b n ltac:(lia)) Hp).
Qed.

Lemma transform_other f h real imag n :
  1 <= n -> ~ pow2 n ->
  transform (S f) h real imag n =
  transform_bluestein_with (transform f) f h real imag n.
Proof.
  intros Hn Hp. cbn [transform]. destruct (Z.eqb_spec n 0); [lia |].
  destruct (Z.land n (n - 1) =? 0) eqn:E; [| reflexivity].
  apply land_pred_pow2_b in E; [tauto | lia].
Qed.

Lemma pow2_dec n : 1 <= n -> {pow2 n} + {~ pow2 n}.
Proof.
  intros Hn. destruct (Z.land n (n - 1) =? 0) eqn:E.
  - left. now apply land_pred_pow2_b in E.
  - right. intros Hp. apply land_pred_pow2_b in Hp; [congruence | lia].
Qed.

(** On a power of two, with one unit of fuel for the call. *)
Lemma transform_pow2_dft f m :
  pow2 m -> is_size m -> size_bits <= Z.of_nat f ->
  computes_dft (transform (S f)) m /\ succeeds_below_uint (transform (S f)) m.
Proof.
  intros Hp Hm Hf. split; intros h re im re' im' h' E;
    rewrite transform_pow2' in E by exact Hp;
    apply transform_radix2_success in E; tauto.
Qed.

(** On every length. *)
Lemma transform_computes_dft f n :
  is_size n -> size_bits <= Z.of_nat f -> computes_dft (transform (S (S f))) n.
Proof.
  intros Hn Hf h re im re' im' h' E k Hk.
  assert (H1 : 1 <= n) by lia.
  destruct (pow2_dec n H1) as [Hp | Hp].
  - assert (Hf' : size_bits <= Z.of_nat (S f)) by lia.
    destruct (transform_pow2_dft (S f) n Hp Hn Hf') as [Hd _].
    exact (Hd _ _ _ _ _ _ E k Hk).
  - rewrite transform_other in E by assumption.
    assert (Hf' : size_bits <= Z.of_nat (S f)) by lia.
    apply (transform_bluestein_with_correct (transform (S f)) (S f) h re im n
             re' im' h' H1 Hf'); [| exact E | exact Hk].
    intros m Hm.
    pose proof (bluestein_length_spec (S f) n H1 Hf') as Hs. rewrite Hm in Hs.
    destruct Hs as (_ & Hpm & [Hlo Hhi] & _).
    apply transform_pow2_dft; [exact Hpm | | exact Hf].
    unfold is_size. lia.
Qed.

(** *** The real convolution inside the complex one *)

Lemma Csum_real cnt (f : Z -> R) :
  Csum cnt (fun t => RtoC (f t)) = RtoC (Rsum cnt f).
Proof.
  induction cnt as [| c IH]; [reflexivity |].
  cbn [Csum Rsum]. rewrite IH. unfold Cadd, RtoC. cbn [fst snd]. f_equal. ring.
Qed.

Lemma circular_convolution_of_reals n (x y : buf) k :
  circular_convolution n (cplx x zeros) (cplx y zeros) k
  = RtoC (circular_convolution_real n x y k).
Proof.
  unfold circular_convolution, circular_convolution_real.
  rewrite <- Csum_real. apply Csum_ext. intros t _.
  unfold cplx, zeros, Cmul, RtoC. cbn [fst snd]. f_equal; ring.
Qed.

(** *** Totality: with enough fuel every function returns *)

Lemma transform_returns f h real imag n :
  is_size n -> size_bits <= Z.of_nat f ->
  exists o, transform (S (S f)) h real imag n = Some o.
Proof.
  intros Hn Hf.
  destruct (Z.eq_dec n 0) as [-> | Hn0]; [cbn; eauto |].
  assert (H1 : 1 <= n) by (destruct Hn; lia).
  destruct (pow2_dec n H1) as [Hp | Hp].
  - rewrite transform_pow2' by exact Hp.
    apply transform_radix2_total; [exact Hn | lia].
  - rewrite transform_other by assumption.
    apply transform_bluestein_with_total; [lia | lia |].
    intros m h' r i Hm.
    pose proof (bluestein_length_spec (S f) n ltac:(lia) ltac:(lia)) as Hs.
    rewrite Hm in Hs. destruct Hs as (_ & Hpm & Hb & _).
    rewrite transform_pow2' by exact Hpm.
    apply transform_radix2_total; [| exact Hf].
    pose proof (pow2_pos m Hpm). unfold is_size. lia.
Qed.

Lemma convolve_complex_returns f h xr xi yr yi outr outi n :
  is_size n -> size_bits <= Z.of_nat f ->
  exists o, convolve_complex (S (S f)) h xr xi yr yi outr outi n = Some o.
Proof.
  intros Hn Hf. apply convolve_complex_with_total.
  intros. now apply transform_returns.
Qed.

End Transform.

(** ** Success: with memory to spare, moderate lengths are transformed *)

Section Success.
Context {dm : DataModel}.

Lemma malloc_ok h size p h1 :
  generous h -> malloc h size = (p, h1) -> is_null p = false /\ generous h1.
Proof.
  intros Hg E. unfold malloc in E. rewrite Hg in E. injection E as <- <-.
  split; [reflexivity | exact Hg].
Qed.

Lemma calloc_ok h count size p h1 :
  generous h -> calloc h count size = (p, h1) -> is_null p = false /\ generous h1.
Proof.
  intros Hg E. unfold calloc in E. rewrite Hg in E. injection E as <- <-.
  split; [reflexivity | exact Hg].
Qed.

Lemma memdup_ok h src size p h1 :
  generous h -> memdup h src size = (p, h1) -> is_null p = false /\ generous h1.
Proof.
  intros Hg E. unfold memdup in E. rewrite Hg in E. injection E as <- <-.
  split; [reflexivity | exact Hg].
Qed.

Lemma transform_radix2_succeeds fuel n :
  pow2 n -> n < 2 ^ uint_bits -> n <= SIZE_MAX / sizeof_double ->
  size_bits <= Z.of_nat fuel ->
  succeeds_on (transform_radix2 fuel) n.
Proof.
  intros Hp Hu Hmax Hf h re im Hg.
  pose proof (pow2_pos n Hp) as H1.
  assert (Hn : is_size n).
  { unfold is_size. split; [lia |].
    pose proof (Z.mul_div_le SIZE_MAX sizeof_double ltac:(reflexivity)).
    unfold sizeof_double in *. lia. }
  rewrite transform_radix2_eq by assumption.
  rewrite (proj2 (not_power_of_2_false n Hn) (conj Hp Hu)).
  assert (Hhalf : n / 2 <= n) by (apply Z.div_le_upper_bound; lia).
  destruct (Z.ltb_spec (SIZE_MAX / sizeof_double) (n / 2)); [lia |]. cbv zeta.
  destruct (malloc h _) as [cos_ptr h1] eqn:E1.
  destruct (malloc_ok _ _ _ _ Hg E1) as [N1 Hg1].
  destruct (malloc h1 _) as [sin_ptr h2] eqn:E2.
  destruct (malloc_ok _ _ _ _ Hg1 E2) as [N2 Hg2].
  rewrite N1, N2. cbn [orb].
  destruct (radix2_core _ _ _ _ _ _) as [re' im']. eauto 10.
Qed.

Lemma inverse_transform_with_succeeds (tr : transformer) n :
  succeeds_on tr n -> succeeds_on (inverse_transform_with tr) n.
Proof.
  intros Htr h re im Hg. unfold inverse_transform_with.
  destruct (Htr h im re Hg) as (i' & r' & h' & -> & Hg'). eauto 10.
Qed.

Lemma convolve_complex_with_succeeds (tr : transformer) h xr xi yr yi outr outi n :
  succeeds_on tr n -> n <= SIZE_MAX / sizeof_double -> generous h ->
  exists outr' outi' h',
    convolve_complex_with tr h xr xi yr yi outr outi n = Some (true, outr', outi', h')
    /\ generous h'.
Proof.
  intros Htr Hmax Hg. unfold convolve_complex_with.
  destruct (Z.ltb_spec (SIZE_MAX / sizeof_double) n); [lia |]. cbv zeta.
  destruct (memdup h xr _) as [pxr h1] eqn:E1.
  destruct (memdup_ok _ _ _ _ _ Hg E1) as [N1 Hg1].
  destruct (memdup h1 xi _) as [pxi h2] eqn:E2.
  destruct (memdup_ok _ _ _ _ _ Hg1 E2) as [N2 Hg2].
  destruct (memdup h2 yr _) as [pyr h3] eqn:E3.
  destruct (memdup_ok _ _ _ _ _ Hg2 E3) as [N3 Hg3].
  destruct (memdup h3 yi _) as [pyi h4] eqn:E4.
  destruct (memdup_ok _ _ _ _ _ Hg3 E4) as [N4 Hg4].
  rewrite N1, N2, N3, N4. cbn [orb].
  destruct (Htr h4 (deref pxr) (deref pxi) Hg4) as (X_re & X_im & h5 & -> & Hg5).
  destruct (Htr h5 (deref pyr) (deref pyi) Hg5) as (Y_re & Y_im & h6 & -> & Hg6).
  destruct (pointwise_product n X_re X_im Y_re Y_im) as [P_re P_im].
  destruct (inverse_transform_with_succeeds tr n Htr h6 P_re P_im Hg6)
    as (I_re & I_im & h7 & -> & Hg7).
  destruct (scale_into n I_re I_im outr outi) as [o_re o_im]. eauto 10.
Qed.

(** The length Bluestein selects is at most [4 n]. *)
Lemma bluestein_length_le fuel n m :
  1 <= n -> size_bits <= Z.of_nat fuel ->
  bluestein_length fuel n = Some (Some m) -> m <= 4 * n.
Proof.
  intros Hn Hf Hm. pose proof (bluestein_length_spec fuel n Hn Hf) as Hs.
  rewrite Hm in Hs. destruct Hs as (_ & _ & _ & Hleast).
  destruct (Z.log2_spec (2 * n) ltac:(lia)) as [Hlo Hhi].
  pose proof (Z.log2_nonneg (2 * n)).
  specialize (Hleast (2 ^ Z.succ (Z.log2 (2 * n)))).
  rewrite Z.pow_succ_r in * by lia.
  apply Z.le_trans with (2 * 2 ^ Z.log2 (2 * n)); [| lia].
  apply Hleast; [| lia].
  exists (Z.succ (Z.log2 (2 * n))). split; [lia |]. now rewrite Z.pow_succ_r by lia.
Qed.

Lemma bluestein_length_found fuel n :
  1 <= n -> 4 * n <= SIZE_MAX -> size_bits <= Z.of_nat fuel ->
  exists m, bluestein_length fuel n = Some (Some m).
Proof.
  intros Hn Hmax Hf. pose proof (bluestein_length_spec fuel n Hn Hf) as Hs.
  destruct (bluestein_length fuel n) as [[m |] |]; [eauto | | contradiction].
  exfalso. destruct Hs as [Hs | Hs].
  - pose proof (Z.mul_div_le (SIZE_MAX - 1) 2 ltac:(lia)).
    assert ((SIZE_MAX - 1) / 2 < n) by exact Hs.
    assert (SIZE_MAX - 1 < 2 * ((SIZE_MAX - 1) / 2) + 2).
    { pose proof (Z.mod_pos_bound (SIZE_MAX - 1) 2 ltac:(lia)).
      pose proof (Z.div_mod (SIZE_MAX - 1) 2 ltac:(lia)). lia. }
    lia.
  - destruct (Z.log2_spec (2 * n) ltac:(lia)) as [Hlo Hhi].
    pose proof (Z.log2_nonneg (2 * n)).
    specialize (Hs (2 ^ Z.succ (Z.log2 (2 * n)))).
    rewrite Z.pow_succ_r in * by lia.
    assert (SIZE_MAX < 2 * 2 ^ Z.log2 (2 * n)); [| lia].
    apply Hs; [| lia].
    exists (Z.succ (Z.log2 (2 * n))). split; [lia |]. now rewrite Z.pow_succ_r by lia.
Qed.

Lemma transform_bluestein_with_succeeds (tr : transformer) fuel n :
  1 <= n -> 32 * n <= SIZE_MAX -> size_bits <= Z.of_nat fuel ->
  (forall m, bluestein_length fuel n = Some (Some m) -> succeeds_on tr m) ->
  succeeds_on (transform_bluestein_with tr fuel) n.
Proof.
  intros Hn Hmax Hf Htr h re im Hg. unfold transform_bluestein_with.
  destruct (bluestein_length_found fuel n Hn ltac:(lia) Hf) as [m Hm].
  pose proof (bluestein_length_le fuel n m Hn Hf Hm) as Hle.
  rewrite Hm. specialize (Htr m Hm).
  assert (Hdiv : 4 * n <= SIZE_MAX / sizeof_double).
  { apply Z.div_le_lower_bound; unfold sizeof_double; lia. }
  destruct (Z.ltb_spec (SIZE_MAX / sizeof_double) n); [lia |].
  destruct (Z.ltb_spec (SIZE_MAX / sizeof_double) m); [lia |]. cbn [orb]. cbv zeta.
  destruct (malloc h _) as [cos_ptr h1] eqn:E1.
  destruct (malloc_ok _ _ _ _ Hg E1) as [N1 Hg1].
  destruct (malloc h1 _) as [sin_ptr h2] eqn:E2.
  destruct (malloc_ok _ _ _ _ Hg1 E2) as [N2 Hg2].
  destruct (calloc h2 _ _) as [pa_re h3] eqn:E3.
  destruct (calloc_ok _ _ _ _ _ Hg2 E3) as [N3 Hg3].
  destruct (calloc h3 _ _) as [pa_im h4] eqn:E4.
  destruct (calloc_ok _ _ _ _ _ Hg3 E4) as [N4 Hg4].
  destruct (calloc h4 _ _) as [pb_re h5] eqn:E5.
  destruct (calloc_ok _ _ _ _ _ Hg4 E5) as [N5 Hg5].
  destruct (calloc h5 _ _) as [pb_im h6] eqn:E6.
  destruct (calloc_ok _ _ _ _ _ Hg5 E6) as [N6 Hg6].
  destruct (malloc h6 _) as [pc_re h7] eqn:E7.
  destruct (malloc_ok _ _ _ _ Hg6 E7) as [N7 Hg7].
  destruct (malloc h7 _) as [pc_im h8] eqn:E8.
  destruct (malloc_ok _ _ _ _ Hg7 E8) as [N8 Hg8].
  rewrite N1, N2, N3, N4, N5, N6, N7, N8. cbn [orb].
  destruct (bluestein_tables n _ _) as [ct st].
  destruct (bluestein_a n re im ct st _ _) as [a_re a_im].
  destruct (bluestein_b n m ct st _ _) as [b_re b_im].
  destruct (convolve_complex_with_succeeds tr h8 a_re a_im b_re b_im
              (deref pc_re) (deref pc_im) m Htr ltac:(lia) Hg8)
    as (c_re & c_im & h9 & -> & Hg9).
  destruct (bluestein_post n c_re c_im ct st re im) as [r_re r_im]. eauto 10.
Qed.

(** Every length up to [2 ^ uint_bits / 32] is transformed when no
    allocation fails. *)
Lemma transform_succeeds f n :
  0 <= n -> 32 * n < 2 ^ uint_bits -> size_bits <= Z.of_nat f ->
  succeeds_on (transform (S (S f))) n.
Proof.
  intros Hn0 Hu Hf h re im Hg.
  pose proof size_bits_min.
  assert (Hus : 2 ^ uint_bits <= 2 ^ size_bits)
    by (apply Z.pow_le_mono_r; pose proof uint_bits_min; lia).
  assert (Hmax : 32 * n <= SIZE_MAX) by (unfold SIZE_MAX; lia).
  destruct (Z.eq_dec n 0) as [-> | Hnz]; [cbn; eauto 10 |].
  assert (H1 : 1 <= n) by lia.
  assert (Hdiv : forall m, m <= 4 * n -> m <= SIZE_MAX / sizeof_double).
  { intros m Hm. apply Z.div_le_lower_bound; unfold sizeof_double; lia. }
  destruct (pow2_dec n H1) as [Hp | Hp].
  - rewrite transform_pow2' by exact Hp.
    apply transform_radix2_succeeds; auto; try lia; apply Hdiv; lia.
  - rewrite transform_other by assumption.
    apply transform_bluestein_with_succeeds; auto; try lia.
    intros m Hm h0 r0 i0 Hg0.
    pose proof (bluestein_length_spec (S f) n H1 ltac:(lia)) as Hs.
    rewrite Hm in Hs. destruct Hs as (_ & Hpm & _ & _).
    pose proof (bluestein_length_le (S f) n m H1 ltac:(lia) Hm) as Hle.
    rewrite transform_pow2' by exact Hpm.
    apply transform_radix2_succeeds; auto; try lia; apply Hdiv; lia.
Qed.

End Success.

(** ** [fft_2signals] *)

Section Packing.
Context {dm : DataModel}.

(** The transform of the unit impulse is 1 in every bin. *)
Lemma dft_impulse n k : 1 <= n -> dft n (cplx impulse zeros) k = C1.
Proof.
  intros Hn. unfold dft. rewrite (Csum_single _ _ 0).
  - rewrite Z.mul_0_l, omega_0. unfold cplx, impulse, zeros, Cmul, C1.
    cbn [Z.eqb fst snd]. f_equal; ring.
  - lia.
  - intros t _ Ht. unfold cplx, impulse, zeros.
    destruct (Z.eqb_spec t 0); [contradiction |].
    destruct (omega n (t * k)) as [a b]. unfold Cmul, C0. cbn [fst snd].
    f_equal; ring.
Qed.

(** Bin [n/2] of both outputs receives the imaginary part of the packed
    spectrum. *)
Lemma split_spectra_nyquist n X_re X_im out :
  2 <= n ->
  X1_real (split_spectra n X_re X_im out) (n / 2) = X_im (n / 2) /\
  X2_real (split_spectra n X_re X_im out) (n / 2) = X_im (n / 2).
Proof.
  intros Hn. assert (Hh : 1 <= n / 2) by (apply Z.div_le_lower_bound; lia).
  assert (Hh2 : 2 * (n / 2) <= n) by (apply Z.mul_div_le; lia).
  unfold split_spectra.
  apply (for_range_inv
           (fun (_ : Z) (s : spectra) =>
              X1_real s (n / 2) = X_im (n / 2) /\ X2_real s (n / 2) = X_im (n / 2)));
    [exact Hh | |].
  - cbn [X1_real X2_real]. rewrite !upd_same. auto.
  - intros k s Hk [E1 E2]. cbn [X1_real X2_real].
    rewrite !(upd_other _ (n - k)), !(upd_other _ k) by lia. auto.
Qed.

(** [fft_2signals], when it succeeds, has split the transform of the
    packed signal [s1 + i s2]. *)
Lemma fft_2signals_success f h s1 s2 out n X h' :
  is_size n -> size_bits <= Z.of_nat f ->
  fft_2signals (S (S f)) h s1 s2 out n = Some (true, X, h') ->
  exists X_re X_im,
    X = split_spectra n X_re X_im out /\
    forall k, 0 <= k < n -> cplx X_re X_im k = dft n (cplx s1 s2) k.
Proof.
  intros Hn Hf. unfold fft_2signals.
  destruct (malloc h _) as [p1 h1]. destruct (malloc h1 _) as [p2 h2].
  pose proof (pack_signals_spec n s1 s2 (deref p1) (deref p2)) as Hpk.
  destruct (pack_signals n s1 s2 (deref p1) (deref p2)) as [P_re P_im].
  cbn [fst snd] in Hpk.
  destruct (transform (S (S f)) h2 P_re P_im n)
    as [[[[[] X_re] X_im] h3] |] eqn:E; try discriminate.
  intros E'. injection E' as <- <-.
  exists X_re, X_im. split; [reflexivity |]. intros k Hk.
  rewrite (transform_computes_dft f n Hn Hf _ _ _ _ _ _ E k Hk).
  apply dft_ext. intros t Ht. destruct (Hpk t ltac:(lia)) as [E1 E2].
  rewrite in_range_true in E1, E2 by lia. unfold cplx. now rewrite E1, E2.
Qed.

Lemma fft_2signals_succeeds f h s1 s2 out n :
  generous h -> 0 <= n -> 32 * n < 2 ^ uint_bits -> size_bits <= Z.of_nat f ->
  exists X h', fft_2signals (S (S f)) h s1 s2 out n = Some (true, X, h').
Proof.
  intros Hg Hn Hu Hf. unfold fft_2signals.
  destruct (malloc h _) as [p1 h1] eqn:E1.
  destruct (malloc_ok _ _ _ _ Hg E1) as [_ Hg1].
  destruct (malloc h1 _) as [p2 h2] eqn:E2.
  destruct (malloc_ok _ _ _ _ Hg1 E2) as [_ Hg2].
  destruct (pack_signals n s1 s2 (deref p1) (deref p2)) as [P_re P_im].
  destruct (transform_succeeds f n Hn Hu Hf h2 P_re P_im Hg2)
    as (X_re & X_im & h3 & -> & _). eauto.
Qed.

(** *** Every other bin is the bin of the separate transform *)







End Packing.

(** ** The reference transform [naive_dft] *)

(** A loop that adds [f t] and [g t] to two running sums. *)
Lemma for_range_sum2 (f g : Z -> R) n :
  for_range 0 n (fun t '(sr, si) => ((sr + f t)%R, (si + g t)%R)) (0%R, 0%R)
  = Csum (Z.to_nat n) (fun t => (f t, g t)).
Proof.
  unfold for_range. rewrite Z.sub_0_r.
  induction (Z.to_nat n) as [| c IH]; [reflexivity |].
  rewrite for_loop_snoc, IH. cbn [Csum]. rewrite Z.add_0_l, Z.mul_1_r.
  destruct (Csum c (fun t => (f t, g t))) as [a b]. reflexivity.
Qed.

(** A loop that stores at index [i] the two components of [F i]. *)
Lemma for_range_fill_pair (F : Z -> R * R) lo hi (a0 b0 : buf) :
  lo <= hi ->
  forall i,
    cplx (fst (for_range lo hi
                 (fun i '(a, b) => let '(u, v) := F i in (upd a i u, upd b i v))
                 (a0, b0)))
         (snd (for_range lo hi
                 (fun i '(a, b) => let '(u, v) := F i in (upd a i u, upd b i v))
                 (a0, b0))) i
    = if (lo <=? i) && (i <? hi) then F i else cplx a0 b0 i.
Proof.
  intros Hle.
  apply (for_range_inv
           (fun k (s : buf * buf) => forall i,
              cplx (fst s) (snd s) i
              = if (lo <=? i) && (i <? k) then F i else cplx a0 b0 i));
    [exact Hle | |].
  - intros i. cbn [fst snd]. now rewrite in_range_false by lia.
  - intros k [a b] Hk IH i. specialize (IH i). cbn [fst snd] in *.
    destruct (F k) as [u v] eqn:EF. cbn [fst snd]. unfold cplx in *.
    destruct (Z.eq_dec i k) as [-> | Hne].
    + rewrite !upd_same, in_range_true by lia. now rewrite EF.
    + rewrite !upd_other, IH by exact Hne.
      destruct (Z.leb_spec lo i); destruct (Z.ltb_spec i k);
        destruct (Z.ltb_spec i (k + 1)); try lia; reflexivity.
Qed.

Lemma omega_rem n a : n <> 0 -> omega n (Z.rem a n) = omega n a.
Proof.
  intros Hn. pose proof (Z.quot_rem' a n) as E.
  replace (Z.rem a n) with (a + n * - Z.quot a n) by lia.
  now apply omega_period.
Qed.

Lemma cis_forward n r : cis (-2 * PI * IZR r / IZR n) = omega n r.
Proof. unfold omega. f_equal. unfold Rdiv. ring. Qed.

Lemma cis_backward n r : cis (2 * PI * IZR r / IZR n) = omega n (- r).
Proof. unfold omega. f_equal. rewrite opp_IZR. unfold Rdiv. ring. Qed.

(** [naive_dft] computes the transform sum, forward or backward, in the
    bins [0 .. n-1] and leaves the other entries alone. *)
Lemma naive_dft_spec inreal inimag outreal outimag inverse n k :
  0 < n ->
  cplx (fst (naive_dft inreal inimag outreal outimag inverse n))
       (snd (naive_dft inreal inimag outreal outimag inverse n)) k
  = if (0 <=? k) && (k <? n)
    then if inverse =? 0 then dft n (cplx inreal inimag) k
         else idft n (cplx inreal inimag) k
    else cplx outreal outimag k.
Proof.
  intros Hn. unfold naive_dft.
  rewrite (for_range_fill_pair _ 0 n outreal outimag ltac:(lia) k).
  destruct ((0 <=? k) && (k <? n)); [| reflexivity].
  destruct (Z.eqb_spec inverse 0) as [Hi | Hi].
  - rewrite (for_range_sum2
               (fun t => inreal t * cos (-2 * PI * IZR (Z.rem (t * k) n) / IZR n)
                         - inimag t * sin (-2 * PI * IZR (Z.rem (t * k) n) / IZR n))%R
               (fun t => inreal t * sin (-2 * PI * IZR (Z.rem (t * k) n) / IZR n)
                         + inimag t * cos (-2 * PI * IZR (Z.rem (t * k) n) / IZR n))%R).
    unfold dft. apply Csum_ext. intros t _.
    rewrite <- (omega_rem n (t * k)) by lia. rewrite <- cis_forward.
    reflexivity.
  - rewrite (for_range_sum2
               (fun t => inreal t * cos (2 * PI * IZR (Z.rem (t * k) n) / IZR n)
                         - inimag t * sin (2 * PI * IZR (Z.rem (t * k) n) / IZR n))%R
               (fun t => inreal t * sin (2 * PI * IZR (Z.rem (t * k) n) / IZR n)
                         + inimag t * cos (2 * PI * IZR (Z.rem (t * k) n) / IZR n))%R).
    unfold idft. apply Csum_ext. intros t _.
    replace (omega n (- (t * k))) with (omega n (- Z.rem (t * k) n)).
    + rewrite <- cis_backward. reflexivity.
    + rewrite !omega_neg, omega_rem by lia. reflexivity.
Qed.

(** [abs_dft_interval]: entry [j] is [2 |X(start + j)| / n] for the
    transform [X] of the real signal. *)
Lemma abs_dft_interval_spec signal out n start stop j :
  0 < n -> start <= stop ->
  abs_dft_interval signal out n start stop j
  = if (0 <=? j) && (j <? stop - start)
    then (2 * sqrt (Cnorm2 (dft n (cplx signal zeros) (start + j))) / IZR n)%R
    else out j.
Proof.
  intros Hn Hle. unfold abs_dft_interval.
  pose (Inv := fun k (s : Z * buf) =>
                 fst s = k - start /\
                 forall j, snd s j
                   = if (0 <=? j) && (j <? k - start)
                     then (2 * sqrt (Cnorm2 (dft n (cplx signal zeros) (start + j)))
                           / IZR n)%R
                     else out j).
  assert (H : Inv stop
               (for_range start stop
                  (fun k '(coef_idx, out) =>
                     let '(sumreal, sumimag) :=
                       for_range 0 n
                         (fun t '(sr, si) =>
                            let angle :=
                              (-2 * PI * IZR (Z.rem (t * k) n) / IZR n)%R in
                            ((sr + signal t * cos angle)%R,
                             (si + signal t * sin angle)%R))
                         (0%R, 0%R) in
                     (coef_idx + 1,
                      upd out coef_idx
                        (2 * sqrt (sumreal * sumreal + sumimag * sumimag) / IZR n)%R))
                  (0, out))).
  { apply (for_range_inv Inv); unfold Inv; [exact Hle | |].
    - cbn [fst snd]. split; [lia |]. intros i. now rewrite in_range_false by lia.
    - intros k [idx o] Hk [Hidx Ho]. cbn [fst snd] in *. subst idx.
      rewrite (for_range_sum2
                 (fun t => signal t * cos (-2 * PI * IZR (Z.rem (t * k) n) / IZR n))%R
                 (fun t => signal t * sin (-2 * PI * IZR (Z.rem (t * k) n) / IZR n))%R).
      assert (Es : Csum (Z.to_nat n)
                     (fun t => ((signal t * cos (-2 * PI * IZR (Z.rem (t * k) n) / IZR n))%R,
                                (signal t * sin (-2 * PI * IZR (Z.rem (t * k) n) / IZR n))%R))
                   = dft n (cplx signal zeros) k).
      { unfold dft. apply Csum_ext. intros t _.
        rewrite <- (omega_rem n (t * k)) by lia. rewrite <- cis_forward.
        unfold cplx, zeros, Cmul, cis. cbn [fst snd]. f_equal; ring. }
      rewrite Es. destruct (dft n (cplx signal zeros) k) as [sr si] eqn:Ed.
      cbn [fst snd]. split; [lia |]. intros i.
      destruct (Z.eq_dec i (k - start)) as [-> | Hne].
      + rewrite upd_same, in_range_true by lia.
        replace (start + (k - start)) with k by ring. rewrite Ed. reflexivity.
      + rewrite upd_other, Ho by exact Hne.
        destruct (Z.leb_spec 0 i); destruct (Z.ltb_spec i (k - start));
          destruct (Z.ltb_spec i (k + 1 - start)); try lia; reflexivity. }
  destruct H as [_ H]. apply H.
Qed.


(** ** What a failed call leaves behind, and what no call touches *)

Section Untouched.
Context {dm : DataModel}.

Lemma transform_radix2_failure fuel h re im n re' im' h' :
  transform_radix2 fuel h re im n = Some (false, re', im', h') ->
  re' = re /\ im' = im.
Proof.
  unfold transform_radix2.
  destruct (log2_loop fuel n 0) as [levels |]; [| discriminate].
  destruct (not_power_of_2 levels n); [intros E; injection E as <- <- _; auto |].
  destruct (_ <? _); [intros E; injection E as <- <- _; auto |]. cbv zeta.
  destruct (malloc h _) as [cos_ptr h1]. destruct (malloc h1 _) as [sin_ptr h2].
  destruct (_ || _); [intros E; injection E as <- <- _; auto |].
  destruct (radix2_tables n _ _) as [ct st].
  destruct (bit_reverse_pass levels n re im) as [re1 im1].
  destruct (stages_loop fuel n 2 ct st re1 im1) as [[re2 im2] |]; discriminate.
Qed.

Lemma transform_bluestein_with_failure (tr : transformer) fuel h re im n re' im' h' :
  transform_bluestein_with tr fuel h re im n = Some (false, re', im', h') ->
  re' = re /\ im' = im.
Proof.
  unfold transform_bluestein_with.
  destruct (bluestein_length fuel n) as [[m |] |];
    [| intros E; injection E as <- <- _; auto | discriminate].
  destruct (_ || _); [intros E; injection E as <- <- _; auto |]. cbv zeta.
  repeat match goal with
         | |- context [malloc ?h ?s] => destruct (malloc h s) as [? ?]
         | |- context [calloc ?h ?c ?s] => destruct (calloc h c s) as [? ?]
         end.
  destruct (_ || _); [intros E; injection E as <- <- _; auto |].
  destruct (bluestein_tables _ _ _) as [ct st].
  destruct (bluestein_a _ _ _ _ _ _ _) as [ar ai].
  destruct (bluestein_b _ _ _ _ _ _) as [br bi].
  destruct (convolve_complex_with _ _ _ _ _ _ _ _ _) as [[[[[] cr] ci] hc] |];
    [| intros E; injection E as <- <- _; auto | discriminate].
  destruct (bluestein_post _ _ _ _ _ _ _). discriminate.
Qed.

Lemma transform_failure fuel h re im n re' im' h' :
  transform fuel h re im n = Some (false, re', im', h') ->
  re' = re /\ im' = im.
Proof.
  destruct fuel as [| f]; [discriminate |]. cbn [transform].
  destruct (n =? 0); [discriminate |].
  destruct (Z.land n (n - 1) =? 0).
  - apply transform_radix2_failure.
  - apply transform_bluestein_with_failure.
Qed.

Lemma convolve_complex_with_failure (tr : transformer)
      h xr xi yr yi outr outi n outr' outi' h' :
  convolve_complex_with tr h xr xi yr yi outr outi n
  = Some (false, outr', outi', h') ->
  outr' = outr /\ outi' = outi.
Proof.
  unfold convolve_complex_with.
  destruct (_ <? _); [intros E; injection E as <- <- _; auto |]. cbv zeta.
  repeat match goal with
         | |- context [memdup ?h ?b ?s] => destruct (memdup h b s) as [? ?]
         end.
  destruct (_ || _); [intros E; injection E as <- <- _; auto |].
  destruct (tr _ _ _ n) as [[[[[] a1] b1] ha] |];
    [| intros E; injection E as <- <- _; auto | discriminate].
  destruct (tr _ _ _ n) as [[[[[] a2] b2] hb] |];
    [| intros E; injection E as <- <- _; auto | discriminate].
  destruct (pointwise_product n a1 b1 a2 b2) as [pr pi].
  destruct (inverse_transform_with tr hb pr pi n) as [[[[[] a3] b3] hc] |];
    [| intros E; injection E as <- <- _; auto | discriminate].
  destruct (scale_into n a3 b3 outr outi). discriminate.
Qed.

(** *** Entries outside [0 .. n-1] *)

Lemma bit_reverse_pass_outside w real imag :
  0 <= w <= size_bits ->
  same_outside (2 ^ w) real (fst (bit_reverse_pass w (2 ^ w) real imag)) /\
  same_outside (2 ^ w) imag (snd (bit_reverse_pass w (2 ^ w) real imag)).
Proof.
  intros Hw. unfold bit_reverse_pass.
  assert (H0 : 0 <= 2 ^ w) by (apply Z.pow_nonneg; lia).
  apply (for_range_inv
           (fun (_ : Z) (s : buf * buf) =>
              same_outside (2 ^ w) real (fst s) /\ same_outside (2 ^ w) imag (snd s)));
    [exact H0 | |].
  - split; intros p _; reflexivity.
  - intros i [re im] Hi [Hre Him]. cbn [fst snd] in *.
    pose proof (reverse_bits_bound i w Hw) as Hj.
    destruct (i <? reverse_bits i w); [| split; assumption].
    cbn [fst snd]. split; intros p Hp; rewrite !upd_other by lia; auto.
Qed.

Lemma stage_outside half blocks ct st re im :
  0 < half -> 0 <= blocks ->
  forall p, ~ 0 <= p < 2 * half * blocks ->
    cplx (fst (stage (2 * half * blocks) (2 * half) ct st re im))
         (snd (stage (2 * half * blocks) (2 * half) ct st re im)) p
    = cplx re im p.
Proof.
  intros Hh Hb. set (n := 2 * half * blocks). set (size := 2 * half).
  assert (Hhalf : size / 2 = half).
  { unfold size. rewrite Z.mul_comm. apply Z.div_mul. lia. }
  assert (Hcnt : (n + size - 1) / size = blocks).
  { unfold n. fold size.
    replace (size * blocks + size - 1) with ((size - 1) + blocks * size) by ring.
    rewrite Z.div_add by lia. rewrite Z.div_small by lia. lia. }
  pose (Inv := fun (b0 : nat) (s : buf * buf) =>
                 forall p, ~ 0 <= p < n ->
                   cplx (fst s) (snd s) p = cplx re im p).
  assert (Hinv : Inv (Z.to_nat blocks) (stage n size ct st re im)).
  { unfold stage, for_stride. rewrite Hcnt, Hhalf.
    apply (for_loop_inv Inv); unfold Inv.
    - intros p _. reflexivity.
    - intros b0 [re1 im1] Hb0 IH p Hp. cbn [fst snd] in IH.
      rewrite Z.add_0_l. set (i := Z.of_nat b0 * size) in *.
      pose proof (butterflies_spec half (n / size) ct st i re1 im1 Hh) as Hs.
      destruct (for_range i (i + half) (butterfly half (n / size) ct st) (0, re1, im1))
        as [[k re2] im2].
      cbn [fst snd]. rewrite Hs.
      assert (Hi : 0 <= i /\ i + size <= n).
      { unfold i, n. fold size. split; [nia |].
        replace (size * blocks) with (blocks * size) by ring.
        assert (Z.of_nat b0 + 1 <= blocks) by lia. nia. }
      rewrite !in_range_false by (unfold size in *; lia). now apply IH. }
  exact Hinv.
Qed.

Lemma stages_iter_outside L ct st cnt : forall l re im,
  0 <= l -> l + Z.of_nat cnt <= L ->
  forall p, ~ 0 <= p < 2 ^ L ->
    cplx (fst (stages_iter cnt (2 ^ L) (2 ^ (l + 1)) ct st re im))
         (snd (stages_iter cnt (2 ^ L) (2 ^ (l + 1)) ct st re im)) p
    = cplx re im p.
Proof.
  induction cnt as [| cnt IH]; intros l re im Hl HlL p Hp; [reflexivity |].
  cbn [stages_iter].
  assert (Hs : 0 < 2 ^ l) by (apply Z.pow_pos_nonneg; lia).
  assert (Hn : 2 ^ L = 2 * 2 ^ l * 2 ^ (L - l - 1)).
  { replace L with (1 + l + (L - l - 1)) at 1 by lia.
    rewrite !Z.pow_add_r by lia. reflexivity. }
  assert (H2s : 2 ^ (l + 1) = 2 * 2 ^ l) by (rewrite Z.pow_add_r; lia).
  assert (Hbl : 0 <= 2 ^ (L - l - 1)) by (apply Z.pow_nonneg; lia).
  pose proof (stage_outside (2 ^ l) (2 ^ (L - l - 1)) ct st re im Hs Hbl) as Hst.
  rewrite <- Hn, <- H2s in Hst. specialize (Hst p Hp).
  destruct (stage (2 ^ L) (2 ^ (l + 1)) ct st re im) as [re' im'].
  cbn [fst snd] in Hst.
  replace (2 ^ (l + 1) * 2) with (2 ^ (l + 1 + 1))
    by (rewrite (Z.pow_add_r _ (l + 1)); lia).
  rewrite IH by lia. exact Hst.
Qed.

Lemma cplx_eq (a b c d : buf) p :
  cplx a b p = cplx c d p -> a p = c p /\ b p = d p.
Proof. unfold cplx. intros E. injection E as -> ->. auto. Qed.

Lemma transform_radix2_outside fuel h re im n s re' im' h' :
  is_size n -> size_bits <= Z.of_nat fuel ->
  transform_radix2 fuel h re im n = Some (s, re', im', h') ->
  same_outside n re re' /\ same_outside n im im'.
Proof.
  intros Hn Hf. rewrite transform_radix2_eq by assumption.
  assert (Hsame : forall h0 : heap,
             Some (false, re, im, h0) = Some (s, re', im', h')
             -> same_outside n re re' /\ same_outside n im im').
  { intros h0 E. injection E as _ <- <- _. split; intros p _; reflexivity. }
  destruct (not_power_of_2 (Z.log2 n) n) eqn:Hp; [apply Hsame |].
  apply not_power_of_2_false in Hp; [| exact Hn]. destruct Hp as [Hp Hlt].
  destruct (_ <? _); [apply Hsame |]. cbv zeta.
  destruct (malloc h _) as [cos_ptr h1]. destruct (malloc h1 _) as [sin_ptr h2].
  destruct (_ || _); [apply Hsame |].
  pose proof (log2_lt_size_bits n Hn). pose proof (Z.log2_nonneg n).
  pose proof (pow2_log2 n Hp) as En.
  assert (HL : 0 <= Z.log2 n <= size_bits) by lia.
  unfold radix2_core.
  destruct (radix2_tables n _ _) as [ct st].
  destruct (bit_reverse_pass_outside (Z.log2 n) re im HL) as [Hr Hi].
  rewrite <- En in Hr, Hi.
  destruct (bit_reverse_pass (Z.log2 n) n re im) as [re1 im1]. cbn [fst snd] in *.
  assert (Hst : forall p, ~ 0 <= p < n ->
             cplx (fst (stages_iter (Z.to_nat (Z.log2 n)) n 2 ct st re1 im1))
                  (snd (stages_iter (Z.to_nat (Z.log2 n)) n 2 ct st re1 im1)) p
             = cplx re1 im1 p).
  { intros p Hp'. rewrite En in Hp' |- * at 1.
    pose proof (stages_iter_outside (Z.log2 n) ct st (Z.to_nat (Z.log2 n)) 0 re1 im1
                  (Z.le_refl 0) ltac:(lia) p Hp') as Hx.
    change (2 ^ (0 + 1)) with 2 in Hx. rewrite <- En in Hx. rewrite <- En. exact Hx. }
  destruct (stages_iter _ n 2 ct st re1 im1) as [re2 im2]. cbn [fst snd] in Hst.
  intros E. injection E as _ <- <- _.
  split; intros p Hp'; destruct (cplx_eq _ _ _ _ p (Hst p Hp')) as [E1 E2].
  - rewrite E1. now apply Hr.
  - rewrite E2. now apply Hi.
Qed.

Lemma transform_bluestein_with_outside (tr : transformer) fuel h re im n s re' im' h' :
  transform_bluestein_with tr fuel h re im n = Some (s, re', im', h') ->
  0 <= n -> same_outside n re re' /\ same_outside n im im'.
Proof.
  intros E Hn. destruct s.
  - revert E. unfold transform_bluestein_with.
    destruct (bluestein_length fuel n) as [[m |] |]; try discriminate.
    destruct (_ || _); [discriminate |]. cbv zeta.
    repeat match goal with
           | |- context [malloc ?h ?s] => destruct (malloc h s) as [? ?]
           | |- context [calloc ?h ?c ?s] => destruct (calloc h c s) as [? ?]
           end.
    destruct (_ || _); [discriminate |].
    destruct (bluestein_tables _ _ _) as [ct st].
    destruct (bluestein_a _ _ _ _ _ _ _) as [ar ai].
    destruct (bluestein_b _ _ _ _ _ _) as [br bi].
    destruct (convolve_complex_with _ _ _ _ _ _ _ _ _) as [[[[[] cr] ci] hc] |];
      try discriminate.
    pose proof (bluestein_post_spec n cr ci ct st re im) as Hp.
    destruct (bluestein_post n cr ci ct st re im) as [r_re r_im].
    cbn [fst snd] in Hp. intros E. injection E as <- <- _.
    split; intros p Hp'; destruct (Hp p Hn) as [E1 E2];
      rewrite in_range_false in E1, E2 by lia; assumption.
  - apply transform_bluestein_with_failure in E. destruct E as [-> ->].
    split; intros p _; reflexivity.
Qed.

Lemma transform_outside f h re im n s re' im' h' :
  is_size n -> size_bits <= Z.of_nat f ->
  transform (S (S f)) h re im n = Some (s, re', im', h') ->
  same_outside n re re' /\ same_outside n im im'.
Proof.
  intros Hn Hf E.
  destruct (Z.eq_dec n 0) as [-> | Hn0].
  - cbn in E. injection E as _ <- <- _. split; intros p _; reflexivity.
  - assert (H1 : 1 <= n) by (destruct Hn; lia).
    destruct (pow2_dec n H1) as [Hp | Hp].
    + rewrite transform_pow2' in E by exact Hp.
      apply (transform_radix2_outside (S f) h re im n s re' im' h' Hn); [lia | exact E].
    + rewrite transform_other in E by assumption.
      apply (transform_bluestein_with_outside _ _ _ _ _ _ _ _ _ _ E). lia.
Qed.

End Untouched.

(** ** Further facts about the transforms and the convolution *)


Lemma Cscal_cancel r a b : r <> 0%R -> Cscal r a = Cscal r b -> a = b.
Proof.
  intros Hr E. destruct a as [a1 a2], b as [b1 b2]. unfold Cscal in E.
  cbn [fst snd] in E. injection E as E1 E2.
  apply Rmult_eq_reg_l in E1, E2; try exact Hr. now subst.
Qed.

(** The circular convolution is commutative. *)
Lemma circular_convolution_comm n (x y : Z -> C) k :
  0 < n -> 0 <= k < n ->
  circular_convolution n x y k = circular_convolution n y x k.
Proof.
  intros Hn Hk. apply (Cscal_cancel (IZR n)); [apply not_0_IZR; lia |].
  rewrite <- !convolution_theorem by assumption.
  apply idft_ext. intros t _. ring.
Qed.


Section Algebra.
Context {dm : DataModel}.


Lemma pow2_1 : pow2 1.
Proof. exists 0. split; [lia | reflexivity]. Qed.

(** [transform] on a single sample. *)
Lemma transform_length_1 f h re im :
  size_bits <= Z.of_nat f ->
  transform (S (S f)) h re im 1 =
  Some (outcome h (length (served h)) && outcome h (S (length (served h))),
        re, im, mkHeap (0 :: 0 :: served h) (outcome h) (garbage h)).
Proof.
  intros Hf.
  assert (Hn : is_size 1) by (pose proof SIZE_MAX_half; unfold is_size, SIZE_MAX;
                              pose proof size_bits_pos;
                              assert (2 ^ 16 <= 2 ^ size_bits)
                                by (apply Z.pow_le_mono_r; lia); lia).
  rewrite transform_pow2' by exact pow2_1.
  rewrite transform_radix2_eq by (auto; lia).
  assert (Hu : 1 < 2 ^ uint_bits).
  { pose proof uint_bits_min.
    assert (2 ^ 16 <= 2 ^ uint_bits) by (apply Z.pow_le_mono_r; lia). lia. }
  rewrite (proj2 (not_power_of_2_false 1 Hn) (conj pow2_1 Hu)).
  change (1 / 2) with 0.
  assert (Hg : 0 <= SIZE_MAX / sizeof_double).
  { apply Z.div_pos; [destruct Hn; lia | reflexivity]. }
  destruct (Z.ltb_spec (SIZE_MAX / sizeof_double) 0); [lia |].
  cbv zeta. change (0 * sizeof_double) with 0.
  replace (size_wrap 0) with 0 by (unfold size_wrap; now rewrite Z.mod_0_l
                                     by (apply Z.pow_nonzero; pose proof size_bits_pos; lia)).
  unfold malloc. cbn [served outcome garbage length].
  destruct (outcome h (length (served h))); destruct (outcome h (S (length (served h))));
    reflexivity.
Qed.

End Algebra.

(** ** The magnitude spectra *)

(** A loop that stores [f i] at index [i]. *)
Lemma for_range_fill1 (f : Z -> R) lo hi (a0 : buf) :
  lo <= hi ->
  forall i,
    for_range lo hi (fun i a => upd a i (f i)) a0 i
    = if (lo <=? i) && (i <? hi) then f i else a0 i.
Proof.
  intros Hle.
  apply (for_range_inv
           (fun k (s : buf) => forall i,
              s i = if (lo <=? i) && (i <? k) then f i else a0 i));
    [exact Hle | |].
  - intros i. now rewrite in_range_false by lia.
  - intros k a Hk IH i. destruct (Z.eq_dec i k) as [-> | Hne].
    + now rewrite upd_same, in_range_true by lia.
    + rewrite upd_other, IH by exact Hne.
      destruct (Z.leb_spec lo i); destruct (Z.ltb_spec i k);
        destruct (Z.ltb_spec i (k + 1)); try lia; reflexivity.
Qed.

Lemma allocs_succeed_malloc h size k :
  allocs_succeed h (S k) ->
  fst (malloc h size) = Some (garbage h (length (served h))) /\
  allocs_succeed (snd (malloc h size)) k.
Proof.
  intros Ha. unfold malloc. cbn [fst snd].
  pose proof (Ha O ltac:(lia)) as H0. rewrite Nat.add_0_r in H0. rewrite H0.
  split; [reflexivity |]. intros i Hi. cbn [served outcome length].
  replace (S (length (served h)) + i)%nat with (length (served h) + S i)%nat by lia.
  apply Ha. lia.
Qed.

Lemma allocs_succeed_memdup h src size k :
  allocs_succeed h (S k) ->
  fst (memdup h src size) = Some src /\
  allocs_succeed (snd (memdup h src size)) k.
Proof.
  intros Ha. unfold memdup. cbn [fst snd].
  pose proof (Ha O ltac:(lia)) as H0. rewrite Nat.add_0_r in H0. rewrite H0.
  split; [reflexivity |]. intros i Hi. cbn [served outcome length].
  replace (S (length (served h)) + i)%nat with (length (served h) + S i)%nat by lia.
  apply Ha. lia.
Qed.

Lemma generous_allocs_succeed h k : generous h -> allocs_succeed h k.
Proof. intros Hg i _. apply Hg. Qed.

Section Abs.
Context {dm : DataModel}.

Lemma to_int_small z : 0 <= z < 2 ^ (uint_bits - 1) -> to_int z = z.
Proof.
  intros Hz. unfold to_int. pose proof uint_bits_min.
  assert (H2 : 2 ^ uint_bits = 2 * 2 ^ (uint_bits - 1)).
  { rewrite <- Z.pow_succ_r by lia. f_equal. lia. }
  rewrite uint_wrap_small by lia.
  destruct (Z.ltb_spec z (2 ^ (uint_bits - 1))); [reflexivity | lia].
Qed.

Lemma zero_reals_spec h n :
  allocs_succeed h 1 ->
  exists b, fst (zero_reals h n) = Some b /\
            (forall i, 0 <= i < n -> b i = 0%R) /\
            snd (zero_reals h n) = snd (malloc h (size_wrap (n * sizeof_double))).
Proof.
  intros Ha. unfold zero_reals.
  destruct (allocs_succeed_malloc h (size_wrap (n * sizeof_double)) 0 Ha) as [E _].
  destruct (malloc h _) as [p h1]. cbn [fst snd] in *. subst p.
  eexists. split; [reflexivity |]. split; [| reflexivity].
  intros i Hi. destruct (Z_le_gt_dec 0 n) as [Hn | Hn]; [| lia].
  rewrite (for_range_fill1 (fun _ => 0%R) 0 n _ Hn i).
  now rewrite in_range_true by lia.
Qed.

Lemma half_plus_one_le n : 1 <= n -> 0 <= n / 2 /\ n / 2 + 1 <= n.
Proof.
  intros Hn. pose proof (Z.div_pos n 2 ltac:(lia) ltac:(lia)).
  pose proof (Z.mul_div_le n 2 ltac:(lia)).
  destruct (Z.eq_dec n 1) as [-> | Hne]; [cbn; lia |].
  split; [lia |]. assert (n / 2 < n) by (apply Z.div_lt_upper_bound; lia). lia.
Qed.

(** [abs_fft]: on success the first [n/2 + 1] entries are [2 |X(i)| / n]
    for the transform [X] of the real signal, and the rest is left alone. *)
Lemma abs_fft_spec f h signal out n s out' h' :
  is_size n -> 1 <= n < 2 ^ (uint_bits - 1) -> size_bits <= Z.of_nat f ->
  allocs_succeed h 2 ->
  abs_fft (S (S f)) h signal out n = Some (s, out', h') ->
  if s
  then forall i,
      out' i = if (0 <=? i) && (i <? n / 2 + 1)
               then (2 * (sqrt (Cnorm2 (dft n (cplx signal zeros) i)) / IZR n))%R
               else out i
  else out' = out.
Proof.
  intros Hn Hr Hf Ha. unfold abs_fft.
  destruct (half_plus_one_le n ltac:(lia)) as [Hh0 Hh].
  rewrite (to_int_small (n / 2 + 1)), (to_int_small n) by lia.
  destruct (allocs_succeed_memdup h signal (size_wrap (n * sizeof_double)) 1 Ha)
    as [E1 Ha1].
  destruct (memdup h signal _) as [p1 h1]. cbn [fst snd] in *. subst p1.
  destruct (zero_reals_spec h1 n Ha1) as (zb & E2 & Hz & _).
  destruct (zero_reals h1 n) as [p2 h2]. cbn [fst] in E2. subst p2. cbn [deref].
  destruct (transform (S (S f)) h2 signal zb n) as [[[[[] re] im] h3] |] eqn:Et;
    try discriminate.
  - intros E. injection E as <- <- _. intros i.
    rewrite (for_range_fill1
               (fun i => 2 * (sqrt (re i * re i + im i * im i) / IZR n))%R
               0 (n / 2 + 1) out ltac:(lia) i).
    destruct (Z.leb_spec 0 i); destruct (Z.ltb_spec i (n / 2 + 1)); cbn [andb];
      try reflexivity.
    pose proof (transform_computes_dft f n Hn Hf _ _ _ _ _ _ Et i ltac:(lia)) as Hd.
    rewrite (dft_ext n _ (cplx signal zeros)) in Hd.
    + rewrite <- Hd. reflexivity.
    + intros t Ht. unfold cplx, zeros. now rewrite Hz.
  - intros E. injection E as <- <- _. reflexivity.
Qed.




Lemma abs_fft_returns f h signal out n :
  is_size n -> size_bits <= Z.of_nat f ->
  exists o, abs_fft (S (S f)) h signal out n = Some o.
Proof.
  intros Hn Hf. unfold abs_fft.
  destruct (memdup h signal _) as [p1 h1]. destruct (zero_reals h1 _) as [p2 h2].
  destruct (transform_returns f h2 (deref p1) (deref p2) n Hn Hf)
    as ([[[[] re] im] h3] & E); rewrite E; eauto.
Qed.






End Abs.

(** * The claims *)

Lemma three_not_pow2 : ~ pow2 3.
Proof. intros Hp. apply land_pred_pow2 in Hp; [discriminate | lia]. Qed.

Lemma is_size_LP64 n : 0 <= n < 2 ^ 64 -> is_size (dm := LP64) n.
Proof. unfold is_size, SIZE_MAX. cbn. lia. Qed.

Lemma generous_all_succeed : generous all_succeed.
Proof. intros k. reflexivity. Qed.

Section Claims.
Context {dm : DataModel}.

(** ** C1: the packed transform of two real signals *)

(** Both [X1_real[n/2]] and [X2_real[n/2]] are assigned [X_imag[n/2]], the
    bin [n/2] of the second signal's spectrum: the first signal's bin is
    lost. *)
Lemma fft_2signals_nyquist_shared f h s1 s2 out n X h' :
  is_size n -> 2 <= n -> size_bits <= Z.of_nat f ->
  fft_2signals (S (S f)) h s1 s2 out n = Some (true, X, h') ->
  X1_real X (n / 2) = snd (dft n (cplx s1 s2) (n / 2)) /\
  X2_real X (n / 2) = snd (dft n (cplx s1 s2) (n / 2)).
Proof.
  intros Hn H2 Hf E.
  destruct (fft_2signals_success f h s1 s2 out n X h' Hn Hf E)
    as (X_re & X_im & -> & Hd).
  assert (Hh : 0 <= n / 2 < n).
  { split; [apply Z.div_pos; lia | apply Z.div_lt_upper_bound; lia]. }
  destruct (split_spectra_nyquist n X_re X_im out H2) as [-> ->].
  rewrite <- (Hd (n / 2) Hh). auto.
Qed.

End Claims.

(** C1.  On the LP64 data model, for [n = 2], [signal_1 = [1, 0]] and
    [signal_2 = [0, 0]], both [fft_2signals] and [transform] succeed;
    [transform] leaves 1 in the real part of bin 1 of the spectrum of
    [signal_1], and [fft_2signals] leaves 0 in [X1_real[1]]. *)
Theorem fft_2signals_nyquist_bin_wrong :
  exists X h1 re im h2,
    fft_2signals (dm := LP64) 66 all_succeed impulse zeros no_spectra 2
    = Some (true, X, h1) /\
    transform (dm := LP64) 66 all_succeed impulse zeros 2
    = Some (true, re, im, h2) /\
    re 1 = 1%R /\ X1_real X 1 = 0%R.
Proof.
  assert (Hn : is_size (dm := LP64) 2) by (apply is_size_LP64; lia).
  assert (Hf : size_bits (DataModel := LP64) <= Z.of_nat 64) by (cbn; lia).
  assert (Hu : 32 * 2 < 2 ^ uint_bits (DataModel := LP64)) by (cbn; lia).
  destruct (fft_2signals_succeeds (dm := LP64) 64 all_succeed impulse zeros
              no_spectra 2 generous_all_succeed ltac:(lia) Hu Hf) as (X & h1 & EX).
  destruct (transform_succeeds (dm := LP64) 64 2 ltac:(lia) Hu Hf
              all_succeed impulse zeros generous_all_succeed)
    as (re & im & h2 & ET & _).
  exists X, h1, re, im, h2. split; [exact EX |]. split; [exact ET |]. split.
  - pose proof (transform_computes_dft (dm := LP64) 64 2 Hn Hf _ _ _ _ _ _ ET 1
                  ltac:(lia)) as Hd.
    rewrite dft_impulse in Hd by lia. unfold cplx, C1 in Hd. congruence.
  - destruct (fft_2signals_nyquist_shared (dm := LP64) 64 _ _ _ _ 2 X h1 Hn
                ltac:(lia) Hf EX) as [E1 _].
    change (2 / 2) with 1 in E1. rewrite E1.
    assert (Hsum : dft 2 (cplx impulse zeros) 1 = C1) by (apply dft_impulse; lia).
    rewrite Hsum. reflexivity.
Qed.

Section Claims2.
Context {dm : DataModel}.

(** ** C2: the round trip *)

Lemma round_trip_values f h real imag n X_re X_im h1 y_re y_im h2 :
  is_size n -> 1 <= n -> size_bits <= Z.of_nat f ->
  transform (S (S f)) h real imag n = Some (true, X_re, X_im, h1) ->
  inverse_transform (S (S f)) h1 X_re X_im n = Some (true, y_re, y_im, h2) ->
  forall k, 0 <= k < n ->
    (y_re k / IZR n)%R = real k /\ (y_im k / IZR n)%R = imag k.
Proof.
  intros Hn H1 Hf E E' k Hk.
  pose proof (transform_computes_dft f n Hn Hf) as Hd.
  pose proof (inverse_transform_with_idft _ _ _ _ _ _ _ _ Hd E' k Hk) as Hi.
  rewrite (idft_ext n _ (dft n (cplx real imag))) in Hi
    by (intros t Ht; exact (Hd _ _ _ _ _ _ E t Ht)).
  rewrite idft_dft in Hi by lia.
  assert (Hnz : IZR n <> 0%R) by (apply not_0_IZR; lia).
  unfold cplx, Cscal in Hi. cbn [fst snd] in Hi. injection Hi as -> ->.
  split; field; exact Hnz.
Qed.

(** C2.  For every length [n >= 1]: [transform] returns; if it succeeds,
    [inverse_transform] on its result returns; and if that succeeds too,
    every sample divided by [n] is the sample the signal started with.
    Both do succeed when no allocation fails and [32 n < 2 ^ uint_bits]. *)
Theorem round_trip (f : nat) (h : heap) (real imag : buf) (n : Z) :
  is_size n -> 1 <= n -> size_bits <= Z.of_nat f ->
  match transform (S (S f)) h real imag n with
  | None => False
  | Some (false, _, _, _) => True
  | Some (true, X_re, X_im, h1) =>
      match inverse_transform (S (S f)) h1 X_re X_im n with
      | None => False
      | Some (false, _, _, _) => True
      | Some (true, y_re, y_im, _) =>
          forall k, 0 <= k < n ->
            (y_re k / IZR n)%R = real k /\ (y_im k / IZR n)%R = imag k
      end
  end /\
  (generous h -> 32 * n < 2 ^ uint_bits ->
   exists X_re X_im h1 y_re y_im h2,
     transform (S (S f)) h real imag n = Some (true, X_re, X_im, h1) /\
     inverse_transform (S (S f)) h1 X_re X_im n = Some (true, y_re, y_im, h2) /\
     forall k, 0 <= k < n ->
       (y_re k / IZR n)%R = real k /\ (y_im k / IZR n)%R = imag k).
Proof.
  intros Hn H1 Hf. split.
  - destruct (transform_returns f h real imag n Hn Hf) as ([[[s X_re] X_im] h1] & E).
    rewrite E. destruct s; [| exact I].
    assert (Hr : forall h0 r i, exists o, transform (S (S f)) h0 r i n = Some o)
      by (intros; now apply transform_returns).
    destruct (inverse_transform_with_total (transform (S (S f))) h1 X_re X_im n Hr)
      as ([[[s' y_re] y_im] h2] & E').
    unfold inverse_transform. rewrite E'. destruct s'; [| exact I].
    now apply (round_trip_values f h real imag n X_re X_im h1 y_re y_im h2).
  - intros Hg Hu.
    pose proof (transform_succeeds f n ltac:(lia) Hu Hf) as Hs.
    destruct (Hs h real imag Hg) as (X_re & X_im & h1 & E & Hg1).
    destruct (inverse_transform_with_succeeds _ n Hs h1 X_re X_im Hg1)
      as (y_re & y_im & h2 & E' & _).
    exists X_re, X_im, h1, y_re, y_im, h2. split; [exact E |]. split; [exact E' |].
    now apply (round_trip_values f h real imag n X_re X_im h1 y_re y_im h2).
Qed.

(** ** C3: the convolutions *)

Lemma convolve_real_unfold f h x y out n :
  convolve_real (S (S f)) h x y out n =
  let '(ximag, h1) := calloc h n sizeof_double in
  let '(yimag, h2) := calloc h1 n sizeof_double in
  let '(zimag, h3) := calloc h2 n sizeof_double in
  if is_null ximag || is_null yimag || is_null zimag then Some (false, out, h3)
  else
    match convolve_complex (S (S f)) h3 x zeros y zeros out zeros n with
    | None => None
    | Some (status, out, _, h) => Some (status, out, h)
    end.
Proof.
  unfold convolve_real.
  pose proof (calloc_some h n sizeof_double) as Z1.
  destruct (calloc h n sizeof_double) as [px h1]. cbn [fst] in Z1.
  pose proof (calloc_some h1 n sizeof_double) as Z2.
  destruct (calloc h1 n sizeof_double) as [py h2]. cbn [fst] in Z2.
  pose proof (calloc_some h2 n sizeof_double) as Z3.
  destruct (calloc h2 n sizeof_double) as [pz h3]. cbn [fst] in Z3.
  destruct (is_null px); [reflexivity |]. destruct (is_null py); [reflexivity |].
  destruct (is_null pz); [reflexivity |]. cbn [orb].
  now rewrite Z1, Z2, Z3.
Qed.

(** C3.  For every length [n >= 1], power of two or not: [convolve_real]
    and [convolve_complex] return, and when they succeed every output
    sample is the naive circular convolution sum, neither multiplied nor
    divided by [n].  Both do succeed when no allocation fails and
    [32 n < 2 ^ uint_bits]. *)
Theorem convolution_is_circular
        (f : nat) (h : heap) (x y out ximag yimag outimag : buf) (n : Z) :
  is_size n -> 1 <= n -> size_bits <= Z.of_nat f ->
  match convolve_real (S (S f)) h x y out n with
  | None => False
  | Some (false, _, _) => True
  | Some (true, out', _) =>
      forall k, 0 <= k < n -> out' k = circular_convolution_real n x y k
  end /\
  match convolve_complex (S (S f)) h x ximag y yimag out outimag n with
  | None => False
  | Some (false, _, _, _) => True
  | Some (true, outreal', outimag', _) =>
      forall k, 0 <= k < n ->
        cplx outreal' outimag' k
        = circular_convolution n (cplx x ximag) (cplx y yimag) k
  end /\
  (generous h -> 32 * n < 2 ^ uint_bits ->
   (exists out' h', convolve_real (S (S f)) h x y out n = Some (true, out', h')) /\
   (exists outreal' outimag' h',
      convolve_complex (S (S f)) h x ximag y yimag out outimag n
      = Some (true, outreal', outimag', h'))).
Proof.
  intros Hn H1 Hf.
  pose proof (transform_computes_dft f n Hn Hf) as Hd.
  assert (H0 : 0 < n) by lia.
  split; [| split].
  - rewrite convolve_real_unfold.
    destruct (calloc h n sizeof_double) as [px h1].
    destruct (calloc h1 n sizeof_double) as [py h2].
    destruct (calloc h2 n sizeof_double) as [pz h3].
    destruct (_ || _); [exact I |].
    destruct (convolve_complex_returns f h3 x zeros y zeros out zeros n Hn Hf)
      as ([[[s o_re] o_im] h4] & E).
    rewrite E. destruct s; [| exact I]. intros k Hk.
    destruct (convolve_complex_with_correct _ _ _ _ _ _ _ _ _ _ _ _ H0 Hd E)
      as [_ Hc].
    specialize (Hc k Hk). rewrite circular_convolution_of_reals in Hc.
    unfold cplx, RtoC in Hc. congruence.
  - destruct (convolve_complex_returns f h x ximag y yimag out outimag n Hn Hf)
      as ([[[s o_re] o_im] h4] & E).
    rewrite E. destruct s; [| exact I].
    now destruct (convolve_complex_with_correct _ _ _ _ _ _ _ _ _ _ _ _ H0 Hd E).
  - intros Hg Hu.
    pose proof (transform_succeeds f n ltac:(lia) Hu Hf) as Hs.
    assert (Hmax : n <= SIZE_MAX / sizeof_double).
    { apply Z.div_le_lower_bound; unfold sizeof_double; [lia |].
      assert (2 ^ uint_bits <= 2 ^ size_bits)
        by (apply Z.pow_le_mono_r; pose proof uint_bits_min;
            pose proof size_bits_min; lia).
      unfold SIZE_MAX. lia. }
    split.
    + rewrite convolve_real_unfold.
      destruct (calloc h n sizeof_double) as [px h1] eqn:E1.
      destruct (calloc_ok _ _ _ _ _ Hg E1) as [N1 Hg1].
      destruct (calloc h1 n sizeof_double) as [py h2] eqn:E2.
      destruct (calloc_ok _ _ _ _ _ Hg1 E2) as [N2 Hg2].
      destruct (calloc h2 n sizeof_double) as [pz h3] eqn:E3.
      destruct (calloc_ok _ _ _ _ _ Hg2 E3) as [N3 Hg3].
      rewrite N1, N2, N3. cbn [orb].
      destruct (convolve_complex_with_succeeds _ h3 x zeros y zeros out zeros n
                  Hs Hmax Hg3) as (o_re & o_im & h4 & E & _).
      unfold convolve_complex. rewrite E. eauto.
    + destruct (convolve_complex_with_succeeds _ h x ximag y yimag out outimag n
                  Hs Hmax Hg) as (o_re & o_im & h4 & E & _).
      unfold convolve_complex. rewrite E. eauto.
Qed.

(** ** C4: the vector [b] of Bluestein's algorithm *)

(** C4, as the code has it.  With [m] the length [transform_bluestein]
    selects, its vector [b] holds [chirp[0]] at 0, [chirp[i]] at both [i]
    and [m - i] for [1 <= i < n], and 0 elsewhere; so [b[m - i] = b[i]]: the
    vector is symmetric. *)
Theorem bluestein_b_layout (fuel : nat) (n m : Z) (c0 s0 : buf) :
  1 <= n -> bluestein_length fuel n = Some (Some m) ->
  size_bits <= Z.of_nat fuel ->
  let '(cos_table, sin_table) := bluestein_tables n c0 s0 in
  let '(breal, bimag) := bluestein_b n m cos_table sin_table zeros zeros in
  (breal 0 = cos_table 0 /\ bimag 0 = sin_table 0) /\
  (forall i, 1 <= i < n ->
     breal i = cos_table i /\ bimag i = sin_table i /\
     breal (m - i) = cos_table i /\ bimag (m - i) = sin_table i /\
     breal (m - i) = breal i /\ bimag (m - i) = bimag i) /\
  (forall j, n <= j <= m - n -> breal j = 0%R /\ bimag j = 0%R).
Proof.
  intros Hn Hl Hf.
  pose proof (bluestein_length_spec fuel n Hn Hf) as Hs. rewrite Hl in Hs.
  destruct Hs as (_ & _ & [Hm _] & _).
  destruct (bluestein_tables n c0 s0) as [ct st].
  assert (Hm2 : 2 * n <= m) by lia.
  pose proof (bluestein_b_spec n m ct st Hn Hm2) as Hb.
  destruct (bluestein_b n m ct st zeros zeros) as [br bi]. cbn [fst snd] in Hb.
  split; [| split].
  - destruct (Hb 0) as [-> ->]. auto.
  - intros i Hi. destruct (Hb i) as [Ei1 Ei2]. destruct (Hb (m - i)) as [Em1 Em2].
    rewrite Ei1, Ei2, Em1, Em2, !two_sided_low, !two_sided_high by lia. auto 10.
  - intros j Hj. destruct (Hb j) as [-> ->]. rewrite !two_sided_middle by lia. auto.
Qed.

(** ** C5: the dispatch *)

(** C5.  [transform] on length 0 succeeds and leaves the buffers alone; on
    a power of two it is [transform_radix2]; on any other length it is
    [transform_bluestein]. *)
Theorem transform_dispatch (f : nat) (h : heap) (real imag : buf) (n : Z) :
  (n = 0 -> transform (S f) h real imag n = Some (true, real, imag, h)) /\
  (1 <= n -> pow2 n ->
   transform (S f) h real imag n = transform_radix2 f h real imag n) /\
  (1 <= n -> ~ pow2 n ->
   transform (S f) h real imag n = transform_bluestein f h real imag n).
Proof.
  split; [intros ->; reflexivity |]. split.
  - intros _ Hp. now apply transform_pow2'.
  - intros. now apply transform_other.
Qed.

(** ** C6: the overflow guards of [transform_bluestein] *)

(** C6.  [transform_bluestein] fails at once, with the signal and the
    allocator untouched, when [2n+1] does not fit a [size_t]; otherwise the
    length it selects is the least power of two that is at least [2n+1], and
    it fails in the same way when no such power of two fits. *)
Theorem bluestein_overflow_guard
        (fuel : nat) (h : heap) (real imag : buf) (n : Z) :
  is_size n ->
  ((SIZE_MAX - 1) / 2 < n ->
   transform_bluestein fuel h real imag n = Some (false, real, imag, h)) /\
  (1 <= n <= (SIZE_MAX - 1) / 2 -> size_bits <= Z.of_nat fuel ->
   match bluestein_length fuel n with
   | Some (Some m) =>
       pow2 m /\ 2 * n + 1 <= m <= SIZE_MAX /\
       (forall p, pow2 p -> 2 * n + 1 <= p -> m <= p)
   | Some None =>
       (forall p, pow2 p -> 2 * n + 1 <= p -> SIZE_MAX < p) /\
       transform_bluestein fuel h real imag n = Some (false, real, imag, h)
   | None => False
   end).
Proof.
  intros Hn. split.
  - intros Hbig. unfold transform_bluestein, transform_bluestein_with, bluestein_length.
    now rewrite (proj2 (Z.ltb_lt _ _) Hbig).
  - intros Hr Hf. pose proof (bluestein_length_spec fuel n ltac:(lia) Hf) as Hs.
    unfold transform_bluestein, transform_bluestein_with.
    destruct (bluestein_length fuel n) as [[m |] |]; [tauto | | exact Hs].
    split; [| reflexivity]. destruct Hs as [Hs | Hs]; [lia | exact Hs].
Qed.

(** ** C7: the power-of-two verification of [transform_radix2] *)

(** The verification passes on every power of two below [2 ^ uint_bits];
    [transform_radix2] then fails only on the size guard or on a failed
    allocation. *)
Lemma transform_radix2_accepts fuel h real imag n :
  is_size n -> size_bits <= Z.of_nat fuel -> pow2 n -> n < 2 ^ uint_bits ->
  log2_loop fuel n 0 = Some (Z.log2 n) /\
  not_power_of_2 (Z.log2 n) n = false /\
  (forall real' imag' h',
     transform_radix2 fuel h real imag n = Some (false, real', imag', h') ->
     SIZE_MAX / sizeof_double < n / 2 \/
     exists k, (k < length (served h) + 2)%nat /\ outcome h k = false).
Proof.
  intros Hn Hf Hp Hu. split; [now apply log2_loop_size |].
  assert (Hc : not_power_of_2 (Z.log2 n) n = false)
    by (apply not_power_of_2_false; auto).
  split; [exact Hc |]. intros real' imag' h'.
  rewrite transform_radix2_eq, Hc by assumption.
  destruct (Z.ltb_spec (SIZE_MAX / sizeof_double) (n / 2)) as [Hg | Hg]; [now left |].
  cbv zeta. unfold malloc. cbn [served outcome garbage length].
  destruct (outcome h (length (served h))) eqn:O1.
  - destruct (outcome h (S (length (served h)))) eqn:O2.
    + cbn [is_null orb]. destruct (radix2_core _ _ _ _ _ _). discriminate.
    + intros _. right. exists (S (length (served h))). split; [lia | exact O2].
  - intros _. right. exists (length (served h)). split; [lia | exact O1].
Qed.

(** ** C8: the inverse transform *)

(** C8.  [inverse_transform] is [transform] with the two buffers swapped:
    same status, same allocator, and each buffer holds what the swapped
    call left in it.  Nothing is rescaled: on success the buffers hold the
    inverse transform without its factor [1/n]. *)
Theorem inverse_transform_is_swapped_transform
        (f : nat) (h : heap) (real imag : buf) (n : Z) :
  (forall fuel,
     inverse_transform fuel h real imag n =
     match transform fuel h imag real n with
     | None => None
     | Some (status, imag', real', h') => Some (status, real', imag', h')
     end) /\
  (is_size n -> size_bits <= Z.of_nat f ->
   forall real' imag' h',
     inverse_transform (S (S f)) h real imag n = Some (true, real', imag', h') ->
     forall k, 0 <= k < n -> cplx real' imag' k = idft n (cplx real imag) k).
Proof.
  split; [reflexivity |]. intros Hn Hf real' imag' h' E k Hk.
  exact (inverse_transform_with_idft _ _ _ _ _ _ _ _
           (transform_computes_dft f n Hn Hf) E k Hk).
Qed.

(** ** C9: the recursion *)

(** C9.  The length [transform_bluestein] hands to the convolution is a
    power of two, on which [transform] is [transform_radix2]; so a
    [transform] of a length that is not a power of two is Bluestein's
    algorithm over plain radix-2 transforms, with no further nesting; and
    every call of [transform] returns. *)
Theorem bluestein_recursion_depth_one
        (f : nat) (h : heap) (real imag : buf) (n : Z) :
  is_size n -> size_bits <= Z.of_nat f ->
  (forall m, 1 <= n -> bluestein_length (S f) n = Some (Some m) ->
     pow2 m /\
     forall h' r i, transform (S f) h' r i m = transform_radix2 f h' r i m) /\
  (1 <= n -> ~ pow2 n ->
   transform (S (S f)) h real imag n =
   transform_bluestein_with (transform_radix2 f) (S f) h real imag n) /\
  (exists o, transform (S (S f)) h real imag n = Some o).
Proof.
  intros Hn Hf.
  assert (Hm : forall m, 1 <= n -> bluestein_length (S f) n = Some (Some m) -> pow2 m).
  { intros m H1 Hm.
    pose proof (bluestein_length_spec (S f) n H1 ltac:(lia)) as Hs.
    rewrite Hm in Hs. tauto. }
  split; [| split].
  - intros m H1 Hl. split; [now apply Hm |].
    intros. apply transform_pow2'. now apply Hm.
  - intros H1 Hp. rewrite transform_other by assumption.
    apply transform_bluestein_with_ext. intros m h' r i Hl.
    apply transform_pow2'. now apply Hm.
  - now apply transform_returns.
Qed.

(** ** C10: the bit reversal *)

(** C10.  [reverse_bits(., w)] maps [0 .. 2^w - 1] to itself, is its own
    inverse and hence a bijection; the bit-reversal pass of
    [transform_radix2] moves the sample at index [x] to index
    [reverse_bits(x, w)]. *)
Theorem reverse_bits_permutation (w x : Z) (real imag : buf) :
  0 <= w <= size_bits -> 0 <= x < 2 ^ w ->
  0 <= reverse_bits x w < 2 ^ w /\
  reverse_bits (reverse_bits x w) w = x /\
  (forall y, 0 <= y < 2 ^ w -> reverse_bits x w = reverse_bits y w -> x = y) /\
  (exists y, 0 <= y < 2 ^ w /\ reverse_bits y w = x) /\
  fst (bit_reverse_pass w (2 ^ w) real imag) (reverse_bits x w) = real x /\
  snd (bit_reverse_pass w (2 ^ w) real imag) (reverse_bits x w) = imag x.
Proof.
  intros Hw Hx.
  pose proof (reverse_bits_bound x w Hw) as Hb.
  pose proof (reverse_bits_involutive x w Hw Hx) as Hi.
  split; [exact Hb |]. split; [exact Hi |].
  split; [intros y Hy; now apply reverse_bits_injective |].
  split; [exists (reverse_bits x w); auto |].
  destruct (bit_reverse_pass_spec w real imag Hw (reverse_bits x w) Hb) as [-> ->].
  rewrite Hi. auto.
Qed.

End Claims2.

(** Where [size_t] is no wider than [unsigned int], as on ILP32, the
    verification passes on every power of two. *)
Lemma transform_radix2_accepts_ILP32 n :
  is_size (dm := ILP32) n -> pow2 n ->
  not_power_of_2 (dm := ILP32) (Z.log2 n) n = false.
Proof.
  intros Hn Hp. apply not_power_of_2_false; [exact Hn |]. split; [exact Hp |].
  unfold is_size, SIZE_MAX in Hn. cbn in *. lia.
Qed.

(** C7.  On the LP64 data model [transform_radix2] rejects the power of two
    [2 ^ 32]: [levels] is 32, [1u << 32] is not [n] (no [unsigned int] is),
    and the function returns 0 with nothing allocated. *)
Theorem transform_radix2_rejects_2_pow_32 (h : heap) (real imag : buf) :
  pow2 (2 ^ 32) /\
  is_size (dm := LP64) (2 ^ 32) /\
  log2_loop (dm := LP64) 64 (2 ^ 32) 0 = Some 32 /\
  (forall v, uint_wrap (dm := LP64) v <> 2 ^ 32) /\
  not_power_of_2 (dm := LP64) 32 (2 ^ 32) = true /\
  transform_radix2 (dm := LP64) 64 h real imag (2 ^ 32)
  = Some (false, real, imag, h).
Proof.
  split; [exists 32; split; [lia | reflexivity] |].
  split; [apply is_size_LP64; lia |].
  split; [vm_compute; reflexivity |].
  split.
  { intros v E. pose proof (uint_value_below (dm := LP64) v) as Hb.
    rewrite E in Hb. cbn in Hb. lia. }
  split; [vm_compute; reflexivity |].
  unfold transform_radix2.
  replace (log2_loop (dm := LP64) 64 (2 ^ 32) 0) with (Some 32)
    by (vm_compute; reflexivity).
  replace (not_power_of_2 (dm := LP64) 32 (2 ^ 32)) with true
    by (vm_compute; reflexivity).
  reflexivity.
Qed.

(** * The theorems at sample inputs *)

(** The claims that fail on the code, at the input where they fail. *)

(** C4, as stated, fails for [n = 3] (where [m = 8]): [b[7]] is [b[1]]
    itself, not its conjugate, since the imaginary part [sin(pi/3)] of
    [b[1]] is not zero. *)
Lemma bluestein_b_not_hermitian :
  bluestein_length (dm := LP64) 64 3 = Some (Some 8) /\
  let '(cos_table, sin_table) := bluestein_tables (dm := LP64) 3 zeros zeros in
  let '(breal, bimag) := bluestein_b 3 8 cos_table sin_table zeros zeros in
  ~ (breal (8 - 1) = breal 1 /\ bimag (8 - 1) = (- bimag 1%Z)%R).
Proof.
  split; [vm_compute; reflexivity |].
  assert (H1 : 0 <= 1 < 3) by lia.
  pose proof (bluestein_tables_spec (dm := LP64) 3 zeros zeros 1 H1) as [_ Hs].
  destruct (bluestein_tables 3 zeros zeros) as [ct st]. cbn [snd] in Hs.
  assert (H3 : 1 <= 3) by lia. assert (H8 : 2 * 3 <= 8) by lia.
  pose proof (bluestein_b_spec 3 8 ct st H3 H8) as Hb.
  destruct (bluestein_b 3 8 ct st zeros zeros) as [br bi]. cbn [fst snd] in Hb.
  destruct (Hb 1) as [_ B1]. destruct (Hb (8 - 1)) as [_ B7].
  intros [_ E]. rewrite B1, B7 in E.
  rewrite two_sided_high, two_sided_low in E by lia.
  assert (Ha : chirp_angle (dm := LP64) 3 1 = (PI * 1 / 3)%R) by reflexivity.
  rewrite Hs, Ha in E.
  assert (0 < sin (PI * 1 / 3))%R; [| lra].
  pose proof PI_RGT_0. apply sin_gt_0; lra.
Qed.

(** Sample inputs for the theorems that carry hypotheses. *)

Lemma round_trip_witness :
  is_size (dm := LP64) 3 /\ 1 <= 3 /\
  size_bits (DataModel := LP64) <= Z.of_nat 64 /\
  generous all_succeed /\ 32 * 3 < 2 ^ uint_bits (DataModel := LP64) /\
  exists X_re X_im h1 y_re y_im h2,
    transform (dm := LP64) 66 all_succeed impulse zeros 3
    = Some (true, X_re, X_im, h1) /\
    inverse_transform (dm := LP64) 66 h1 X_re X_im 3
    = Some (true, y_re, y_im, h2) /\
    forall k, 0 <= k < 3 ->
      (y_re k / IZR 3)%R = impulse k /\ (y_im k / IZR 3)%R = zeros k.
Proof.
  assert (Hn : is_size (dm := LP64) 3) by (unfold is_size, SIZE_MAX; cbn; lia).
  assert (H1 : 1 <= 3) by lia.
  assert (Hf : size_bits (DataModel := LP64) <= Z.of_nat 64) by (cbn; lia).
  assert (Hu : 32 * 3 < 2 ^ uint_bits (DataModel := LP64)) by (cbn; lia).
  pose proof (round_trip (dm := LP64) 64 all_succeed impulse zeros 3 Hn H1 Hf)
    as [_ H].
  split; [exact Hn |]. split; [exact H1 |]. split; [exact Hf |].
  split; [exact generous_all_succeed |]. split; [exact Hu |].
  exact (H generous_all_succeed Hu).
Defined.

Lemma convolution_is_circular_witness :
  is_size (dm := LP64) 3 /\ 1 <= 3 /\
  size_bits (DataModel := LP64) <= Z.of_nat 64 /\
  generous all_succeed /\ 32 * 3 < 2 ^ uint_bits (DataModel := LP64) /\
  (exists out' h',
     convolve_real (dm := LP64) 66 all_succeed impulse impulse zeros 3
     = Some (true, out', h')) /\
  match convolve_real (dm := LP64) 66 all_succeed impulse impulse zeros 3 with
  | None => False
  | Some (false, _, _) => True
  | Some (true, out', _) =>
      forall k, 0 <= k < 3 ->
        out' k = circular_convolution_real 3 impulse impulse k
  end.
Proof.
  assert (Hn : is_size (dm := LP64) 3) by (unfold is_size, SIZE_MAX; cbn; lia).
  assert (H1 : 1 <= 3) by lia.
  assert (Hf : size_bits (DataModel := LP64) <= Z.of_nat 64) by (cbn; lia).
  assert (Hu : 32 * 3 < 2 ^ uint_bits (DataModel := LP64)) by (cbn; lia).
  pose proof (convolution_is_circular (dm := LP64) 64 all_succeed
                impulse impulse zeros zeros zeros zeros 3 Hn H1 Hf) as (H & _ & Hs).
  split; [exact Hn |]. split; [exact H1 |]. split; [exact Hf |].
  split; [exact generous_all_succeed |]. split; [exact Hu |].
  split; [exact (proj1 (Hs generous_all_succeed Hu)) | exact H].
Defined.

Lemma bluestein_b_layout_witness :
  1 <= 3 /\ bluestein_length (dm := LP64) 64 3 = Some (Some 8) /\
  size_bits (DataModel := LP64) <= Z.of_nat 64 /\
  let '(cos_table, sin_table) := bluestein_tables (dm := LP64) 3 zeros zeros in
  let '(breal, bimag) := bluestein_b 3 8 cos_table sin_table zeros zeros in
  (breal 0 = cos_table 0 /\ bimag 0 = sin_table 0) /\
  (forall i, 1 <= i < 3 ->
     breal i = cos_table i /\ bimag i = sin_table i /\
     breal (8 - i) = cos_table i /\ bimag (8 - i) = sin_table i /\
     breal (8 - i) = breal i /\ bimag (8 - i) = bimag i) /\
  (forall j, 3 <= j <= 8 - 3 -> breal j = 0%R /\ bimag j = 0%R).
Proof.
  assert (H1 : 1 <= 3) by lia.
  assert (Hl : bluestein_length (dm := LP64) 64 3 = Some (Some 8))
    by (vm_compute; reflexivity).
  assert (Hf : size_bits (DataModel := LP64) <= Z.of_nat 64) by (cbn; lia).
  split; [exact H1 |]. split; [exact Hl |]. split; [exact Hf |].
  pose proof (bluestein_b_layout (dm := LP64) 64 3 8 zeros zeros H1 Hl Hf) as H.
  exact H.
Defined.

Lemma transform_dispatch_witness :
  transform (dm := LP64) 3 all_succeed impulse zeros 0
  = Some (true, impulse, zeros, all_succeed) /\
  transform (dm := LP64) 3 all_succeed impulse zeros 4
  = transform_radix2 (dm := LP64) 2 all_succeed impulse zeros 4 /\
  transform (dm := LP64) 3 all_succeed impulse zeros 3
  = transform_bluestein (dm := LP64) 2 all_succeed impulse zeros 3.
Proof.
  assert (H4 : pow2 4) by (exists 2; split; [lia | reflexivity]).
  split; [| split].
  - apply (transform_dispatch (dm := LP64) 2 all_succeed impulse zeros 0).
    reflexivity.
  - apply (transform_dispatch (dm := LP64) 2 all_succeed impulse zeros 4);
      [lia | exact H4].
  - apply (transform_dispatch (dm := LP64) 2 all_succeed impulse zeros 3);
      [lia | exact three_not_pow2].
Defined.

Lemma bluestein_overflow_guard_witness :
  (is_size (dm := LP64) (2 ^ 63) /\
   (SIZE_MAX (dm := LP64) - 1) / 2 < 2 ^ 63 /\
   transform_bluestein (dm := LP64) 0 all_succeed impulse zeros (2 ^ 63)
   = Some (false, impulse, zeros, all_succeed)) /\
  (is_size (dm := LP64) 3 /\
   1 <= 3 <= (SIZE_MAX (dm := LP64) - 1) / 2 /\
   size_bits (DataModel := LP64) <= Z.of_nat 64 /\
   match bluestein_length (dm := LP64) 64 3 with
   | Some (Some m) =>
       pow2 m /\ 2 * 3 + 1 <= m <= SIZE_MAX (dm := LP64) /\
       (forall p, pow2 p -> 2 * 3 + 1 <= p -> m <= p)
   | Some None =>
       (forall p, pow2 p -> 2 * 3 + 1 <= p -> SIZE_MAX (dm := LP64) < p) /\
       transform_bluestein (dm := LP64) 64 all_succeed impulse zeros 3
       = Some (false, impulse, zeros, all_succeed)
   | None => False
   end).
Proof.
  assert (Hbig : is_size (dm := LP64) (2 ^ 63))
    by (unfold is_size, SIZE_MAX; cbn; lia).
  assert (Hgt : (SIZE_MAX (dm := LP64) - 1) / 2 < 2 ^ 63)
    by (vm_compute; reflexivity).
  assert (Hn : is_size (dm := LP64) 3) by (unfold is_size, SIZE_MAX; cbn; lia).
  assert (Hr : 1 <= 3 <= (SIZE_MAX (dm := LP64) - 1) / 2)
    by (split; vm_compute; discriminate).
  assert (Hf : size_bits (DataModel := LP64) <= Z.of_nat 64) by (cbn; lia).
  split.
  - split; [exact Hbig |]. split; [exact Hgt |].
    pose proof (bluestein_overflow_guard (dm := LP64) 0 all_succeed impulse
                  zeros (2 ^ 63) Hbig) as [H _].
    exact (H Hgt).
  - split; [exact Hn |]. split; [exact Hr |]. split; [exact Hf |].
    pose proof (bluestein_overflow_guard (dm := LP64) 64 all_succeed impulse
                  zeros 3 Hn) as [_ H].
    exact (H Hr Hf).
Defined.

Lemma inverse_transform_is_swapped_transform_witness :
  is_size (dm := LP64) 3 /\ size_bits (DataModel := LP64) <= Z.of_nat 64 /\
  forall real' imag' h',
    inverse_transform (dm := LP64) 66 all_succeed impulse zeros 3
    = Some (true, real', imag', h') ->
    forall k, 0 <= k < 3 -> cplx real' imag' k = idft 3 (cplx impulse zeros) k.
Proof.
  assert (Hn : is_size (dm := LP64) 3) by (unfold is_size, SIZE_MAX; cbn; lia).
  assert (Hf : size_bits (DataModel := LP64) <= Z.of_nat 64) by (cbn; lia).
  split; [exact Hn |]. split; [exact Hf |].
  pose proof (inverse_transform_is_swapped_transform (dm := LP64) 64
                all_succeed impulse zeros 3) as [_ H].
  exact (H Hn Hf).
Defined.

Lemma bluestein_recursion_depth_one_witness :
  is_size (dm := LP64) 3 /\ size_bits (DataModel := LP64) <= Z.of_nat 64 /\
  1 <= 3 /\ ~ pow2 3 /\
  bluestein_length (dm := LP64) 65 3 = Some (Some 8) /\
  pow2 8 /\
  transform (dm := LP64) 66 all_succeed impulse zeros 3
  = transform_bluestein_with (dm := LP64) (transform_radix2 (dm := LP64) 64) 65
      all_succeed impulse zeros 3 /\
  exists o, transform (dm := LP64) 66 all_succeed impulse zeros 3 = Some o.
Proof.
  assert (Hn : is_size (dm := LP64) 3) by (unfold is_size, SIZE_MAX; cbn; lia).
  assert (Hf : size_bits (DataModel := LP64) <= Z.of_nat 64) by (cbn; lia).
  assert (H1 : 1 <= 3) by lia.
  assert (Hl : bluestein_length (dm := LP64) 65 3 = Some (Some 8))
    by (vm_compute; reflexivity).
  destruct (bluestein_recursion_depth_one (dm := LP64) 64 all_succeed impulse
              zeros 3 Hn Hf) as (Ha & Hb & Hc).
  split; [exact Hn |]. split; [exact Hf |]. split; [exact H1 |].
  split; [exact three_not_pow2 |]. split; [exact Hl |].
  split; [exact (proj1 (Ha 8 H1 Hl)) |].
  split; [exact (Hb H1 three_not_pow2) | exact Hc].
Defined.

Lemma reverse_bits_permutation_witness :
  0 <= 3 <= size_bits (DataModel := LP64) /\ 0 <= 3 < 2 ^ 3 /\
  0 <= reverse_bits (dm := LP64) 3 3 < 2 ^ 3 /\
  reverse_bits (dm := LP64) (reverse_bits (dm := LP64) 3 3) 3 = 3 /\
  fst (bit_reverse_pass (dm := LP64) 3 (2 ^ 3) impulse zeros)
      (reverse_bits (dm := LP64) 3 3) = impulse 3.
Proof.
  assert (Hw : 0 <= 3 <= size_bits (DataModel := LP64)) by (cbn; lia).
  assert (Hx : 0 <= 3 < 2 ^ 3) by lia.
  destruct (reverse_bits_permutation (dm := LP64) 3 3 impulse zeros Hw Hx)
    as (Hb & Hi & _ & _ & Hp & _).
  split; [exact Hw |]. split; [exact Hx |]. split; [exact Hb |].
  split; [exact Hi | exact Hp].
Defined.

(** * Further properties of the library *)

Lemma convolve_complex_with_outside (dm : DataModel) (tr : transformer)
      h xr xi yr yi outr outi n s outr' outi' h' :
  0 <= n ->
  convolve_complex_with tr h xr xi yr yi outr outi n = Some (s, outr', outi', h') ->
  same_outside n outr outr' /\ same_outside n outi outi'.
Proof.
  intros Hn E. destruct s.
  - revert E. unfold convolve_complex_with.
    destruct (_ <? _); [discriminate |]. cbv zeta.
    destruct (memdup h _ _) as [pxr h1]. destruct (memdup h1 _ _) as [pxi h2].
    destruct (memdup h2 _ _) as [pyr h3]. destruct (memdup h3 _ _) as [pyi h4].
    destruct (_ || _); [discriminate |].
    destruct (tr h4 _ _ n) as [[[[[] a] b] h5] |]; try discriminate.
    destruct (tr h5 _ _ n) as [[[[[] c] d] h6] |]; try discriminate.
    destruct (pointwise_product n a b c d) as [pr pi].
    destruct (inverse_transform_with tr h6 pr pi n) as [[[[[] e] g] h7] |];
      try discriminate.
    pose proof (scale_into_spec n e g outr outi) as Hs.
    destruct (scale_into n e g outr outi) as [o1 o2]. cbn [fst snd] in Hs.
    intros E. injection E as <- <- _.
    split; intros p Hp; destruct (Hs p Hn) as [S1 S2];
      rewrite in_range_false in S1, S2 by lia; assumption.
  - apply convolve_complex_with_failure in E. destruct E as [-> ->].
    split; intros p _; reflexivity.
Qed.

Section Extras.
Context {dm : DataModel}.

(** ** [transform] and [inverse_transform] *)

(** X1.  For every length, power of two or not, [transform] returns, and
    when it reports success bin [k] of the buffers holds the discrete
    Fourier transform [sum_t x(t) exp(-2 pi i t k / n)] of the signal they
    held, for every [k] in [0 .. n-1]. *)
Theorem transform_is_dft (f : nat) (h : heap) (real imag : buf) (n : Z) :
  is_size n -> size_bits <= Z.of_nat f ->
  match transform (S (S f)) h real imag n with
  | None => False
  | Some (false, _, _, _) => True
  | Some (true, real', imag', _) =>
      forall k, 0 <= k < n -> cplx real' imag' k = dft n (cplx real imag) k
  end.
Proof.
  intros Hn Hf.
  destruct (transform_returns f h real imag n Hn Hf) as ([[[s re'] im'] h'] & E).
  rewrite E. destruct s; [| exact I]. intros k Hk.
  exact (transform_computes_dft f n Hn Hf _ _ _ _ _ _ E k Hk).
Qed.

(** X2.  A [transform] or [inverse_transform] that reports failure has
    left both buffers exactly as they were: the signal is only overwritten
    once every allocation and every size check has passed. *)
Theorem failed_transform_leaves_signal
        (f : nat) (h : heap) (real imag : buf) (n : Z) :
  is_size n -> size_bits <= Z.of_nat f ->
  match transform (S (S f)) h real imag n with
  | None => False
  | Some (false, real', imag', _) => real' = real /\ imag' = imag
  | Some (true, _, _, _) => True
  end /\
  match inverse_transform (S (S f)) h real imag n with
  | None => False
  | Some (false, real', imag', _) => real' = real /\ imag' = imag
  | Some (true, _, _, _) => True
  end.
Proof.
  intros Hn Hf. split.
  - destruct (transform_returns f h real imag n Hn Hf) as ([[[s re'] im'] h'] & E).
    rewrite E. destruct s; [exact I |]. exact (transform_failure _ _ _ _ _ _ _ _ E).
  - unfold inverse_transform, inverse_transform_with.
    destruct (transform_returns f h imag real n Hn Hf) as ([[[s im'] re'] h'] & E).
    rewrite E. destruct s; [exact I |].
    destruct (transform_failure _ _ _ _ _ _ _ _ E). auto.
Qed.

(** X3.  [transform] and [inverse_transform] write only the first [n]
    samples of each buffer, whatever status they report. *)
Theorem transform_writes_first_n_only
        (f : nat) (h : heap) (real imag : buf) (n : Z) :
  is_size n -> size_bits <= Z.of_nat f ->
  match transform (S (S f)) h real imag n with
  | None => False
  | Some (_, real', imag', _) =>
      forall p, ~ 0 <= p < n -> real' p = real p /\ imag' p = imag p
  end /\
  match inverse_transform (S (S f)) h real imag n with
  | None => False
  | Some (_, real', imag', _) =>
      forall p, ~ 0 <= p < n -> real' p = real p /\ imag' p = imag p
  end.
Proof.
  intros Hn Hf. split.
  - destruct (transform_returns f h real imag n Hn Hf) as ([[[s re'] im'] h'] & E).
    rewrite E.
    destruct (transform_outside f h real imag n s re' im' h' Hn Hf E) as [H1 H2].
    intros p Hp. split; [now apply H1 | now apply H2].
  - unfold inverse_transform, inverse_transform_with.
    destruct (transform_returns f h imag real n Hn Hf) as ([[[s im'] re'] h'] & E).
    rewrite E.
    destruct (transform_outside f h imag real n s im' re' h' Hn Hf E) as [H1 H2].
    intros p Hp. split; [now apply H2 | now apply H1].
Qed.



(** X6.  A transform of length 1 leaves the signal as it is, yet it still
    asks the allocator for its two trigonometric tables, of zero bytes
    each, and reports failure when either request comes back [NULL]. *)
Theorem transform_length_one (f : nat) (h : heap) (real imag : buf) :
  size_bits <= Z.of_nat f ->
  exists h',
    transform (S (S f)) h real imag 1
    = Some (outcome h (length (served h)) && outcome h (S (length (served h))),
            real, imag, h') /\
    served h' = 0 :: 0 :: served h.
Proof.
  intros Hf. rewrite (transform_length_1 f h real imag Hf).
  eexists. split; reflexivity.
Qed.

(** X7.  [transform] agrees with the reference [naive_dft]: when it
    succeeds, its output is what [naive_dft] with [inverse = 0] writes for
    the same signal; and the output of a successful [inverse_transform] is
    what [naive_dft] writes with a non-zero [inverse]. *)
Theorem transform_agrees_with_naive_dft
        (f : nat) (h : heap) (real imag outreal outimag : buf) (inverse n : Z) :
  is_size n -> 1 <= n -> size_bits <= Z.of_nat f -> inverse <> 0 ->
  match transform (S (S f)) h real imag n with
  | None => False
  | Some (false, _, _, _) => True
  | Some (true, real', imag', _) =>
      forall k, 0 <= k < n ->
        real' k = fst (naive_dft real imag outreal outimag 0 n) k /\
        imag' k = snd (naive_dft real imag outreal outimag 0 n) k
  end /\
  match inverse_transform (S (S f)) h real imag n with
  | None => False
  | Some (false, _, _, _) => True
  | Some (true, real', imag', _) =>
      forall k, 0 <= k < n ->
        real' k = fst (naive_dft real imag outreal outimag inverse n) k /\
        imag' k = snd (naive_dft real imag outreal outimag inverse n) k
  end.
Proof.
  intros Hn H1 Hf Hinv.
  pose proof (transform_computes_dft f n Hn Hf) as Hd.
  split.
  - destruct (transform_returns f h real imag n Hn Hf) as ([[[s re'] im'] h'] & E).
    rewrite E. destruct s; [| exact I]. intros k Hk.
    pose proof (Hd _ _ _ _ _ _ E k Hk) as D.
    pose proof (naive_dft_spec real imag outreal outimag 0 n k ltac:(lia)) as N.
    rewrite in_range_true in N by lia. cbn [Z.eqb] in N.
    rewrite <- D in N. unfold cplx in N. injection N as -> ->. auto.
  - assert (Hr : forall h0 r i, exists o, transform (S (S f)) h0 r i n = Some o)
      by (intros; now apply transform_returns).
    destruct (inverse_transform_with_total (transform (S (S f))) h real imag n Hr)
      as ([[[s re'] im'] h'] & E).
    unfold inverse_transform. rewrite E. destruct s; [| exact I]. intros k Hk.
    pose proof (inverse_transform_with_idft _ _ _ _ _ _ _ _ Hd E k Hk) as D.
    pose proof (naive_dft_spec real imag outreal outimag inverse n k ltac:(lia)) as N.
    rewrite in_range_true in N by lia.
    destruct (Z.eqb_spec inverse 0); [contradiction |].
    rewrite <- D in N. unfold cplx in N. injection N as -> ->. auto.
Qed.



(** ** [naive_dft] *)


(** ** The convolutions *)

(** X11.  A [convolve_real] or [convolve_complex] that reports failure
    has not written to its output arrays, and one that reports success has
    written only their first [n] entries. *)
Theorem convolution_output_footprint
        (f : nat) (h : heap) (x y out ximag yimag outimag : buf) (n : Z) :
  is_size n -> size_bits <= Z.of_nat f ->
  match convolve_real (S (S f)) h x y out n with
  | None => False
  | Some (false, out', _) => out' = out
  | Some (true, out', _) => forall p, ~ 0 <= p < n -> out' p = out p
  end /\
  match convolve_complex (S (S f)) h x ximag y yimag out outimag n with
  | None => False
  | Some (false, outreal', outimag', _) => outreal' = out /\ outimag' = outimag
  | Some (true, outreal', outimag', _) =>
      forall p, ~ 0 <= p < n -> outreal' p = out p /\ outimag' p = outimag p
  end.
Proof.
  intros Hn Hf. split.
  - rewrite convolve_real_unfold.
    destruct (calloc h n sizeof_double) as [px h1].
    destruct (calloc h1 n sizeof_double) as [py h2].
    destruct (calloc h2 n sizeof_double) as [pz h3].
    destruct (_ || _); [reflexivity |].
    destruct (convolve_complex_returns f h3 x zeros y zeros out zeros n Hn Hf)
      as ([[[s o_re] o_im] h4] & E).
    rewrite E. unfold convolve_complex in E. destruct s.
    + destruct (convolve_complex_with_outside dm _ _ _ _ _ _ _ _ _ _ _ _ _
                  (proj1 Hn) E) as [H1 _].
      intros p Hp. now apply H1.
    + apply convolve_complex_with_failure in E. now destruct E.
  - destruct (convolve_complex_returns f h x ximag y yimag out outimag n Hn Hf)
      as ([[[s o_re] o_im] h4] & E).
    rewrite E. unfold convolve_complex in E. destruct s.
    + destruct (convolve_complex_with_outside dm _ _ _ _ _ _ _ _ _ _ _ _ _
                  (proj1 Hn) E) as [H1 H2].
      intros p Hp. split; [now apply H1 | now apply H2].
    + apply convolve_complex_with_failure in E. exact E.
Qed.

(** X12.  [convolve_complex] is commutative: with the operands exchanged,
    two successful calls write the same [n] output samples. *)
Theorem convolve_complex_commutes
        (f : nat) (h h' : heap) (xreal ximag yreal yimag o_re o_im p_re p_im : buf)
        (n : Z) :
  is_size n -> 1 <= n -> size_bits <= Z.of_nat f ->
  match convolve_complex (S (S f)) h xreal ximag yreal yimag o_re o_im n,
        convolve_complex (S (S f)) h' yreal yimag xreal ximag p_re p_im n with
  | None, _ | _, None => False
  | Some (true, a_re, a_im, _), Some (true, b_re, b_im, _) =>
      forall k, 0 <= k < n -> a_re k = b_re k /\ a_im k = b_im k
  | _, _ => True
  end.
Proof.
  intros Hn H1 Hf.
  pose proof (transform_computes_dft f n Hn Hf) as Hd.
  assert (H0 : 0 < n) by lia.
  destruct (convolve_complex_returns f h xreal ximag yreal yimag o_re o_im n Hn Hf)
    as ([[[s a_re] a_im] h1] & E).
  destruct (convolve_complex_returns f h' yreal yimag xreal ximag p_re p_im n Hn Hf)
    as ([[[s' b_re] b_im] h2] & E').
  rewrite E, E'. destruct s, s'; try exact I. intros k Hk.
  destruct (convolve_complex_with_correct _ _ _ _ _ _ _ _ _ _ _ _
              H0 Hd E) as [_ Ha].
  destruct (convolve_complex_with_correct _ _ _ _ _ _ _ _ _ _ _ _
              H0 Hd E') as [_ Hb].
  specialize (Ha k Hk). specialize (Hb k Hk).
  rewrite circular_convolution_comm in Ha by lia. rewrite <- Hb in Ha.
  unfold cplx in Ha. injection Ha as -> ->. auto.
Qed.


(** ** The packed transform and the magnitude spectra *)





(** X18.  [abs_dft_interval] and [abs_fft] agree: over any interval
    within [0 .. n/2], the direct sums of [abs_dft_interval] give the
    entries a successful [abs_fft] writes for the same signal. *)
Theorem abs_dft_interval_agrees_with_abs_fft
        (f : nat) (h : heap) (signal abs_onesided_fft abs_power_interval : buf)
        (n interval_start interval_stop : Z) :
  is_size n -> 1 <= n < 2 ^ (uint_bits - 1) -> size_bits <= Z.of_nat f ->
  allocs_succeed h 2 ->
  0 <= interval_start <= interval_stop -> interval_stop <= n / 2 + 1 ->
  match abs_fft (S (S f)) h signal abs_onesided_fft n with
  | None => False
  | Some (false, _, _) => True
  | Some (true, out', _) =>
      forall k, interval_start <= k < interval_stop ->
        abs_dft_interval signal abs_power_interval n interval_start interval_stop
                         (k - interval_start)
        = out' k
  end.
Proof.
  intros Hn Hr Hf Ha Hi Hs.
  destruct (abs_fft_returns f h signal abs_onesided_fft n Hn Hf)
    as ([[s out'] h'] & E).
  rewrite E.
  pose proof (abs_fft_spec f h signal abs_onesided_fft n s out' h'
                Hn Hr Hf Ha E) as H.
  destruct s; [| exact I]. intros k Hk.
  rewrite (abs_dft_interval_spec signal abs_power_interval n interval_start
             interval_stop (k - interval_start) ltac:(lia) ltac:(lia)).
  rewrite in_range_true by lia. rewrite H, in_range_true by lia.
  replace (interval_start + (k - interval_start)) with k by lia.
  assert (Hnz : IZR n <> 0%R) by (apply not_0_IZR; lia).
  field. exact Hnz.
Qed.

End Extras.


(** ** The further properties at sample inputs *)

Lemma is_size_3 : is_size (dm := LP64) 3.
Proof. apply is_size_LP64. lia. Qed.

Lemma is_size_4 : is_size (dm := LP64) 4.
Proof. apply is_size_LP64. lia. Qed.

Lemma fuel_64 : size_bits (DataModel := LP64) <= Z.of_nat 64.
Proof. cbn. lia. Qed.


Lemma transform_is_dft_witness :
  is_size (dm := LP64) 3 /\ size_bits (DataModel := LP64) <= Z.of_nat 64 /\
  match transform (dm := LP64) 66 all_succeed impulse zeros 3 with
  | None => False
  | Some (false, _, _, _) => True
  | Some (true, real', imag', _) =>
      forall k, 0 <= k < 3 -> cplx real' imag' k = dft 3 (cplx impulse zeros) k
  end.
Proof.
  split; [exact is_size_3 |]. split; [exact fuel_64 |].
  pose proof (transform_is_dft (dm := LP64) 64 all_succeed impulse zeros 3
                is_size_3 fuel_64) as H.
  exact H.
Defined.

Lemma failed_transform_leaves_signal_witness :
  is_size (dm := LP64) 4 /\ size_bits (DataModel := LP64) <= Z.of_nat 64 /\
  (exists h', transform (dm := LP64) 66 out_of_memory impulse zeros 4
              = Some (false, impulse, zeros, h')) /\
  match transform (dm := LP64) 66 out_of_memory impulse zeros 4 with
  | None => False
  | Some (false, real', imag', _) => real' = impulse /\ imag' = zeros
  | Some (true, _, _, _) => True
  end /\
  match inverse_transform (dm := LP64) 66 out_of_memory impulse zeros 4 with
  | None => False
  | Some (false, real', imag', _) => real' = impulse /\ imag' = zeros
  | Some (true, _, _, _) => True
  end.
Proof.
  split; [exact is_size_4 |]. split; [exact fuel_64 |].
  split; [eexists; vm_compute; reflexivity |].
  pose proof (failed_transform_leaves_signal (dm := LP64) 64 out_of_memory
                impulse zeros 4 is_size_4 fuel_64) as H.
  exact H.
Defined.

Lemma transform_writes_first_n_only_witness :
  is_size (dm := LP64) 3 /\ size_bits (DataModel := LP64) <= Z.of_nat 64 /\
  match transform (dm := LP64) 66 all_succeed impulse zeros 3 with
  | None => False
  | Some (_, real', imag', _) =>
      forall p, ~ 0 <= p < 3 -> real' p = impulse p /\ imag' p = zeros p
  end /\
  match inverse_transform (dm := LP64) 66 all_succeed impulse zeros 3 with
  | None => False
  | Some (_, real', imag', _) =>
      forall p, ~ 0 <= p < 3 -> real' p = impulse p /\ imag' p = zeros p
  end.
Proof.
  split; [exact is_size_3 |]. split; [exact fuel_64 |].
  pose proof (transform_writes_first_n_only (dm := LP64) 64 all_succeed
                impulse zeros 3 is_size_3 fuel_64) as H.
  exact H.
Defined.



Lemma transform_length_one_witness :
  size_bits (DataModel := LP64) <= Z.of_nat 64 /\
  exists h',
    transform (dm := LP64) 66 out_of_memory impulse zeros 1
    = Some (outcome out_of_memory (length (served out_of_memory))
            && outcome out_of_memory (S (length (served out_of_memory))),
            impulse, zeros, h') /\
    served h' = 0 :: 0 :: served out_of_memory.
Proof.
  split; [exact fuel_64 |].
  pose proof (transform_length_one (dm := LP64) 64 out_of_memory impulse zeros
                fuel_64) as H.
  exact H.
Defined.

Lemma transform_agrees_with_naive_dft_witness :
  is_size (dm := LP64) 3 /\ 1 <= 3 /\
  size_bits (DataModel := LP64) <= Z.of_nat 64 /\ 1 <> 0 /\
  match transform (dm := LP64) 66 all_succeed impulse zeros 3 with
  | None => False
  | Some (false, _, _, _) => True
  | Some (true, real', imag', _) =>
      forall k, 0 <= k < 3 ->
        real' k = fst (naive_dft impulse zeros zeros zeros 0 3) k /\
        imag' k = snd (naive_dft impulse zeros zeros zeros 0 3) k
  end /\
  match inverse_transform (dm := LP64) 66 all_succeed impulse zeros 3 with
  | None => False
  | Some (false, _, _, _) => True
  | Some (true, real', imag', _) =>
      forall k, 0 <= k < 3 ->
        real' k = fst (naive_dft impulse zeros zeros zeros 1 3) k /\
        imag' k = snd (naive_dft impulse zeros zeros zeros 1 3) k
  end.
Proof.
  assert (H1 : 1 <= 3) by lia. assert (Hi : 1 <> 0) by lia.
  split; [exact is_size_3 |]. split; [exact H1 |]. split; [exact fuel_64 |].
  split; [exact Hi |].
  pose proof (transform_agrees_with_naive_dft (dm := LP64) 64 all_succeed
                impulse zeros zeros zeros 1 3 is_size_3 H1 fuel_64 Hi) as H.
  exact H.
Defined.




Lemma convolution_output_footprint_witness :
  is_size (dm := LP64) 3 /\ size_bits (DataModel := LP64) <= Z.of_nat 64 /\
  match convolve_real (dm := LP64) 66 all_succeed impulse impulse zeros 3 with
  | None => False
  | Some (false, out', _) => out' = zeros
  | Some (true, out', _) => forall p, ~ 0 <= p < 3 -> out' p = zeros p
  end /\
  match convolve_complex (dm := LP64) 66 all_succeed impulse zeros impulse zeros
                         zeros zeros 3 with
  | None => False
  | Some (false, outreal', outimag', _) => outreal' = zeros /\ outimag' = zeros
  | Some (true, outreal', outimag', _) =>
      forall p, ~ 0 <= p < 3 -> outreal' p = zeros p /\ outimag' p = zeros p
  end.
Proof.
  split; [exact is_size_3 |]. split; [exact fuel_64 |].
  pose proof (convolution_output_footprint (dm := LP64) 64 all_succeed
                impulse impulse zeros zeros zeros zeros 3 is_size_3 fuel_64) as H.
  exact H.
Defined.

Lemma convolve_complex_commutes_witness :
  is_size (dm := LP64) 3 /\ 1 <= 3 /\
  size_bits (DataModel := LP64) <= Z.of_nat 64 /\
  match convolve_complex (dm := LP64) 66 all_succeed impulse zeros zeros impulse
                         zeros zeros 3,
        convolve_complex (dm := LP64) 66 all_succeed zeros impulse impulse zeros
                         zeros zeros 3 with
  | None, _ | _, None => False
  | Some (true, a_re, a_im, _), Some (true, b_re, b_im, _) =>
      forall k, 0 <= k < 3 -> a_re k = b_re k /\ a_im k = b_im k
  | _, _ => True
  end.
Proof.
  assert (H1 : 1 <= 3) by lia.
  split; [exact is_size_3 |]. split; [exact H1 |]. split; [exact fuel_64 |].
  pose proof (convolve_complex_commutes (dm := LP64) 64 all_succeed all_succeed
                impulse zeros zeros impulse zeros zeros zeros zeros 3
                is_size_3 H1 fuel_64) as H.
  exact H.
Defined.






Lemma abs_dft_interval_agrees_with_abs_fft_witness :
  is_size (dm := LP64) 4 /\ 1 <= 4 < 2 ^ (uint_bits (DataModel := LP64) - 1) /\
  size_bits (DataModel := LP64) <= Z.of_nat 64 /\
  allocs_succeed all_succeed 2 /\ 0 <= 1 <= 3 /\ 3 <= 4 / 2 + 1 /\
  match abs_fft (dm := LP64) 66 all_succeed impulse zeros 4 with
  | None => False
  | Some (false, _, _) => True
  | Some (true, out', _) =>
      forall k, 1 <= k < 3 ->
        abs_dft_interval impulse zeros 4 1 3 (k - 1) = out' k
  end.
Proof.
  assert (Hr : 1 <= 4 < 2 ^ (uint_bits (DataModel := LP64) - 1)) by (cbn; lia).
  assert (Hi : 0 <= 1 <= 3) by lia.
  assert (Hs : 3 <= 4 / 2 + 1) by (cbn; lia).
  pose proof (generous_allocs_succeed all_succeed 2 generous_all_succeed) as Ha.
  split; [exact is_size_4 |]. split; [exact Hr |]. split; [exact fuel_64 |].
  split; [exact Ha |]. split; [exact Hi |]. split; [exact Hs |].
  pose proof (abs_dft_interval_agrees_with_abs_fft (dm := LP64) 64 all_succeed
                impulse zeros zeros 4 1 3 is_size_4 Hr fuel_64 Ha Hi Hs) as H.
  exact H.
Defined.

